(** * oauth-expo: a shallow embedding of the Expo adapters and of the
      callback state machine, with the properties of its specification.

    The TypeScript sources are embedded method by method, under the names
    they have there:
    - [ExpoPKCEAdapter]: [generateRandomString], [sha256],
      [generateCodeChallenge];
    - [ExpoStorageAdapter]: [setItem], [getItem], [removeItem],
      [removeItems], [clearOAuthStorage], [storeTokens], [getTokens],
      [isTokenExpired];
    - [ExpoOAuthAdapter]: [handleCallback], [isAuthenticated],
      [getAccessToken], [logout];
    - [useOAuthCallback]: [handleCallback], [retry] and the effect that
      starts the first attempt;
    - [OAuthCallbackScreen]: the auto-redirect effect and its cleanup,
      [getStatusMessage] and what the screen renders;
    - the authorization-code flow handler that the adapter registers:
      [canHandle], [handle];
    - [useOAuthConfig]: [config], [generateAuthUrl];
    - [ExpoHttpAdapter]: [makeRequest], [post], [get].

    What the package only consumes is a Section variable or explicit
    state: the random source and the digest of expo-crypto, the store of
    AsyncStorage (with the rejections it may answer), the clock, the
    engine of oauth-core, the callbacks of the caller and the timers.
    An [async] function is a function from a state to an outcome (it
    returns or it throws) and a state. *)

From Stdlib Require Import ZArith QArith Qround String Ascii List Lia.
From stdpp Require Import gmap strings list pretty sorting.

Local Open Scope string_scope.
Local Open Scope list_scope.
Local Open Scope Z_scope.

(* ===================================================================== *)
(** * JavaScript values, exceptions and strings                          *)
(* ===================================================================== *)

Module Js.

(** A string is held as the bytes of its UTF-8 encoding: a character of
    ASCII is one [ascii], any other character two to four of them. The
    texts that the package makes itself (keys, messages, the verifier,
    decimal numbers) are ASCII. *)

(** The values a callback parameter may hold
    ([string | null | undefined], types/index.ts) and that a [throw] of a
    non-Error may carry. *)
Inductive value : Type :=
| VNull
| VUndefined
| VString (s : string).

(** A thrown value: an [Error] object with its [message]; an object of
    a class that extends [Error] ([TypeError], [SyntaxError], ...) with
    its [name] and its [message]; or any other value
    ([error instanceof Error] tells the last apart). *)
Inductive exn : Type :=
| JsError (message : string)
| JsErrorOf (name message : string)
| JsOther (v : value).

(** The result of running a piece of code: it returns or it throws. *)
Inductive outcome (A : Type) : Type :=
| Ok (a : A)
| Throw (e : exn).
Arguments Ok {A} a.
Arguments Throw {A} e.

(** [String(value)] *)
Definition String_ (v : value) : string :=
  match v with
  | VNull => "null"
  | VUndefined => "undefined"
  | VString s => s
  end.

(** Truthiness of a string: the empty string is falsy. *)
Definition truthy_string (s : string) : bool :=
  match s with
  | EmptyString => false
  | String _ _ => true
  end.

(** Truthiness of [string | null]: [null] and the empty string are falsy. *)
Definition truthy (o : option string) : bool :=
  match o with
  | Some s => truthy_string s
  | None => false
  end.

(** [a || b] on [string | undefined] with a string default. *)
Definition or_default (o : option string) (d : string) : string :=
  match o with
  | Some s => if truthy_string s then s else d
  | None => d
  end.

(** [Error.prototype.toString]: the name, a colon and the message; the
    one alone when the other is empty. *)
Definition Error_toString (name message : string) : string :=
  if negb (truthy_string name) then message
  else if negb (truthy_string message) then name
       else name +:+ ": " +:+ message.

(** [`${error}`]: [Error.prototype.toString] for Error objects (name
    "Error" for [Error] itself), [String(v)] otherwise. *)
Definition exn_to_string (e : exn) : string :=
  match e with
  | JsError m => if truthy_string m then "Error: " +:+ m else "Error"
  | JsErrorOf n m => Error_toString n m
  | JsOther v => String_ v
  end.

(** [error instanceof Error] *)
Definition instanceof_Error (e : exn) : bool :=
  match e with
  | JsError _ | JsErrorOf _ _ => true
  | JsOther _ => false
  end.

(** [s.charAt(pos)] of an ASCII string: the one-character string at
    [pos], the empty string out of range. *)
Definition charAt (s : string) (pos : Z) : string :=
  if pos <? 0 then EmptyString
  else match String.get (Z.to_nat pos) s with
       | Some c => String c EmptyString
       | None => EmptyString
       end.

(** [s.replace(/c/g, d)] for a one-character pattern and replacement. *)
Fixpoint replace_char (c d : ascii) (s : string) : string :=
  match s with
  | EmptyString => EmptyString
  | String a s' =>
      String (if Ascii.eqb a c then d else a) (replace_char c d s')
  end.

(** [s.replace(/[c]/g, '')] *)
Fixpoint remove_char (c : ascii) (s : string) : string :=
  match s with
  | EmptyString => EmptyString
  | String a s' =>
      if Ascii.eqb a c then remove_char c s' else String a (remove_char c s')
  end.

(** Every character of [s] satisfies [p]. *)
Fixpoint all_chars (p : ascii -> bool) (s : string) : bool :=
  match s with
  | EmptyString => true
  | String a s' => p a && all_chars p s'
  end.

(** Some character of [s] satisfies [p]. *)
Fixpoint some_char (p : ascii -> bool) (s : string) : bool :=
  match s with
  | EmptyString => false
  | String a s' => p a || some_char p s'
  end.

(** [/^[class]+$/.test(s)] for a character class [p]. *)
Definition matches_plus (p : ascii -> bool) (s : string) : bool :=
  truthy_string s && all_chars p s.

(** [s.includes(c)] for a single character. *)
Definition includes (s : string) (c : ascii) : bool :=
  some_char (Ascii.eqb c) s.

Definition between (lo hi c : ascii) : bool :=
  ((nat_of_ascii lo <=? nat_of_ascii c)%nat
   && (nat_of_ascii c <=? nat_of_ascii hi)%nat)%bool.

Definition alnum (c : ascii) : bool :=
  between "A" "Z" c || between "a" "z" c || between "0" "9" c.

End Js.
Import Js.

(* ===================================================================== *)
(** * ExpoPKCEAdapter                                                    *)
(* ===================================================================== *)

Module ExpoPKCEAdapter.

Record PKCEChallenge : Type := {
  codeChallenge : string;
  codeChallengeMethod : string;
  codeVerifier : string;
}.

Definition charset : string :=
  "ABCDEFGHIJKLMNOPQRSTUVWXYZabcdefghijklmnopqrstuvwxyz0123456789-._~".

(** [[A-Za-z0-9\-._~]]: the unreserved characters of RFC 3986. *)
Definition unreserved (c : ascii) : bool :=
  alnum c || Ascii.eqb c "-" || Ascii.eqb c "." || Ascii.eqb c "_"
  || Ascii.eqb c "~".

(** [[A-Za-z0-9_-]]: the base64url alphabet. *)
Definition base64url_char (c : ascii) : bool :=
  alnum c || Ascii.eqb c "_" || Ascii.eqb c "-".

(** [[A-Za-z0-9+/=]]: the characters of a padded standard base64 text. *)
Definition base64_char (c : ascii) : bool :=
  alnum c || Ascii.eqb c "+" || Ascii.eqb c "/" || Ascii.eqb c "=".

(** What [CryptoEncoding.BASE64] promises of a digest: standard base64
    characters only, and not padding alone. *)
Definition is_base64 (s : string) : bool :=
  all_chars base64_char s && some_char (fun c => negb (Ascii.eqb c "=")) s.

(** The base64 to base64url conversion of [sha256]. *)
Definition base64url_of_base64 (hash : string) : string :=
  remove_char "=" (replace_char "/" "_" (replace_char "+" "-" hash)).

Section WithPlatform.

(** [Math.random]: a state of the generator, and one draw from it. The
    draw is an exact rational of [0, 1). *)
Variable Rng : Type.
Variable Math_random : Rng -> Q * Rng.

(** [Crypto.digestStringAsync(SHA256, plain, {encoding: BASE64})]: the
    platform digest; it may reject. *)
Variable digestStringAsync : string -> outcome string.

(** The loop of [generateRandomString]: [n] iterations left. *)
Fixpoint generateRandomString_loop (n : nat) (result : string) (g : Rng)
  : string * Rng :=
  match n with
  | O => (result, g)
  | S n' =>
      let (r, g') := Math_random g in
      let i := Qfloor (r * inject_Z (Z.of_nat (String.length charset))) in
      generateRandomString_loop n' (result +:+ charAt charset i) g'
  end.

Definition generateRandomString (length : nat) (g : Rng) : string * Rng :=
  generateRandomString_loop length EmptyString g.

Definition sha256 (plain : string) : outcome string :=
  match digestStringAsync plain with
  | Ok hash => Ok (base64url_of_base64 hash)
  | Throw e => Throw e
  end.

Definition generateCodeChallenge (g : Rng) : outcome PKCEChallenge * Rng :=
  let (verifier, g') := generateRandomString 128 g in
  match sha256 verifier with
  | Ok challenge =>
      (Ok {| codeChallenge := challenge;
             codeChallengeMethod := "S256";
             codeVerifier := verifier |}, g')
  | Throw e => (Throw e, g')
  end.

End WithPlatform.

End ExpoPKCEAdapter.

(* ===================================================================== *)
(** * Code that returns or throws over a state                           *)
(* ===================================================================== *)

Module Eff.

(** An [async] function over a state [S]: run to completion, it returns
    or throws, and leaves a state. *)
Definition M (S A : Type) : Type := S -> outcome A * S.

Definition ret {S A} (a : A) : M S A := fun s => (Ok a, s).

Definition throw {S A} (e : exn) : M S A := fun s => (Throw e, s).

Definition bind {S A B} (m : M S A) (k : A -> M S B) : M S B :=
  fun s =>
    match m s with
    | (Ok a, s') => k a s'
    | (Throw e, s') => (Throw e, s')
    end.

(** [try { m } catch (error) { h error }] *)
Definition try_catch {S A} (m : M S A) (h : exn -> M S A) : M S A :=
  fun s =>
    match m s with
    | (Ok a, s') => (Ok a, s')
    | (Throw e, s') => h e s'
    end.

Definition get {S} : M S S := fun s => (Ok s, s).
Definition modify {S} (f : S -> S) : M S unit := fun s => (Ok tt, f s).

Declare Scope eff_scope.
Delimit Scope eff_scope with eff.
Notation "x <- m ;; k" := (bind m (fun x => k))
  (at level 100, m at next level, right associativity) : eff_scope.
Notation "m ;;; k" := (bind m (fun _ => k))
  (at level 100, right associativity) : eff_scope.

End Eff.
Import Eff.
Local Open Scope eff_scope.

(* ===================================================================== *)
(** * AsyncStorage and the clock: the platform under the storage adapter *)
(* ===================================================================== *)

Module AsyncStorage.

(** The requests the adapter sends to the key-value backend. *)
Inductive call : Type :=
| GetItem (key : string)
| SetItem (key value : string)
| RemoveItem (key : string)
| MultiRemove (keys : list string).

(** A rejected request: what it rejects with and, for a bulk remove, how
    many of its keys (a prefix) were removed before it gave up. *)
Record fault : Type := {
  cause : exn;
  applied : nat;
}.

(** The process-wide state: the persistent store, the reading of
    [Date.now()], the fate of the coming backend requests (head first;
    [None] and an exhausted schedule mean success) and the requests sent
    so far. *)
Record world : Type := {
  store : gmap string string;
  now : Z;
  faults : list (option fault);
  calls : list call;
}.

Definition remove_all (keys : list string) (m : gmap string string)
  : gmap string string :=
  foldr delete m keys.

(** The world once request [c] has left the store as [m]. *)
Definition after (c : call) (m : gmap string string) (w : world) : world :=
  {| store := m; now := now w;
     faults := tail (faults w); calls := calls w ++ [c] |}.

(** One backend request [c]: [ok] is its effect when it succeeds, [ko n]
    what a rejection leaves behind. *)
Definition request {A} (c : call)
    (ok : gmap string string -> A * gmap string string)
    (ko : nat -> gmap string string -> gmap string string) : M world A :=
  fun w =>
    match faults w with
    | Some f :: _ => (Throw (cause f), after c (ko (applied f) (store w)) w)
    | _ => let (a, m) := ok (store w) in (Ok a, after c m w)
    end.

(** The coming request succeeds. *)
Definition next_ok (w : world) : Prop :=
  forall f rest, faults w <> Some f :: rest.

(** No rejection is scheduled at all. *)
Definition quiet (w : world) : Prop :=
  Forall (fun f => f = None) (faults w).

(** A world with no rejection scheduled and no request sent yet. *)
Definition world_of (m : gmap string string) (t : Z) : world :=
  {| store := m; now := t; faults := []; calls := [] |}.

(** The same world with the clock read [t]. *)
Definition at_time (t : Z) (w : world) : world :=
  {| store := store w; now := t; faults := faults w; calls := calls w |}.

Definition getItem (key : string) : M world (option string) :=
  request (GetItem key) (fun m => (m !! key, m)) (fun _ m => m).

Definition setItem (key value : string) : M world unit :=
  request (SetItem key value) (fun m => (tt, <[key := value]> m))
          (fun _ m => m).

Definition removeItem (key : string) : M world unit :=
  request (RemoveItem key) (fun m => (tt, delete key m)) (fun _ m => m).

Definition multiRemove (keys : list string) : M world unit :=
  request (MultiRemove keys) (fun m => (tt, remove_all keys m))
          (fun n m => remove_all (take n keys) m).

(** [Date.now()] *)
Definition Date_now : M world Z := fun w => (Ok (now w), w).

End AsyncStorage.

(* ===================================================================== *)
(** * Numbers as the storage adapter uses them                           *)
(* ===================================================================== *)

Module Number.

(** An integer-valued JavaScript number, or [NaN]. Times are epoch
    milliseconds and lifetimes whole seconds: the embedding covers the
    integers, on which the arithmetic of doubles is exact up to 2^53. *)
Inductive number : Type :=
| NaN
| Num (z : Z).

(** [Number.isSafeInteger]: the integers that doubles hold without
    rounding, and on which [+] and [*] are those of the integers as long
    as the result is safe too. [Date.now()] is one of them. *)
Definition safe (z : Z) : Prop := - 2 ^ 53 < z < 2 ^ 53.

(** [n.toString()] of a safe integer: its decimal digits, [-] in front
    of a negative one. (Past the safe integers a double prints the
    shortest digits that read back to it, and from 10^21 on with an
    exponent; the embedding does not go there.) *)
Definition toString (z : Z) : string := pretty z.

Definition digit (c : ascii) : option Z :=
  if between "0" "9" c
  then Some (Z.of_nat (nat_of_ascii c) - 48)
  else None.

(** The longest prefix of decimal digits of [s], read into [acc];
    [seen] tells whether a digit was read already. *)
Fixpoint digits (s : string) (seen : bool) (acc : Z) : number :=
  match s with
  | EmptyString => if seen then Num acc else NaN
  | String c s' =>
      match digit c with
      | Some d => digits s' true (10 * acc + d)
      | None => if seen then Num acc else NaN
      end
  end.

(** White space and line terminators, as [parseInt] and [trimStart]
    skip them. Of one byte: TAB, LF, VT, FF, CR and the space. *)
Definition whitespace (c : ascii) : bool :=
  Ascii.eqb c " " || between "009" "013" c.

(** Of two bytes: U+00A0, the no-break space. *)
Definition whitespace2 (c d : ascii) : bool :=
  ((nat_of_ascii c =? 194) && (nat_of_ascii d =? 160))%nat.

(** Of three bytes: U+1680; U+2000 to U+200A, U+2028, U+2029 and U+202F;
    U+205F; U+3000; U+FEFF. *)
Definition whitespace3 (c d e : ascii) : bool :=
  let c := nat_of_ascii c in
  let d := nat_of_ascii d in
  let e := nat_of_ascii e in
  ((c =? 225) && (d =? 154) && (e =? 128)
   || (c =? 226) && (d =? 128)
      && ((128 <=? e) && (e <=? 138) || (e =? 168) || (e =? 169)
          || (e =? 175))
   || (c =? 226) && (d =? 129) && (e =? 159)
   || (c =? 227) && (d =? 128) && (e =? 128)
   || (c =? 239) && (d =? 187) && (e =? 191))%nat.

Fixpoint trimStart (s : string) : string :=
  match s with
  | EmptyString => EmptyString
  | String c s1 =>
      if whitespace c then trimStart s1
      else
        match s1 with
        | EmptyString => s
        | String d s2 =>
            if whitespace2 c d then trimStart s2
            else
              match s2 with
              | EmptyString => s
              | String e s3 =>
                  if whitespace3 c d e then trimStart s3 else s
              end
        end
  end.

Definition negate (n : number) : number :=
  match n with
  | NaN => NaN
  | Num z => Num (- z)
  end.

(** [parseInt(s, 10)]: leading white space skipped, an optional sign, the
    longest run of digits; [NaN] without a digit. *)
Definition parseInt (s : string) : number :=
  match trimStart s with
  | String "-" s' => negate (digits s' false 0)
  | String "+" s' => digits s' false 0
  | s' => digits s' false 0
  end.

(** [a >= b] with [a] a proper number: false against [NaN]. *)
Definition ge (a : Z) (b : number) : bool :=
  match b with
  | NaN => false
  | Num z => z <=? a
  end.

End Number.

(* ===================================================================== *)
(** * ExpoStorageAdapter                                                 *)
(* ===================================================================== *)

Module ExpoStorageAdapter.
Import AsyncStorage Number.

(** The double quote of the error templates. *)
Definition quote : string := String (ascii_of_nat 34) EmptyString.

(** [`${prefix} "${what}": ${error}`] *)
Definition wrapped (prefix what : string) (error : exn) : exn :=
  JsError (prefix +:+ " " +:+ quote +:+ what +:+ quote +:+ ": "
           +:+ exn_to_string error).

Definition setItem (key value : string) : M world unit :=
  try_catch (AsyncStorage.setItem key value)
    (fun error => throw (wrapped "Failed to store item with key" key error)).

Definition getItem (key : string) : M world (option string) :=
  try_catch (AsyncStorage.getItem key)
    (fun error =>
       throw (wrapped "Failed to retrieve item with key" key error)).

Definition removeItem (key : string) : M world unit :=
  try_catch (AsyncStorage.removeItem key)
    (fun error => throw (wrapped "Failed to remove item with key" key error)).

Definition removeItems (keys : list string) : M world unit :=
  try_catch (AsyncStorage.multiRemove keys)
    (fun error =>
       throw (wrapped "Failed to remove items with keys"
                      (String.concat ", " keys) error)).

Definition oauthKeys : list string :=
  [ "access_token"; "refresh_token"; "token_expiry"; "token_type";
    "oauth_state"; "oauth_state_expiry"; "pkce_code_verifier";
    "pkce_code_challenge"; "pkce_code_challenge_method" ].

Definition clearOAuthStorage : M world unit :=
  removeItems oauthKeys.

(** The argument of [storeTokens]; [None] is an omitted field. *)
Record tokens : Type := {
  accessToken : string;
  refreshToken : option string;
  expiresIn : option Z;
}.

(** [if (tokens.expiresIn)]: omitted and zero are both falsy. *)
Definition truthy_number (o : option Z) : bool :=
  match o with
  | Some z => negb (z =? 0)
  | None => false
  end.

Definition when {S} (b : bool) (m : M S unit) : M S unit :=
  if b then m else ret tt.

Definition storeTokens (t : tokens) : M world unit :=
  setItem "access_token" (accessToken t) ;;;
  when (truthy (refreshToken t))
       (setItem "refresh_token" (default EmptyString (refreshToken t))) ;;;
  when (truthy_number (expiresIn t))
       (n <- Date_now ;;
        let expiresAt := n + default 0 (expiresIn t) * 1000 in
        setItem "token_expiry" (toString expiresAt)) ;;;
  setItem "token_type" "Bearer".

(** The record [getTokens] resolves with; [None] is [null] in the first
    three fields and [undefined] in the last. *)
Record TokenData : Type := {
  td_accessToken : option string;
  td_refreshToken : option string;
  td_expiresAt : option number;
  td_tokenType : option string;
}.

(** [Promise.all] over four requests: all four are started, in order,
    and the whole rejects with the first rejection. *)
Definition all4 {S A} (m1 m2 m3 m4 : M S A) : M S (A * A * A * A) :=
  fun s =>
    let (o1, s1) := m1 s in
    let (o2, s2) := m2 s1 in
    let (o3, s3) := m3 s2 in
    let (o4, s4) := m4 s3 in
    match o1, o2, o3, o4 with
    | Ok a, Ok b, Ok c, Ok d => (Ok (a, b, c, d), s4)
    | Throw e, _, _, _ => (Throw e, s4)
    | _, Throw e, _, _ => (Throw e, s4)
    | _, _, Throw e, _ => (Throw e, s4)
    | _, _, _, Throw e => (Throw e, s4)
    end.

Definition getTokens : M world TokenData :=
  r <- all4 (getItem "access_token") (getItem "refresh_token")
            (getItem "token_expiry") (getItem "token_type") ;;
  let '(accessToken, refreshToken, expiresAtStr, tokenType) := r in
  let expiresAt :=
    if truthy expiresAtStr
    then Some (parseInt (default EmptyString expiresAtStr))
    else None in
  ret {| td_accessToken := accessToken;
         td_refreshToken := refreshToken;
         td_expiresAt := expiresAt;
         td_tokenType := if truthy tokenType then tokenType else None |}.

(** [isTokenExpired(expiresAt?)]; [None] is an argument left out,
    [undefined] or [null]. *)
Definition isTokenExpired (expiresAt : option number) : M world bool :=
  match expiresAt with
  | Some e => n <- Date_now ;; ret (ge n e)
  | None =>
      expiresAtStr <- getItem "token_expiry" ;;
      if negb (truthy expiresAtStr) then ret true
      else
        let storedExpiresAt := parseInt (default EmptyString expiresAtStr) in
        n <- Date_now ;; ret (ge n storedExpiresAt)
  end.

End ExpoStorageAdapter.

(* ===================================================================== *)
(** * ExpoOAuthAdapter                                                   *)
(* ===================================================================== *)

Module ExpoOAuthAdapter.
Import AsyncStorage.

(** [OAuthResult] of oauth-core, as this package reads it. *)
Record OAuthResult : Type := {
  success : bool;
  accessToken : option string;
  refreshToken : option string;
  expiresIn : option Z;
  error : option string;
  errorCode : option string;
}.

(** [Object.entries(params)] of the callback parameters: own keys, in
    insertion order. *)
Definition OAuthCallbackParams : Type := list (string * value).

(** [URLSearchParams]: name and value pairs, in order. *)
Definition URLSearchParams : Type := list (string * string).

(** [urlParams.set(key, v)]: the first pair named [key] takes the value
    and the later ones go; a new pair is appended otherwise. *)
Fixpoint set (key v : string) (p : URLSearchParams) : URLSearchParams :=
  match p with
  | [] => [(key, v)]
  | (k, x) :: p' =>
      if String.eqb k key
      then (key, v) :: filter (fun kv => kv.1 ≠ key) p'
      else (k, x) :: set key v p'
  end.

(** [urlParams.get(key)] *)
Fixpoint get (key : string) (p : URLSearchParams) : option string :=
  match p with
  | [] => None
  | (k, x) :: p' => if String.eqb k key then Some x else get key p'
  end.

(** [urlParams.has(key)] *)
Definition has (key : string) (p : URLSearchParams) : bool :=
  bool_decide (is_Some (get key p)).

(** [value !== null && value !== undefined] *)
Definition present (v : value) : bool :=
  match v with
  | VNull | VUndefined => false
  | VString _ => true
  end.

(** The [forEach] of [handleCallback], from the left. *)
Definition toURLSearchParams (params : OAuthCallbackParams)
  : URLSearchParams :=
  fold_left
    (fun urlParams kv =>
       if present kv.2 then set kv.1 (String_ kv.2) urlParams
       else urlParams)
    params [].

Section WithCore.

(** The methods of the oauth-core engine that the adapter calls. *)
Variable core_handleCallback : URLSearchParams -> M world OAuthResult.
Variable core_getAccessToken : M world (option string).
Variable core_isTokenExpired : M world bool.

Definition handleCallback (params : OAuthCallbackParams)
  : M world OAuthResult :=
  let urlParams := toURLSearchParams params in
  core_handleCallback urlParams.

Definition logout : M world unit :=
  ExpoStorageAdapter.clearOAuthStorage.

Definition isAuthenticated : M world bool :=
  try_catch
    (accessToken <- core_getAccessToken ;;
     if negb (truthy accessToken) then ret false
     else
       isExpired <- core_isTokenExpired ;;
       ret (negb isExpired))
    (fun _ => ret false).

Definition getAccessToken : M world (option string) :=
  try_catch
    (accessToken <- core_getAccessToken ;;
     if negb (truthy accessToken) then ret None
     else
       isExpired <- core_isTokenExpired ;;
       if isExpired then (logout ;;; ret None)
       else ret accessToken)
    (fun _ => ret None).

End WithCore.

End ExpoOAuthAdapter.

(* ===================================================================== *)
(** * useOAuthCallback                                                   *)
(* ===================================================================== *)

Module useOAuthCallback.
Import ExpoOAuthAdapter.

Inductive OAuthStatus : Type :=
| Processing
| Success
| Error.

Section WithAdapter.

(** Whatever the adapter and the callbacks of the caller act on. *)
Variable Env : Type.

(** [new ExpoOAuthAdapter(config)] and [adapter.handleCallback(params)],
    the delegated handler. *)
Variable new_ExpoOAuthAdapter : M Env unit.
Variable adapter_handleCallback : OAuthCallbackParams -> M Env OAuthResult.

(** The third argument of the hook; [None] is a field left out. *)
Record options : Type := {
  onSuccess : option (OAuthResult -> M Env unit);
  onError : option (exn -> M Env unit);
  autoStart : option bool;
}.

(** What an attempt does that the caller can see, in order. *)
Inductive event : Type :=
| SetStatus (s : OAuthStatus)
| SetMessage (m : string)
| OnSuccess (result : OAuthResult)
| OnError (e : exn).

(** The two state cells of the hook, the environment, and the events
    so far. *)
Record hook : Type := {
  status : OAuthStatus;
  message : string;
  env : Env;
  trace : list event;
}.

Definition initial (e : Env) : hook :=
  {| status := Processing; message := "Processing OAuth callback...";
     env := e; trace := [] |}.

Definition setStatus (s : OAuthStatus) : M hook unit :=
  modify (fun h => {| status := s; message := message h; env := env h;
                      trace := trace h ++ [SetStatus s] |}).

Definition setMessage (m : string) : M hook unit :=
  modify (fun h => {| status := status h; message := m; env := env h;
                      trace := trace h ++ [SetMessage m] |}).

Definition emit (ev : event) : M hook unit :=
  modify (fun h => {| status := status h; message := message h;
                      env := env h; trace := trace h ++ [ev] |}).

(** Code of the environment, run from the hook. *)
Definition lift {A} (m : M Env A) : M hook A :=
  fun h =>
    let (o, e) := m (env h) in
    (o, {| status := status h; message := message h; env := e;
           trace := trace h |}).

(** [options?.onSuccess] and [options?.onError] *)
Definition success_callback (o : option options)
  : option (OAuthResult -> M Env unit) :=
  match o with
  | Some x => onSuccess x
  | None => None
  end.

Definition error_callback (o : option options) : option (exn -> M Env unit) :=
  match o with
  | Some x => onError x
  | None => None
  end.

(** [options?.onSuccess?.(result)] *)
Definition call_onSuccess (o : option options) (result : OAuthResult)
  : M hook unit :=
  match success_callback o with
  | Some f => emit (OnSuccess result) ;;; lift (f result)
  | None => ret tt
  end.

(** [options?.onError?.(e)] *)
Definition call_onError (o : option options) (e : exn) : M hook unit :=
  match error_callback o with
  | Some f => emit (OnError e) ;;; lift (f e)
  | None => ret tt
  end.

(** [error instanceof Error ? error.message : 'Unknown error occurred'] *)
Definition errorMessage_of (error : exn) : string :=
  match error with
  | JsError m | JsErrorOf _ m => m
  | JsOther _ => "Unknown error occurred"
  end.

(** [error instanceof Error ? error : new Error(errorMessage)] *)
Definition normalized (error : exn) : exn :=
  if instanceof_Error error then error
  else JsError (errorMessage_of error).

Definition handleCallback (params : OAuthCallbackParams)
    (o : option options) : M hook unit :=
  try_catch
    (setStatus Processing ;;;
     setMessage "Processing OAuth callback..." ;;;
     lift new_ExpoOAuthAdapter ;;;
     result <- lift (adapter_handleCallback params) ;;
     if success result then
       setStatus Success ;;;
       setMessage "Authentication successful" ;;;
       call_onSuccess o result
     else
       throw (JsError (or_default (error result)
                                  "OAuth authentication failed")))
    (fun error =>
       setStatus Error ;;;
       let errorMessage := errorMessage_of error in
       setMessage errorMessage ;;;
       call_onError o (normalized error)).

Definition retry (params : OAuthCallbackParams) (o : option options)
  : M hook unit :=
  handleCallback params o.

(** [options?.autoStart !== false] *)
Definition autoStart_enabled (o : option options) : bool :=
  match o with
  | Some {| autoStart := Some false |} => false
  | _ => true
  end.

(** The effect that runs on mount. *)
Definition useEffect_autoStart (params : OAuthCallbackParams)
    (o : option options) : M hook unit :=
  if autoStart_enabled o then handleCallback params o else ret tt.



End WithAdapter.

Arguments onSuccess {Env} _.
Arguments onError {Env} _.
Arguments autoStart {Env} _.
Arguments status {Env} _.
Arguments message {Env} _.
Arguments env {Env} _.
Arguments trace {Env} _.
Arguments initial {Env} e.
Arguments Build_options {Env} _ _ _.
Arguments Build_hook {Env} _ _ _ _.

End useOAuthCallback.

(* ===================================================================== *)
(** * OAuthCallbackScreen: the auto-redirect effect                      *)
(* ===================================================================== *)

Module OAuthCallbackScreen.
Import useOAuthCallback.

(** A pending [setTimeout]: its handle, the delay it was given and the
    props of the caller that its handler invokes when it fires. *)
Record timer : Type := {
  timer_id : nat;
  timer_delay : Z;
  timer_handler : list string;
}.

Record timers : Type := {
  pending : list timer;
  next_id : nat;
}.

Definition setTimeout (handler : list string) (delay : Z) : M timers nat :=
  fun t =>
    (Ok (next_id t),
     {| pending := pending t ++ [ {| timer_id := next_id t;
                                     timer_delay := delay;
                                     timer_handler := handler |} ];
        next_id := S (next_id t) |}).

Definition clearTimeout (id : nat) : M timers unit :=
  modify (fun t =>
    {| pending := filter (fun x => timer_id x ≠ id) (pending t);
       next_id := next_id t |}).

(** The props the effect depends on; [None] is a prop left out. *)
Record props (CB : Type) : Type := {
  onSuccess : option CB;
  autoRedirect : option bool;
  redirectDelay : option Z;
}.
Arguments onSuccess {CB} _.
Arguments autoRedirect {CB} _.
Arguments redirectDelay {CB} _.

(** The body of the effect; it returns the timer that its cleanup
    clears, [None] for [undefined]. The handler of the timer is empty. *)
Definition autoRedirect_effect {CB} (status : OAuthStatus) (p : props CB)
  : M timers (option nat) :=
  let autoRedirect := default true (autoRedirect p) in
  let redirectDelay := default 1500 (redirectDelay p) in
  if (match status with Success => true | _ => false end)
     && autoRedirect && bool_decide (is_Some (onSuccess p))
  then timer <- setTimeout [] redirectDelay ;; ret (Some timer)
  else ret None.

(** The cleanup React runs on unmount (and before the effect runs
    again). *)
Definition cleanup (c : option nat) : M timers unit :=
  match c with
  | Some timer => clearTimeout timer
  | None => ret tt
  end.

End OAuthCallbackScreen.


(* ===================================================================== *)
(** * JavaScript objects with string values, and form encoding          *)
(* ===================================================================== *)

Module JsObject.

(** An object with string values: its own properties, in the order in
    which they were created. *)
Definition obj : Type := list (string * string).

(** [o[key]] *)
Fixpoint lookup (key : string) (o : obj) : option string :=
  match o with
  | [] => None
  | (k, x) :: o' => if String.eqb k key then Some x else lookup key o'
  end.

(** [o[key] = v]: a property that exists keeps its place and takes the
    value, a new one goes last. *)
Fixpoint assign (key v : string) (o : obj) : obj :=
  match o with
  | [] => [(key, v)]
  | (k, x) :: o' =>
      if String.eqb k key then (k, v) :: o' else (k, x) :: assign key v o'
  end.

(** The properties [kvs] assigned to [o], one after the other. *)
Definition assign_all (kvs : list (string * string)) (o : obj) : obj :=
  fold_left (fun o kv => assign kv.1 kv.2 o) kvs o.

(** The array index that a property name is: the decimal text, without
    a sign or a needless zero, of an integer from 0 to 2^32 - 2. *)
Definition array_index (key : string) : option Z :=
  if all_chars (between "0" "9") key then
    match Number.digits key false 0 with
    | Number.Num n =>
        if String.eqb (Number.toString n) key && (n <? 2 ^ 32 - 1)
        then Some n
        else None
    | Number.NaN => None
    end
  else None.

Definition is_index (kv : string * string) : Prop :=
  is_Some (array_index kv.1).

(** The order of two properties whose names are array indices. *)
Definition index_le (a b : string * string) : Prop :=
  default 0 (array_index a.1) <= default 0 (array_index b.1).

#[export] Instance index_le_dec : RelDecision index_le :=
  fun a b => Z_le_dec (default 0 (array_index a.1))
                      (default 0 (array_index b.1)).

(** The own properties in the order in which [Object.keys],
    [Object.entries], a spread and [new URLSearchParams(o)] walk them:
    the array indices first, ascending, then the other names in the
    order of their creation. *)
Definition entries (o : obj) : obj :=
  merge_sort index_le (filter is_index o)
  ++ filter (fun kv => ~ is_index kv) o.

(** [{ ...target, ...source }], [target] being the properties that the
    literal has when it comes to spread [source]. *)
Definition spread (target source : obj) : obj :=
  assign_all (entries source) target.

(** [s.includes(sub)] *)
Fixpoint includes_text (s sub : string) : bool :=
  String.prefix sub s
  || match s with
     | EmptyString => false
     | String _ s' => includes_text s' sub
     end.

End JsObject.

Module FormUrlencoded.

(** The bytes that the serializer of [URLSearchParams] leaves as they
    are: letters, digits and [*-._]. *)
Definition safe (c : ascii) : bool :=
  alnum c || Ascii.eqb c "*" || Ascii.eqb c "-" || Ascii.eqb c "."
  || Ascii.eqb c "_".

Definition hex (n : nat) : ascii :=
  match String.get n "0123456789ABCDEF" with
  | Some c => c
  | None => "0"%char
  end.

(** One byte: itself, [+] for a space, [%XX] otherwise. *)
Definition encode_byte (c : ascii) : string :=
  if safe c then String c EmptyString
  else if Ascii.eqb c " " then "+"
  else String "%" (String (hex (nat_of_ascii c / 16))
                     (String (hex (nat_of_ascii c mod 16)) EmptyString)).

Fixpoint encode (s : string) : string :=
  match s with
  | EmptyString => EmptyString
  | String c s' => encode_byte c +:+ encode s'
  end.

(** [params.toString()] *)
Definition toString (params : list (string * string)) : string :=
  String.concat "&" (map (fun kv => encode kv.1 +:+ "=" +:+ encode kv.2) params).

End FormUrlencoded.

(* ===================================================================== *)
(** * The authorization-code flow handler of the adapter                 *)
(* ===================================================================== *)

Module AuthCodeFlow.
Import AsyncStorage ExpoOAuthAdapter.

Definition failure (error errorCode : string) : OAuthResult :=
  {| success := false; accessToken := None; refreshToken := None;
     expiresIn := None; error := Some error; errorCode := Some errorCode |}.

(** [canHandle]: a code, and neither a token nor a magic-link token. *)
Definition canHandle (params : URLSearchParams) : bool :=
  has "code" params && negb (has "token" params)
  && negb (has "magic_link_token" params).

Section WithTokenManager.

(** [tokenManager.exchangeAuthorizationCode(code, codeVerifier, config)]
    of oauth-core. *)
Variable exchangeAuthorizationCode : string -> string -> M world OAuthResult.

(** [handle]; the storage it reads is the storage adapter that the
    constructor handed to the core. *)
Definition handle (params : URLSearchParams) : M world OAuthResult :=
  let code := get "code" params in
  if negb (truthy code) then
    ret (failure "Missing authorization code" "invalid_request")
  else
    try_catch
      (codeVerifier <- ExpoStorageAdapter.getItem "pkce_code_verifier" ;;
       if negb (truthy codeVerifier) then
         ret (failure "Missing PKCE code verifier" "invalid_request")
       else
         exchangeAuthorizationCode (default EmptyString code)
                                   (default EmptyString codeVerifier))
      (fun error =>
         ret (failure match error with
                      | JsError m | JsErrorOf _ m => m
                      | JsOther _ => "Token exchange failed"
                      end
                      "token_exchange_failed")).

End WithTokenManager.

End AuthCodeFlow.

(* ===================================================================== *)
(** * useOAuthConfig                                                     *)
(* ===================================================================== *)

Module useOAuthConfig.
Import JsObject ExpoPKCEAdapter.

Record endpoints : Type := {
  authorization : string;
  token : string;
  revocation : option string;
}.

Record ExpoOAuthConfig : Type := {
  clientId : string;
  config_endpoints : endpoints;
  redirectUri : string;
  scopes : list string;
  scheme : option string;
  path : option string;
}.

(** The options of the hook; [None] is an option left out. *)
Record UseOAuthConfigOptions : Type := {
  opt_clientId : string;
  opt_authorizationEndpoint : string;
  opt_tokenEndpoint : string;
  opt_redirectUri : string;
  opt_scopes : option (list string);
  opt_scheme : option string;
  opt_path : option string;
  opt_revocationEndpoint : option string;
  opt_additionalParameters : option obj;
}.

(** The memoized [config]. An array is truthy, the empty one too: only
    scopes left out get the default. *)
Definition config (options : UseOAuthConfigOptions) : ExpoOAuthConfig :=
  {| clientId := opt_clientId options;
     config_endpoints :=
       {| authorization := opt_authorizationEndpoint options;
          token := opt_tokenEndpoint options;
          revocation := opt_revocationEndpoint options |};
     redirectUri := opt_redirectUri options;
     scopes := default ["read"; "write"] (opt_scopes options);
     scheme := opt_scheme options;
     path := opt_path options |}.

(** What [generateAuthUrl] resolves with. *)
Record AuthUrl : Type := {
  authUrl : string;
  url_codeVerifier : string;
  url_state : string;
}.

(** The seven standard parameters of the object literal. *)
Definition standard_params (c : ExpoOAuthConfig) (state : string)
    (pkceChallenge : PKCEChallenge) : obj :=
  [ ("response_type", "code");
    ("client_id", clientId c);
    ("redirect_uri", redirectUri c);
    ("scope", String.concat " " (scopes c));
    ("state", state);
    ("code_challenge", codeChallenge pkceChallenge);
    ("code_challenge_method", codeChallengeMethod pkceChallenge) ].

(** [new URLSearchParams({ ... })]: the pairs of the object literal, the
    seven standard parameters with the additional ones spread over
    them, as the constructor walks its properties. *)
Definition authorization_params (c : ExpoOAuthConfig) (state : string)
    (pkceChallenge : PKCEChallenge) (additionalParameters : option obj)
  : list (string * string) :=
  entries (spread (standard_params c state pkceChallenge)
                  (default [] additionalParameters)).

Section WithPlatform.

Variable Rng : Type.
Variable Math_random : Rng -> Q * Rng.
Variable digestStringAsync : string -> outcome string.

(** [Crypto.randomUUID()] *)
Variable randomUUID : M Rng string.

(** [pkceAdapter.generateState()] *)
Definition generateState : M Rng string := randomUUID.

Definition generateAuthUrl (c : ExpoOAuthConfig)
    (additionalParameters : option obj) : M Rng AuthUrl :=
  pkceChallenge <- generateCodeChallenge Rng Math_random digestStringAsync ;;
  state <- generateState ;;
  let params :=
    authorization_params c state pkceChallenge additionalParameters in
  let url := authorization (config_endpoints c) +:+ "?"
             +:+ FormUrlencoded.toString params in
  ret {| authUrl := url;
         url_codeVerifier := codeVerifier pkceChallenge;
         url_state := state |}.

End WithPlatform.

End useOAuthConfig.

(* ===================================================================== *)
(** * ExpoHttpAdapter                                                    *)
(* ===================================================================== *)

Module ExpoHttpAdapter.
Import JsObject.

Inductive method : Type :=
| GET
| POST.

(** [RequestInit] as [makeRequest] fills it; no [body] is [None]. *)
Record RequestInit : Type := {
  ri_method : method;
  ri_headers : obj;
  ri_body : option string;
}.

Definition defaultHeaders : obj :=
  [ ("Content-Type", "application/json"); ("Accept", "application/json") ].

(** A field of a request body, of type [unknown]: null, undefined, a
    string, a boolean, or any other value (a number, an object, ...).
    All that the adapter does with a field is [String(value)]; of a
    value of the last kind the embedding holds just that, the text that
    [String] makes of it or what the conversion throws. *)
Inductive unknown : Type :=
| UNull
| UUndefined
| UString (s : string)
| UBoolean (b : bool)
| UOther (text : outcome string).

(** [String(value)] *)
Definition String_of (v : unknown) : outcome string :=
  match v with
  | UNull => Ok "null"
  | UUndefined => Ok "undefined"
  | UString s => Ok s
  | UBoolean b => Ok (if b then "true" else "false")
  | UOther text => text
  end.

(** [value !== undefined && value !== null] *)
Definition given (v : unknown) : bool :=
  match v with
  | UNull | UUndefined => false
  | _ => true
  end.

(** [Object.entries(data)] of a request body. *)
Definition data : Type := list (string * unknown).

(** The [forEach] that fills [formData], from the pairs in [form]; a
    conversion that throws ends it. *)
Fixpoint formData (d : data) (form : list (string * string))
  : outcome (list (string * string)) :=
  match d with
  | [] => Ok form
  | (key, value) :: d' =>
      if given value then
        match String_of value with
        | Ok text => formData d' (form ++ [(key, text)])
        | Throw e => Throw e
        end
      else formData d' form
  end.

Section WithNetwork.

(** The state of the network, the type of parsed JSON, [JSON.stringify]
    (the text it returns, [None] for [undefined], or what it throws) and
    [fetch]. *)
Variable Net : Type.
Variable Json : Type.
Variable JSON_stringify : data -> outcome (option string).

(** A [Response]: its status, its headers as [forEach] walks them
    (names in lower case) and its two ways to read the body. *)
Record Response : Type := {
  resp_status : Z;
  resp_headers : obj;
  resp_json : M Net Json;
  resp_text : M Net string;
}.

Variable fetch : string -> RequestInit -> M Net Response.

Inductive body : Type :=
| JsonBody (j : Json)
| TextBody (s : string).

Record HttpResponse : Type := {
  status : Z;
  response_data : body;
  headers : obj;
}.

(** [{ ...defaultHeaders, ...headers }] *)
Definition requestHeaders (hs : option obj) : obj :=
  spread (spread [] defaultHeaders) (default [] hs).

(** Lines 23 to 51: the headers and the body of the request. Making the
    body may throw, in [String(value)] or in [JSON.stringify]. *)
Definition requestOptions (m : method) (d : option data)
    (hs : option obj) : outcome RequestInit :=
  let with_body (b : option string) : RequestInit :=
    {| ri_method := m; ri_headers := requestHeaders hs; ri_body := b |} in
  match d, m with
  | Some d', POST =>
      if bool_decide (lookup "Content-Type" (requestHeaders hs)
                      = Some "application/x-www-form-urlencoded")
      then
        match formData d' [] with
        | Ok form => Ok (with_body (Some (FormUrlencoded.toString form)))
        | Throw e => Throw e
        end
      else
        match JSON_stringify d' with
        | Ok text => Ok (with_body text)
        | Throw e => Throw e
        end
  | _, _ => Ok (with_body None)
  end.

(** Code that touches no state, run among code that does. *)
Definition pure {A} (o : outcome A) : M Net A := fun net => (o, net).

(** [contentType?.includes('application/json')] *)
Definition is_json (response : Response) : bool :=
  match lookup "content-type" (resp_headers response) with
  | Some ct => includes_text ct "application/json"
  | None => false
  end.

Definition makeRequest (m : method) (url : string) (d : option data)
    (hs : option obj) : M Net HttpResponse :=
  try_catch
    (requestOptions <- pure (requestOptions m d hs) ;;
     response <- fetch url requestOptions ;;
     let responseHeaders := assign_all (resp_headers response) [] in
     responseData <-
       (if is_json response
        then (j <- resp_json response ;; ret (JsonBody j))
        else (s <- resp_text response ;; ret (TextBody s))) ;;
     ret {| status := resp_status response;
            response_data := responseData;
            headers := responseHeaders |})
    (fun error =>
       throw (JsError ("Network request failed: " +:+ exn_to_string error))).

Definition post (url : string) (d : data) (hs : option obj)
  : M Net HttpResponse :=
  makeRequest POST url (Some d) hs.

Definition get (url : string) (hs : option obj) : M Net HttpResponse :=
  makeRequest GET url None hs.

End WithNetwork.

Arguments resp_status {Net Json} _.
Arguments resp_headers {Net Json} _.
Arguments resp_json {Net Json} _.
Arguments resp_text {Net Json} _.
Arguments JsonBody {Json} j.
Arguments TextBody {Json} s.
Arguments status {Json} _.
Arguments response_data {Json} _.
Arguments headers {Json} _.
Arguments is_json {Net Json} _.

End ExpoHttpAdapter.

(* ===================================================================== *)
(** * OAuthCallbackScreen: what it shows                                 *)
(* ===================================================================== *)

Module OAuthCallbackView.
Import useOAuthCallback.

(** The [messages] prop; [None] is a message left out. *)
Record messages : Type := {
  msg_processing : option string;
  msg_success : option string;
  msg_error : option string;
  msg_retryButton : option string;
}.

(** [messages?.field] *)
Definition field (m : option messages) (f : messages -> option string)
  : option string :=
  match m with
  | Some x => f x
  | None => None
  end.

Definition getStatusMessage (status : OAuthStatus) (m : option messages)
    (message : string) : string :=
  match status with
  | Processing =>
      or_default (Some (or_default (field m msg_processing) message))
                 "Processing OAuth callback..."
  | Success =>
      or_default (Some (or_default (field m msg_success) message))
                 "Authentication successful!"
  | Error => or_default (field m msg_error) message
  end.

(** The text of the title. *)
Definition title (status : OAuthStatus) : string :=
  match status with
  | Processing => "Authenticating..."
  | Success => "Success!"
  | Error => "Authentication Failed"
  end.

(** What the screen shows: the title, the message, and the label of the
    retry button when it is rendered. *)
Record view : Type := {
  view_title : string;
  view_message : string;
  view_retry : option string;
}.

Definition render (status : OAuthStatus) (m : option messages)
    (message : string) : view :=
  {| view_title := title status;
     view_message := getStatusMessage status m message;
     view_retry :=
       match status with
       | Error => Some (or_default (field m msg_retryButton) "Try Again")
       | _ => None
       end |}.

(** [handleRetry]: the caller's [onRetry] when given, else the [retry]
    of the hook. *)
Definition handleRetry {S} (onRetry : option (M S unit)) (retry : M S unit)
  : M S unit :=
  match onRetry with
  | Some f => f
  | None => retry
  end.

End OAuthCallbackView.

(* ===================================================================== *)
(** * The life of the auto-redirect effect                               *)
(* ===================================================================== *)

Module EffectLife.
Import useOAuthCallback OAuthCallbackScreen.

(** A render whose dependencies changed: React runs the cleanup of the
    render before, then the effect. *)
Definition render_effect {CB} (prev : option nat) (status : OAuthStatus)
    (p : props CB) : M timers (option nat) :=
  cleanup prev ;;; autoRedirect_effect status p.

(** The renders of a mounted screen, in order; [prev] is the cleanup
    that is due. *)
Fixpoint render_effects {CB} (rs : list (OAuthStatus * props CB))
    (prev : option nat) : M timers (option nat) :=
  match rs with
  | [] => ret prev
  | (status, p) :: rs' =>
      c <- render_effect prev status p ;; render_effects rs' c
  end.

(** Mount, render as [rs] says, unmount. *)
Definition lifetime {CB} (rs : list (OAuthStatus * props CB))
  : M timers unit :=
  c <- render_effects rs None ;; cleanup c.

End EffectLife.

(* ===================================================================== *)
(** * Concrete platforms, for running the embedding                      *)
(* ===================================================================== *)

Module Fixtures.

(** A generator that walks through the charset. *)
Definition walk (g : nat) : Q * nat :=
  (Z.of_nat g mod 66 # 66, S g).

(** A platform digest that answers every text with one base64 digest
    (the SHA-256 of the empty text). *)
Definition fixed_digest (plain : string) : outcome string :=
  Ok "47DEQpj8HBSa+/TImW+5JCeuQeRkm5NMpJWZG3hSuFU=".

(** A result of oauth-core that reports success with an access token. *)
Definition granted : ExpoOAuthAdapter.OAuthResult :=
  {| ExpoOAuthAdapter.success := true;
     ExpoOAuthAdapter.accessToken := Some "T";
     ExpoOAuthAdapter.refreshToken := None;
     ExpoOAuthAdapter.expiresIn := None;
     ExpoOAuthAdapter.error := None;
     ExpoOAuthAdapter.errorCode := None |}.

(** A result of oauth-core that reports a failure and its reason. *)
Definition denied : ExpoOAuthAdapter.OAuthResult :=
  {| ExpoOAuthAdapter.success := false;
     ExpoOAuthAdapter.accessToken := None;
     ExpoOAuthAdapter.refreshToken := None;
     ExpoOAuthAdapter.expiresIn := None;
     ExpoOAuthAdapter.error := Some "access_denied";
     ExpoOAuthAdapter.errorCode := None |}.

(** A delegated handler over a count of attempts: the first attempt
    rejects with a network error, the later ones resolve with
    [granted]. *)
Definition flaky (params : ExpoOAuthAdapter.OAuthCallbackParams)
  : M nat ExpoOAuthAdapter.OAuthResult :=
  fun attempts =>
    match attempts with
    | O => (Throw (JsError "Network error"), S attempts)
    | S _ => (Ok granted, S attempts)
    end.

(** A delegated handler that resolves with [denied]. *)
Definition refusing (params : ExpoOAuthAdapter.OAuthCallbackParams)
  : M nat ExpoOAuthAdapter.OAuthResult :=
  fun attempts => (Ok denied, S attempts).

(** Callbacks that return, and one that throws. *)
Definition quiet_options : useOAuthCallback.options nat :=
  {| useOAuthCallback.onSuccess := Some (fun _ => ret tt);
     useOAuthCallback.onError := Some (fun _ => ret tt);
     useOAuthCallback.autoStart := None |}.

Definition throwing_options : useOAuthCallback.options nat :=
  {| useOAuthCallback.onSuccess :=
       Some (fun _ => throw (JsError "navigation failed"));
     useOAuthCallback.onError := Some (fun _ => ret tt);
     useOAuthCallback.autoStart := None |}.

(** A delegated handler and callbacks that keep a journal of what was
    run, in order: the handler rejects with a network error when the
    journal is empty and resolves with [granted] after that. *)
Definition noting_handler (params : ExpoOAuthAdapter.OAuthCallbackParams)
  : M (list string) ExpoOAuthAdapter.OAuthResult :=
  fun journal =>
    (match journal with
     | [] => Throw (JsError "Network error")
     | _ :: _ => Ok granted
     end,
     journal ++ ["handleCallback"]).

Definition noting_options : useOAuthCallback.options (list string) :=
  {| useOAuthCallback.onSuccess :=
       Some (fun result journal =>
               (Ok tt,
                journal
                ++ ["onSuccess "
                    +:+ default EmptyString
                          (ExpoOAuthAdapter.accessToken result)]));
     useOAuthCallback.onError :=
       Some (fun e journal =>
               (Ok tt, journal ++ ["onError " +:+ exn_to_string e]));
     useOAuthCallback.autoStart := None |}.

(** A server that answers every request with a JSON body, the parsed
    body standing for itself, and a network that is down: [fetch]
    rejects with a TypeError. *)
Definition json_response : ExpoHttpAdapter.Response unit string :=
  {| ExpoHttpAdapter.resp_status := 200;
     ExpoHttpAdapter.resp_headers :=
       [("content-type", "application/json; charset=utf-8")];
     ExpoHttpAdapter.resp_json := ret "{}";
     ExpoHttpAdapter.resp_text := ret "{}" |}.

Definition answering (url : string) (req : ExpoHttpAdapter.RequestInit)
  : M unit (ExpoHttpAdapter.Response unit string) :=
  ret json_response.

Definition offline (url : string) (req : ExpoHttpAdapter.RequestInit)
  : M unit (ExpoHttpAdapter.Response unit string) :=
  throw (JsErrorOf "TypeError" "Network request failed").

End Fixtures.
(* ===================================================================== *)
(** * Properties of the PKCE adapter                                     *)
(* ===================================================================== *)

Module PKCEProps.
Import ExpoPKCEAdapter Fixtures.

Lemma length_append (a b : string) :
  String.length (a +:+ b) = (String.length a + String.length b)%nat.
Proof. induction a as [|c a IH]; simpl; [reflexivity | now rewrite IH]. Qed.

Lemma all_chars_append p (a b : string) :
  all_chars p (a +:+ b) = all_chars p a && all_chars p b.
Proof.
  induction a as [|c a IH]; simpl; [reflexivity |].
  rewrite IH. now rewrite andb_assoc.
Qed.

Lemma charset_length : String.length charset = 66%nat.
Proof. reflexivity. Qed.

(** Inside its range, [charAt] picks one unreserved character. *)
Lemma charAt_charset (i : Z) :
  0 <= i < 66 ->
  exists c, charAt charset i = String c EmptyString /\ unreserved c = true.
Proof.
  intros Hi.
  assert (Hn : (Z.to_nat i < 66)%nat) by lia.
  unfold charAt. replace (i <? 0) with false by (symmetry; apply Z.ltb_ge; lia).
  generalize dependent (Z.to_nat i). clear i Hi. intros n Hn.
  do 66 (destruct n as [|n]; [eexists; split; [reflexivity | reflexivity] |]).
  lia.
Qed.

(** [Math.floor(r * 66)] is an index of the charset when [r] is in [0, 1). *)
Lemma floor_index (r : Q) :
  (0 <= r)%Q -> (r < 1)%Q -> 0 <= Qfloor (r * inject_Z 66) < 66.
Proof.
  intros H0 H1. split.
  - change 0 with (Qfloor 0). apply Qfloor_resp_le.
    apply Qmult_le_0_compat; [exact H0 | discriminate].
  - apply Z.lt_nge. intros Hge.
    assert (Hq : (inject_Z 66 <= r * inject_Z 66)%Q).
    { eapply Qle_trans; [| apply Qfloor_le]. now rewrite <- Zle_Qle. }
    assert (Hlt : (r * inject_Z 66 < 1 * inject_Z 66)%Q).
    { apply Qmult_lt_compat_r; [reflexivity | exact H1]. }
    rewrite Qmult_1_l in Hlt.
    exact (Qlt_irrefl _ (Qle_lt_trans _ _ _ Hq Hlt)).
Qed.

Lemma all_chars_impl (p q : ascii -> bool) (s : string) :
  (forall a, p a = true -> q a = true) ->
  all_chars p s = true -> all_chars q s = true.
Proof.
  intros Hpq. induction s as [|a s IH]; simpl; [reflexivity |].
  intros [Ha Hs]%andb_prop. rewrite (Hpq _ Ha). simpl. auto.
Qed.

(** A replacement moves a text from class [p] to class [q] when it does
    so character by character. *)
Lemma all_chars_replace (p q : ascii -> bool) c d (s : string) :
  (forall a, p a = true -> q (if Ascii.eqb a c then d else a) = true) ->
  all_chars p s = true -> all_chars q (replace_char c d s) = true.
Proof.
  intros Hp. induction s as [|a s IH]; simpl; [reflexivity |].
  intros [Ha Hs]%andb_prop. rewrite (Hp _ Ha). simpl. auto.
Qed.

(** What is left after a removal is in the class and is not the removed
    character. *)
Lemma all_chars_remove p c (s : string) :
  all_chars p s = true ->
  all_chars (fun a => p a && negb (Ascii.eqb a c)) (remove_char c s) = true.
Proof.
  induction s as [|a s IH]; simpl; [reflexivity |].
  intros [Ha Hs]%andb_prop.
  destruct (Ascii.eqb a c) eqn:E; simpl; [| rewrite Ha, E]; auto.
Qed.

Lemma some_char_replace (p : ascii -> bool) c d (s : string) :
  (forall a, p a = true -> p (if Ascii.eqb a c then d else a) = true) ->
  some_char p s = true -> some_char p (replace_char c d s) = true.
Proof.
  intros Hp. induction s as [|a s IH]; simpl; [discriminate |].
  intros [Ha | Hs]%orb_prop.
  - now rewrite (Hp _ Ha).
  - rewrite (IH Hs). apply orb_true_r.
Qed.

Lemma truthy_remove_char c (s : string) :
  some_char (fun a => negb (Ascii.eqb a c)) s = true ->
  truthy_string (remove_char c s) = true.
Proof.
  induction s as [|a s IH]; simpl; [discriminate |].
  destruct (Ascii.eqb a c); simpl; [exact IH | reflexivity].
Qed.

Lemma includes_false_iff (s : string) (c : ascii) :
  includes s c = false <-> all_chars (fun a => negb (Ascii.eqb a c)) s = true.
Proof.
  unfold includes. induction s as [|a s IH]; simpl; [tauto |].
  rewrite (Ascii.eqb_sym c a). destruct (Ascii.eqb a c); simpl; [|exact IH].
  split; discriminate.
Qed.

(** After the three replacements of [sha256] a base64 text is made of
    base64url characters, none of them [+], [/] or [=]. *)
Lemma base64url_of_base64_class (h : string) :
  all_chars base64_char h = true ->
  all_chars (fun a => base64url_char a && negb (Ascii.eqb a "+")
                      && negb (Ascii.eqb a "/") && negb (Ascii.eqb a "="))
            (base64url_of_base64 h) = true.
Proof.
  intros Hh. unfold base64url_of_base64.
  eapply all_chars_impl; [| apply all_chars_remove].
  - intros a.
    instantiate (1 := fun a => (base64url_char a || Ascii.eqb a "=")
                               && negb (Ascii.eqb a "+")
                               && negb (Ascii.eqb a "/")).
    destruct a as [[] [] [] [] [] [] [] []]; vm_compute; auto.
  - apply (all_chars_replace
             (fun a => (base64url_char a || Ascii.eqb a "/" || Ascii.eqb a "=")
                       && negb (Ascii.eqb a "+"))).
    { intros a. destruct a as [[] [] [] [] [] [] [] []]; vm_compute; auto. }
    apply (all_chars_replace base64_char); [| exact Hh].
    intros a. destruct a as [[] [] [] [] [] [] [] []]; vm_compute; auto.
Qed.

Lemma base64url_of_base64_nonempty (h : string) :
  some_char (fun c => negb (Ascii.eqb c "=")) h = true ->
  truthy_string (base64url_of_base64 h) = true.
Proof.
  intros Hh. unfold base64url_of_base64. apply truthy_remove_char.
  apply some_char_replace;
    [| apply some_char_replace; [| exact Hh]];
    intros a; destruct a as [[] [] [] [] [] [] [] []]; vm_compute; auto.
Qed.

Section WithPlatform.

Variable Rng : Type.
Variable Math_random : Rng -> Q * Rng.
Variable digestStringAsync : string -> outcome string.

(** [Math.random()] is in [0, 1). *)
Hypothesis random_unit :
  forall g, (0 <= (Math_random g).1)%Q /\ ((Math_random g).1 < 1)%Q.

(** A digest that resolves is a base64 text. *)
Hypothesis digest_base64 :
  forall plain hash,
    digestStringAsync plain = Ok hash -> is_base64 hash = true.

Lemma generateRandomString_loop_spec (n : nat) :
  forall result g,
    all_chars unreserved result = true ->
    let out := (generateRandomString_loop Rng Math_random n result g).1 in
    String.length out = (String.length result + n)%nat
    /\ all_chars unreserved out = true.
Proof.
  induction n as [|n IH]; intros result g Hres;
    cbn [generateRandomString_loop].
  - simpl. split; [lia | exact Hres].
  - destruct (Math_random g) as [r g'] eqn:Hr.
    destruct (random_unit g) as [H0 H1]. rewrite Hr in H0, H1. simpl in H0, H1.
    destruct (charAt_charset _ (floor_index r H0 H1)) as (c & Hc & Hu).
    change (Z.of_nat (String.length charset)) with 66.
    rewrite Hc.
    specialize (IH (result +:+ String c EmptyString) g').
    destruct IH as [IHl IHc].
    { rewrite all_chars_append, Hres. simpl. now rewrite Hu. }
    split; [| exact IHc].
    rewrite IHl, length_append. simpl. lia.
Qed.

Lemma generateRandomString_spec (n : nat) (g : Rng) :
  let out := (generateRandomString Rng Math_random n g).1 in
  String.length out = n /\ all_chars unreserved out = true.
Proof.
  apply (generateRandomString_loop_spec n EmptyString g). reflexivity.
Qed.

(** [generateCodeChallenge] returns exactly when the digest of the
    verifier it drew resolves. *)
Lemma generateCodeChallenge_returns (g : Rng) :
  let verifier := (generateRandomString Rng Math_random 128 g).1 in
  forall hash,
    digestStringAsync verifier = Ok hash ->
    exists p g',
      generateCodeChallenge Rng Math_random digestStringAsync g
      = (Ok p, g').
Proof.
  intros verifier hash Hd. unfold generateCodeChallenge, sha256.
  destruct (generateRandomString Rng Math_random 128 g) as [v g'] eqn:E.
  simpl in verifier. subst verifier. rewrite Hd. eauto.
Qed.

(** C1: every PKCE set that [generateCodeChallenge] returns has a
    verifier of exactly 128 characters, all of them unreserved
    ([A-Za-z0-9-._~]); its challenge is the base64 digest of that
    verifier with [+] replaced by [-], [/] by [_] and every [=]
    removed, so it matches [^[A-Za-z0-9_-]+$] and holds none of [+],
    [/], [=]; and its method is the literal S256. The charset the
    verifier is drawn from is made of 66 unreserved characters. *)
Theorem generateCodeChallenge_spec (g g' : Rng) (p : PKCEChallenge) :
  generateCodeChallenge Rng Math_random digestStringAsync g = (Ok p, g') ->
  String.length (codeVerifier p) = 128%nat
  /\ matches_plus unreserved (codeVerifier p) = true
  /\ (exists hash,
        digestStringAsync (codeVerifier p) = Ok hash
        /\ codeChallenge p
           = remove_char "=" (replace_char "/" "_"
                                (replace_char "+" "-" hash)))
  /\ matches_plus base64url_char (codeChallenge p) = true
  /\ includes (codeChallenge p) "+" = false
  /\ includes (codeChallenge p) "/" = false
  /\ includes (codeChallenge p) "=" = false
  /\ codeChallengeMethod p = "S256"
  /\ String.length charset = 66%nat
  /\ all_chars unreserved charset = true.
Proof.
  unfold generateCodeChallenge, sha256.
  pose proof (generateRandomString_spec 128 g) as [Hlen Hchars].
  destruct (generateRandomString Rng Math_random 128 g) as [v gv].
  simpl in Hlen, Hchars.
  destruct (digestStringAsync v) as [hash|e] eqn:Hd; [| discriminate].
  intros [= <- <-]. simpl.
  apply digest_base64 in Hd as Hb. unfold is_base64 in Hb.
  apply andb_prop in Hb as [Hall Hsome].
  pose proof (base64url_of_base64_class hash Hall) as Hclass.
  pose proof (base64url_of_base64_nonempty hash Hsome) as Hne.
  assert (Hpart : forall q : ascii -> bool,
             (forall a, (base64url_char a && negb (Ascii.eqb a "+")
                         && negb (Ascii.eqb a "/") && negb (Ascii.eqb a "="))
                        = true -> q a = true) ->
             all_chars q (base64url_of_base64 hash) = true).
  { intros q Hq. revert Hclass. apply all_chars_impl. exact Hq. }
  split; [exact Hlen |].
  split.
  { unfold matches_plus. rewrite Hchars.
    destruct v; [discriminate Hlen | reflexivity]. }
  split; [exists hash; split; [exact Hd | reflexivity] |].
  split.
  { unfold matches_plus. rewrite Hne. simpl. apply Hpart.
    intros a [[[Ha _]%andb_prop _]%andb_prop _]%andb_prop. exact Ha. }
  split.
  { apply includes_false_iff, Hpart.
    intros a [[[_ Ha]%andb_prop _]%andb_prop _]%andb_prop. exact Ha. }
  split.
  { apply includes_false_iff, Hpart.
    intros a [[_ Ha]%andb_prop _]%andb_prop. exact Ha. }
  split; [| repeat split].
  apply includes_false_iff, Hpart.
  intros a [_ Ha]%andb_prop. exact Ha.
Qed.

End WithPlatform.

Lemma walk_unit (g : nat) : (0 <= (walk g).1)%Q /\ ((walk g).1 < 1)%Q.
Proof.
  unfold walk, Qle, Qlt. simpl.
  pose proof (Z.mod_pos_bound (Z.of_nat g) 66). lia.
Qed.

Lemma fixed_digest_base64 (plain hash : string) :
  fixed_digest plain = Ok hash -> is_base64 hash = true.
Proof. intros [= <-]. reflexivity. Qed.

Lemma generateCodeChallenge_spec_witness :
  exists p g',
    generateCodeChallenge nat walk fixed_digest 7%nat = (Ok p, g')
    /\ String.length (codeVerifier p) = 128%nat
    /\ matches_plus base64url_char (codeChallenge p) = true.
Proof.
  eexists _, _. split; [vm_compute; reflexivity |].
  pose proof (generateCodeChallenge_spec nat walk fixed_digest
                walk_unit fixed_digest_base64 7%nat _ _ eq_refl)
    as (Hlen & _ & _ & Hurl & _).
  split; [exact Hlen | exact Hurl].
Defined.

End PKCEProps.

(* ===================================================================== *)
(** * Numbers through the store                                          *)
(* ===================================================================== *)

Module NumberProps.
Import Number.

Lemma digit_pretty_N_char (r : N) :
  (r < 10)%N -> digit (pretty_N_char r) = Some (Z.of_N r).
Proof.
  intros Hr.
  assert (Hc : (r = 0 \/ r = 1 \/ r = 2 \/ r = 3 \/ r = 4 \/ r = 5 \/ r = 6
                \/ r = 7 \/ r = 8 \/ r = 9)%N) by lia.
  repeat (destruct Hc as [-> | Hc]; [reflexivity |]). now subst.
Qed.

(** Reading the digits that [pretty_N_go] writes in front of [s] brings
    the accumulator to [acc * k + x], for a power [k] of ten. *)
Lemma digits_pretty_N_go (x : N) :
  (0 < x)%N ->
  exists k, forall s seen acc,
    digits (pretty_N_go x s) seen acc = digits s true (acc * k + Z.of_N x).
Proof.
  induction (N.lt_wf_0 x) as [x _ IH]. intros Hx.
  assert (Hr : (x `mod` 10 < 10)%N) by (apply N.mod_lt; lia).
  assert (Hdm : Z.of_N x = 10 * Z.of_N (x `div` 10) + Z.of_N (x `mod` 10)).
  { rewrite (N.div_mod x 10) at 1 by lia. lia. }
  destruct (N.eq_dec (x `div` 10)%N 0%N) as [Hz | Hnz].
  - exists 10. intros s seen acc.
    rewrite pretty_N_go_step, Hz, pretty_N_go_0 by exact Hx.
    cbn [digits]. rewrite (digit_pretty_N_char _ Hr).
    f_equal. rewrite Hdm, Hz. lia.
  - destruct (IH (x `div` 10)%N) as [k Hk].
    { apply N.div_lt; lia. }
    { lia. }
    exists (10 * k). intros s seen acc.
    rewrite pretty_N_go_step, Hk by exact Hx.
    cbn [digits]. rewrite (digit_pretty_N_char _ Hr).
    f_equal. rewrite Hdm. lia.
Qed.

(** A positive number is written with a digit in front. *)
Lemma pretty_N_go_head (x : N) (s : string) :
  (0 < x)%N ->
  exists c rest, pretty_N_go x s = String c rest /\ is_Some (digit c).
Proof.
  revert s. induction (N.lt_wf_0 x) as [x _ IH]. intros s Hx.
  assert (Hr : (x `mod` 10 < 10)%N) by (apply N.mod_lt; lia).
  rewrite pretty_N_go_step by exact Hx.
  destruct (N.eq_dec (x `div` 10)%N 0%N) as [Hz | Hnz].
  - rewrite Hz, pretty_N_go_0. eexists _, _. split; [reflexivity |].
    rewrite (digit_pretty_N_char _ Hr). eauto.
  - apply IH; [apply N.div_lt; lia |].
    destruct (x `div` 10)%N; [congruence | lia].
Qed.

(** A text that starts with an ASCII character that is no white space
    has nothing to trim. *)
Lemma trimStart_head (c : ascii) (rest : string) :
  whitespace c = false -> (nat_of_ascii c < 128)%nat ->
  trimStart (String c rest) = String c rest.
Proof.
  intros Hw Hc. cbn [trimStart]. rewrite Hw.
  assert (Hne : forall k, (128 <= k)%nat ->
                          (nat_of_ascii c =? k)%nat = false)
    by (intros k Hk; apply Nat.eqb_neq; lia).
  destruct rest as [| d [| e s3]]; try reflexivity.
  - unfold whitespace2. now rewrite Hne by lia.
  - unfold whitespace2, whitespace3. cbv zeta. now rewrite !Hne by lia.
Qed.

Lemma parseInt_digit_head (c : ascii) (rest : string) :
  is_Some (digit c) ->
  parseInt (String c rest) = digits (String c rest) false 0.
Proof.
  intros [d Hd]. unfold parseInt.
  destruct c as [[] [] [] [] [] [] [] []];
    try (vm_compute in Hd; discriminate Hd);
    (rewrite trimStart_head by (try reflexivity; vm_compute; lia));
    reflexivity.
Qed.

Lemma parseInt_pretty_pos (p : positive) :
  parseInt (pretty (Npos p)) = Num (Zpos p).
Proof.
  unfold pretty, pretty_N. rewrite decide_False by discriminate.
  destruct (pretty_N_go_head (Npos p) EmptyString) as (c & rest & Hs & Hc);
    [reflexivity |].
  destruct (digits_pretty_N_go (Npos p)) as [k Hk]; [reflexivity |].
  pose proof (Hk EmptyString false 0) as Hd.
  rewrite Hs in Hd |- *. rewrite (parseInt_digit_head _ _ Hc), Hd.
  reflexivity.
Qed.

(** What [toString] writes, [parseInt] reads back. *)
Lemma parseInt_toString (z : Z) : parseInt (toString z) = Num z.
Proof.
  unfold toString, pretty, pretty_Z. destruct z as [| p | p].
  - reflexivity.
  - apply parseInt_pretty_pos.
  - pose proof (parseInt_pretty_pos p) as Hp.
    unfold pretty, pretty_positive.
    unfold pretty, pretty_N in Hp |- *.
    rewrite decide_False in Hp |- * by discriminate.
    destruct (pretty_N_go_head (Npos p) EmptyString) as (c & rest & Hs & Hc);
      [reflexivity |].
    rewrite Hs in Hp |- *.
    rewrite (parseInt_digit_head _ _ Hc) in Hp.
    change ("-" +:+ String c rest) with (String "-" (String c rest)).
    unfold parseInt.
    rewrite trimStart_head by (try reflexivity; vm_compute; lia).
    now rewrite Hp.
Qed.

Lemma toString_truthy (z : Z) : truthy_string (toString z) = true.
Proof.
  pose proof (parseInt_toString z) as H.
  destruct (toString z); [discriminate H | reflexivity].
Qed.

Lemma parseInt_Num_truthy (s : string) (z : Z) :
  parseInt s = Num z -> truthy_string s = true.
Proof. destruct s; [discriminate | reflexivity]. Qed.

End NumberProps.

(* ===================================================================== *)
(** * Properties of the storage adapter                                  *)
(* ===================================================================== *)

Module StorageProps.
Import AsyncStorage Number ExpoStorageAdapter NumberProps.

Lemma quiet_next_ok (w : world) : quiet w -> next_ok w.
Proof.
  unfold quiet, next_ok. intros Hq f rest Hf. rewrite Hf in Hq.
  inversion Hq; discriminate.
Qed.

Lemma quiet_after c m (w : world) : quiet w -> quiet (after c m w).
Proof.
  unfold quiet, after. simpl. intros Hq.
  destruct (faults w); simpl; [constructor | now inversion Hq].
Qed.

Lemma quiet_world_of m t : quiet (world_of m t).
Proof. constructor. Qed.

Lemma request_ok {A} c (ok : gmap string string -> A * gmap string string)
    ko (w : world) :
  next_ok w ->
  request c ok ko w = (Ok (ok (store w)).1, after c (ok (store w)).2 w).
Proof.
  unfold next_ok, request. intros Hn.
  destruct (faults w) as [| [f |] rest] eqn:Hf;
    try (now destruct (ok (store w))).
  now destruct (Hn f rest).
Qed.

Lemma request_ko {A} c (ok : gmap string string -> A * gmap string string)
    ko (w : world) f rest :
  faults w = Some f :: rest ->
  request c ok ko w = (Throw (cause f), after c (ko (applied f) (store w)) w).
Proof. unfold request. now intros ->. Qed.

Lemma setItem_ok key value (w : world) :
  next_ok w ->
  setItem key value w
  = (Ok tt, after (SetItem key value) (<[key := value]> (store w)) w).
Proof.
  intros Hn. unfold setItem, try_catch, AsyncStorage.setItem.
  now rewrite request_ok.
Qed.

Lemma getItem_ok key (w : world) :
  next_ok w ->
  getItem key w = (Ok (store w !! key), after (GetItem key) (store w) w).
Proof.
  intros Hn. unfold getItem, try_catch, AsyncStorage.getItem.
  now rewrite request_ok.
Qed.

Lemma removeItems_ok keys (w : world) :
  next_ok w ->
  removeItems keys w
  = (Ok tt, after (MultiRemove keys) (remove_all keys (store w)) w).
Proof.
  intros Hn. unfold removeItems, try_catch, AsyncStorage.multiRemove.
  now rewrite request_ok.
Qed.

Lemma removeItems_ko keys (w : world) f rest :
  faults w = Some f :: rest ->
  removeItems keys w
  = (Throw (wrapped "Failed to remove items with keys"
                    (String.concat ", " keys) (cause f)),
     after (MultiRemove keys)
           (remove_all (take (applied f) keys) (store w)) w).
Proof.
  intros Hf. unfold removeItems, try_catch, AsyncStorage.multiRemove.
  now rewrite (request_ko _ _ _ _ _ _ Hf).
Qed.

Lemma lookup_remove_all keys (m : gmap string string) k :
  remove_all keys m !! k = if decide (k ∈ keys) then None else m !! k.
Proof.
  unfold remove_all. induction keys as [| k' keys IH]; cbn [foldr].
  - destruct (decide (k ∈ [])) as [H | H]; [by apply elem_of_nil in H | done].
  - destruct (decide (k' = k)) as [-> | Hne].
    + rewrite lookup_delete_eq.
      destruct (decide (k ∈ k :: keys)) as [H | H]; [done |].
      exfalso. apply H. left.
    + rewrite lookup_delete_ne, IH by done.
      destruct (decide (k ∈ keys)) as [H1 | H1],
               (decide (k ∈ k' :: keys)) as [H2 | H2]; try done.
      * exfalso. apply H2. now right.
      * apply elem_of_cons in H2 as [-> | H2]; [done | contradiction].
Qed.

Lemma lookup_remove_all_take n keys (m : gmap string string) k :
  k ∉ keys -> remove_all (take n keys) m !! k = m !! k.
Proof.
  intros Hk. rewrite lookup_remove_all.
  destruct (decide (k ∈ take n keys)) as [Hin | Hin]; [| done].
  exfalso. apply Hk. apply list_elem_of_lookup in Hin as [i Hi].
  apply lookup_take_Some in Hi as [Hi _].
  apply list_elem_of_lookup. eauto.
Qed.

(** Reading a persisted expiry: the answer is the comparison of the
    parsed text with the current time. *)
Lemma isTokenExpired_stored (w : world) (s : string) (e : Z) :
  next_ok w ->
  store w !! "token_expiry" = Some s -> parseInt s = Num e ->
  (isTokenExpired None w).1 = Ok (e <=? now w).
Proof.
  intros Hn Hs He. unfold isTokenExpired, bind.
  rewrite (getItem_ok _ _ Hn), Hs. simpl.
  rewrite (parseInt_Num_truthy _ _ He). simpl. now rewrite He.
Qed.

(** C5: [isTokenExpired] with an explicit expiry compares it with the
    current time and sends no request to the store; without one it reads
    the persisted expiry, and answers true when none is stored, true when
    the stored expiry is less than the current time and false when it is
    greater. *)
Theorem isTokenExpired_spec (w : world) :
  (forall e : Z, isTokenExpired (Some (Num e)) w = (Ok (e <=? now w), w))
  /\ (next_ok w ->
      (store w !! "token_expiry" = None ->
       (isTokenExpired None w).1 = Ok true)
      /\ (forall s e,
            store w !! "token_expiry" = Some s -> parseInt s = Num e ->
            (e < now w -> (isTokenExpired None w).1 = Ok true)
            /\ (now w < e -> (isTokenExpired None w).1 = Ok false))).
Proof.
  split; [reflexivity |].
  intros Hn. split.
  - intros Hnone. unfold isTokenExpired, bind.
    now rewrite (getItem_ok _ _ Hn), Hnone.
  - intros s e Hs He. rewrite (isTokenExpired_stored w s e Hn Hs He).
    split; intros Hlt; do 2 f_equal; lia.
Qed.

(** The store that a [storeTokens] without rejection leaves. *)
Lemma storeTokens_quiet (t : tokens) (w : world) :
  quiet w ->
  exists w1,
    storeTokens t w = (Ok tt, w1)
    /\ quiet w1
    /\ now w1 = now w
    /\ store w1
       = <["token_type" := "Bearer"]>
           (let m1 := <["access_token" := accessToken t]> (store w) in
            let m2 := match refreshToken t with
                      | Some r => if truthy_string r
                                  then <["refresh_token" := r]> m1 else m1
                      | None => m1
                      end in
            match expiresIn t with
            | Some e => if e =? 0 then m2
                        else <["token_expiry" :=
                                 toString (now w + e * 1000)]> m2
            | None => m2
            end).
Proof.
  intros Hq.
  assert (Hok : forall k v w', quiet w' ->
            setItem k v w' = (Ok tt, after (SetItem k v) (<[k := v]> (store w')) w')).
  { intros k v w' Hq'. apply setItem_ok, quiet_next_ok, Hq'. }
  unfold storeTokens, bind, when, ret, Date_now, truthy, truthy_number.
  destruct (refreshToken t) as [r |]; [destruct (truthy_string r) |];
    (destruct (expiresIn t) as [e |]; [destruct (e =? 0) |]); simpl;
    repeat (rewrite Hok by (repeat apply quiet_after; exact Hq); simpl);
    (eexists; split; [reflexivity |];
     split; [repeat apply quiet_after; exact Hq | split; reflexivity]).
Qed.

(** What a [getTokens] without rejection resolves with. *)
Lemma getTokens_quiet (w : world) :
  quiet w ->
  exists w1,
    getTokens w
    = (Ok {| td_accessToken := store w !! "access_token";
             td_refreshToken := store w !! "refresh_token";
             td_expiresAt :=
               match store w !! "token_expiry" with
               | Some s => if truthy_string s then Some (parseInt s) else None
               | None => None
               end;
             td_tokenType :=
               match store w !! "token_type" with
               | Some s => if truthy_string s then Some s else None
               | None => None
               end |}, w1)
    /\ store w1 = store w.
Proof.
  intros Hq.
  assert (Hok : forall k w', quiet w' ->
            getItem k w' = (Ok (store w' !! k), after (GetItem k) (store w') w')).
  { intros k w' Hq'. apply getItem_ok, quiet_next_ok, Hq'. }
  unfold getTokens, bind, all4, ret.
  repeat (rewrite Hok by (repeat apply quiet_after; exact Hq); simpl).
  destruct (store w !! "token_expiry") as [s |]; simpl;
    [destruct (truthy_string s) |];
    (destruct (store w !! "token_type") as [ty |]; simpl;
     [destruct (truthy_string ty) |]);
    (eexists; split; [reflexivity | reflexivity]).
Qed.

(** C6: from a store without OAuth entries, [storeTokens] of an access
    token [a] alone followed by [getTokens] gives the access token [a], a
    null refresh token, a null expiry and the token type Bearer. An
    omitted field skips the write of its key, which keeps what it held;
    entries that are missing read back as null; and the token type is
    stamped Bearer by every [storeTokens]. *)
Theorem storeTokens_getTokens_spec (w : world) :
  quiet w ->
  ((forall k, k ∈ oauthKeys -> store w !! k = None) ->
   let t := {| accessToken := "a"; refreshToken := None;
               expiresIn := None |} in
   (storeTokens t w).1 = Ok tt
   /\ (getTokens (storeTokens t w).2).1
      = Ok {| td_accessToken := Some "a"; td_refreshToken := None;
              td_expiresAt := None; td_tokenType := Some "Bearer" |})
  /\ (forall t,
        let w1 := (storeTokens t w).2 in
        (storeTokens t w).1 = Ok tt
        /\ store w1 !! "access_token" = Some (accessToken t)
        /\ store w1 !! "token_type" = Some "Bearer"
        /\ (refreshToken t = None ->
            store w1 !! "refresh_token" = store w !! "refresh_token")
        /\ (expiresIn t = None ->
            store w1 !! "token_expiry" = store w !! "token_expiry"))
  /\ (exists td,
        (getTokens w).1 = Ok td
        /\ (store w !! "access_token" = None -> td_accessToken td = None)
        /\ (store w !! "refresh_token" = None -> td_refreshToken td = None)
        /\ (store w !! "token_expiry" = None -> td_expiresAt td = None)).
Proof.
  intros Hq. split; [| split].
  - intros Hempty t.
    destruct (storeTokens_quiet t w Hq) as (w1 & Hrun & Hq1 & _ & Hs1).
    rewrite Hrun. simpl. split; [reflexivity |].
    destruct (getTokens_quiet w1 Hq1) as (w2 & Hget & _).
    rewrite Hget. simpl. rewrite Hs1. simpl.
    rewrite lookup_insert_ne, lookup_insert_eq by done.
    rewrite !(lookup_insert_ne _ _ "refresh_token") by done.
    rewrite !(lookup_insert_ne _ _ "token_expiry") by done.
    rewrite lookup_insert_eq.
    rewrite !Hempty by (unfold oauthKeys; set_solver).
    reflexivity.
  - intros t w1. subst w1.
    destruct (storeTokens_quiet t w Hq) as (w1 & Hrun & _ & _ & Hs1).
    rewrite Hrun. simpl. rewrite Hs1. clear Hrun Hs1.
    split; [reflexivity |].
    split.
    { rewrite lookup_insert_ne by done.
      destruct (expiresIn t) as [e |]; [destruct (e =? 0) |];
        rewrite ?(lookup_insert_ne _ "token_expiry") by done;
        (destruct (refreshToken t) as [r |]; [destruct (truthy_string r) |]);
        rewrite ?(lookup_insert_ne _ "refresh_token") by done;
        apply lookup_insert_eq. }
    split; [apply lookup_insert_eq |].
    split.
    { intros ->. rewrite lookup_insert_ne by done.
      destruct (expiresIn t) as [e |]; [destruct (e =? 0) |];
        rewrite ?(lookup_insert_ne _ "token_expiry") by done;
        now rewrite lookup_insert_ne. }
    { intros ->. rewrite lookup_insert_ne by done.
      destruct (refreshToken t) as [r |]; [destruct (truthy_string r) |];
        rewrite ?(lookup_insert_ne _ "refresh_token") by done;
        now rewrite lookup_insert_ne. }
  - destruct (getTokens_quiet w Hq) as (w1 & Hget & _).
    rewrite Hget. eexists. split; [reflexivity |]. simpl.
    split; [auto | split; [auto |]]. now intros ->.
Qed.

Lemma storeTokens_getTokens_spec_witness :
  (getTokens (storeTokens {| accessToken := "a"; refreshToken := None;
                             expiresIn := None |}
                          (world_of {[ "theme" := "dark" ]} 1700000000000)).2).1
  = Ok {| td_accessToken := Some "a"; td_refreshToken := None;
          td_expiresAt := None; td_tokenType := Some "Bearer" |}.
Proof.
  refine (proj2 (proj1 (storeTokens_getTokens_spec
                          (world_of {[ "theme" := "dark" ]} 1700000000000)
                          (quiet_world_of _ _)) _)).
  intros k Hk. apply lookup_singleton_ne. intros <-. revert Hk.
  apply (bool_decide_unpack ("theme" ∉ oauthKeys)). vm_compute. exact I.
Defined.

Lemma isTokenExpired_spec_witness :
  (isTokenExpired None (world_of {[ "token_expiry" := "1000" ]} 2000)).1
  = Ok true.
Proof.
  refine (proj1 (proj2 (proj2 (isTokenExpired_spec
            (world_of {[ "token_expiry" := "1000" ]} 2000)) _)
            "1000" 1000 _ _) _).
  - intros f rest. simpl. discriminate.
  - reflexivity.
  - reflexivity.
  - simpl. lia.
Defined.

(** A lifetime other than zero is persisted: [token_expiry] holds the
    decimal text of the time of the call plus the lifetime in
    milliseconds, these and their sum being safe integers. *)
Lemma storeTokens_expiry_persisted (t : tokens) (w : world) (e : Z) :
  quiet w -> expiresIn t = Some e -> e <> 0 ->
  safe (now w) -> safe (e * 1000) -> safe (now w + e * 1000) ->
  (storeTokens t w).1 = Ok tt
  /\ store (storeTokens t w).2 !! "token_expiry"
     = Some (toString (now w + e * 1000)).
Proof.
  intros Hq He Hnz _ _ _.
  destruct (storeTokens_quiet t w Hq) as (w1 & Hrun & _ & _ & Hs1).
  rewrite Hrun. simpl. split; [reflexivity |].
  rewrite Hs1, He. apply Z.eqb_neq in Hnz. rewrite Hnz.
  rewrite lookup_insert_ne by done. apply lookup_insert_eq.
Qed.

(** After a [storeTokens] with a negative lifetime, [isTokenExpired]
    answers true at any time that is not before the call. *)
Lemma storeTokens_negative_expired (t : tokens) (w : world) (e later : Z) :
  quiet w -> expiresIn t = Some e -> e < 0 -> now w <= later ->
  safe (now w) -> safe (e * 1000) -> safe (now w + e * 1000) ->
  (isTokenExpired None (at_time later (storeTokens t w).2)).1 = Ok true.
Proof.
  intros Hq He Hneg Hlater Hnow Hms Hsum.
  destruct (storeTokens_quiet t w Hq) as (w1 & Hrun & Hq1 & _ & Hs1).
  rewrite Hrun. cbn [snd].
  assert (Hexp : store w1 !! "token_expiry"
                 = Some (toString (now w + e * 1000))).
  { pose proof (storeTokens_expiry_persisted t w e Hq He ltac:(lia)
                  Hnow Hms Hsum) as [_ H].
    now rewrite Hrun in H. }
  assert (Hn : next_ok (at_time later w1)).
  { apply quiet_next_ok. exact Hq1. }
  rewrite (isTokenExpired_stored (at_time later w1) _ (now w + e * 1000) Hn
             Hexp (parseInt_toString _)).
  do 2 f_equal. simpl. lia.
Qed.

(** A lifetime of zero is taken for an omitted one: [token_expiry] keeps
    what it held. *)
Lemma storeTokens_zero_skips (t : tokens) (w : world) :
  quiet w -> expiresIn t = Some 0 ->
  store (storeTokens t w).2 !! "token_expiry" = store w !! "token_expiry".
Proof.
  intros Hq He.
  destruct (storeTokens_quiet t w Hq) as (w1 & Hrun & _ & _ & Hs1).
  rewrite Hrun. simpl. rewrite Hs1, He. simpl.
  rewrite lookup_insert_ne by done.
  destruct (refreshToken t) as [r |]; [destruct (truthy_string r) |];
    rewrite ?(lookup_insert_ne _ "refresh_token") by done;
    now rewrite lookup_insert_ne.
Qed.

(** C7, at a lifetime of zero: [storeTokens] of an access token with
    [expiresIn] 0 at time 5000, over a store whose [token_expiry] is
    9000, returns without writing [token_expiry]: the key still holds
    9000 and not the decimal text of 5000 + 0 * 1000, and the
    [isTokenExpired] that follows answers false. *)
Theorem storeTokens_zero_expiresIn :
  let w := world_of {[ "token_expiry" := "9000" ]} 5000 in
  let t := {| accessToken := "a"; refreshToken := None;
              expiresIn := Some 0 |} in
  (storeTokens t w).1 = Ok tt
  /\ store (storeTokens t w).2 !! "token_expiry" = Some "9000"
  /\ toString (5000 + 0 * 1000) = "5000"
  /\ calls (storeTokens t w).2
     = [SetItem "access_token" "a"; SetItem "token_type" "Bearer"]
  /\ (isTokenExpired None (storeTokens t w).2).1 = Ok false.
Proof. vm_compute. repeat split; reflexivity. Qed.

(** What [clearOAuthStorage] does to the world, accepted or rejected. *)
Lemma clearOAuthStorage_run (w : world) :
  calls (clearOAuthStorage w).2 = calls w ++ [MultiRemove oauthKeys]
  /\ (forall k, k ∉ oauthKeys ->
        store (clearOAuthStorage w).2 !! k = store w !! k)
  /\ (next_ok w ->
      (clearOAuthStorage w).1 = Ok tt
      /\ forall k, k ∈ oauthKeys -> store (clearOAuthStorage w).2 !! k = None)
  /\ (forall f rest,
        faults w = Some f :: rest ->
        (clearOAuthStorage w).1
        = Throw (wrapped "Failed to remove items with keys"
                         (String.concat ", " oauthKeys) (cause f))).
Proof.
  unfold clearOAuthStorage.
  assert (Hok : next_ok w ->
    calls (removeItems oauthKeys w).2 = calls w ++ [MultiRemove oauthKeys]
    /\ (forall k, k ∉ oauthKeys ->
          store (removeItems oauthKeys w).2 !! k = store w !! k)
    /\ (removeItems oauthKeys w).1 = Ok tt
    /\ forall k, k ∈ oauthKeys ->
                 store (removeItems oauthKeys w).2 !! k = None).
  { intros Hn. rewrite (removeItems_ok _ _ Hn).
    cbn [fst snd after store calls].
    split; [reflexivity |].
    split; [| split; [reflexivity |]];
      intros k Hk; rewrite lookup_remove_all;
      now destruct (decide (k ∈ oauthKeys)). }
  destruct (faults w) as [| [f |] rest] eqn:Hf.
  - assert (Hn : next_ok w) by (intros f rest; rewrite Hf; discriminate).
    destruct (Hok Hn) as (H1 & H2 & H3 & H4).
    repeat split; try assumption. intros f rest. discriminate.
  - rewrite (removeItems_ko _ _ _ _ Hf). cbn [fst snd after store calls].
    split; [reflexivity |]. split.
    { intros k Hk. now apply lookup_remove_all_take. }
    split.
    { intros Hn. now destruct (Hn f rest). }
    intros f' rest' [= <- <-]. reflexivity.
  - assert (Hn : next_ok w) by (intros f rest'; rewrite Hf; discriminate).
    destruct (Hok Hn) as (H1 & H2 & H3 & H4).
    repeat split; try assumption. intros f rest'. discriminate.
Qed.

(** C8: [clearOAuthStorage] sends one bulk remove, for the nine reserved
    keys. When the store accepts it, each of the nine keys is gone and
    every other key holds what it held; when the store rejects it, the
    call throws one Error that wraps the cause and names the keys, and
    every key outside the nine still holds what it held. *)
Theorem clearOAuthStorage_spec (w : world) :
  oauthKeys
  = [ "access_token"; "refresh_token"; "token_expiry"; "token_type";
      "oauth_state"; "oauth_state_expiry"; "pkce_code_verifier";
      "pkce_code_challenge"; "pkce_code_challenge_method" ]
  /\ length oauthKeys = 9%nat
  /\ NoDup oauthKeys
  /\ calls (clearOAuthStorage w).2 = calls w ++ [MultiRemove oauthKeys]
  /\ (forall k, k ∉ oauthKeys ->
        store (clearOAuthStorage w).2 !! k = store w !! k)
  /\ (next_ok w ->
      (clearOAuthStorage w).1 = Ok tt
      /\ forall k, k ∈ oauthKeys -> store (clearOAuthStorage w).2 !! k = None)
  /\ (forall f rest,
        faults w = Some f :: rest ->
        (clearOAuthStorage w).1
        = Throw (JsError
            ("Failed to remove items with keys " +:+ quote
             +:+ "access_token, refresh_token, token_expiry, token_type, "
             +:+ "oauth_state, oauth_state_expiry, pkce_code_verifier, "
             +:+ "pkce_code_challenge, pkce_code_challenge_method"
             +:+ quote +:+ ": " +:+ exn_to_string (cause f)))).
Proof.
  split; [reflexivity |]. split; [reflexivity |].
  split; [apply (bool_decide_unpack _); vm_compute; exact I |].
  destruct (clearOAuthStorage_run w) as (Hcalls & Hframe & Hok & Hko).
  split; [exact Hcalls |]. split; [exact Hframe |].
  split; [exact Hok |].
  intros f rest Hf. rewrite (Hko f rest Hf). reflexivity.
Qed.

Lemma clearOAuthStorage_spec_witness :
  let w := world_of {[ "access_token" := "a"; "theme" := "dark" ]} 0 in
  store (clearOAuthStorage w).2 !! "access_token" = None
  /\ store (clearOAuthStorage w).2 !! "theme" = Some "dark".
Proof.
  intros w.
  destruct (clearOAuthStorage_spec w) as (_ & _ & _ & _ & Hframe & Hok & _).
  split.
  - apply Hok.
    + intros f rest. simpl. discriminate.
    + apply (bool_decide_unpack _). vm_compute. exact I.
  - rewrite Hframe; [reflexivity |].
    apply (bool_decide_unpack _). vm_compute. exact I.
Defined.

End StorageProps.

(* ===================================================================== *)
(** * Properties of the OAuth adapter                                    *)
(* ===================================================================== *)

Module OAuthAdapterProps.
Import AsyncStorage ExpoStorageAdapter ExpoOAuthAdapter StorageProps.

Lemma set_fresh key v (p : URLSearchParams) :
  key ∉ p.*1 -> set key v p = p ++ [(key, v)].
Proof.
  induction p as [| [k x] p IH]; simpl; [reflexivity |].
  intros Hk. apply not_elem_of_cons in Hk as [Hne Hk].
  destruct (String.eqb k key) eqn:E.
  - apply String.eqb_eq in E. congruence.
  - now rewrite IH.
Qed.

(** The entry a parameter leaves in the query, if any. *)
Lemma toURLSearchParams_fold (params : OAuthCallbackParams) :
  forall acc : URLSearchParams,
    NoDup (acc.*1 ++ params.*1) ->
    fold_left
      (fun urlParams kv =>
         if present kv.2 then set kv.1 (String_ kv.2) urlParams
         else urlParams)
      params acc
    = acc ++ omap (fun kv => if present kv.2
                             then Some (kv.1, String_ kv.2) else None) params.
Proof.
  induction params as [| [k v] params IH]; intros acc Hnd; simpl.
  - now rewrite app_nil_r.
  - simpl in Hnd.
    assert (Hk : k ∉ acc.*1).
    { apply NoDup_app in Hnd as (_ & Hdis & _).
      intros Hin. apply (Hdis _ Hin). left. }
    destruct (present v) eqn:Hv.
    + rewrite set_fresh by exact Hk. rewrite IH.
      * now rewrite <- app_assoc.
      * rewrite fmap_app. simpl. rewrite <- app_assoc. exact Hnd.
    + apply IH.
      apply NoDup_app in Hnd as (Ha & Hdis & Hp).
      apply NoDup_app. split; [exact Ha |]. split.
      * intros x Hx Hin. apply (Hdis _ Hx). now right.
      * now apply NoDup_cons in Hp as [_ Hp].
Qed.

Lemma get_omap_fresh key (params : OAuthCallbackParams) :
  key ∉ params.*1 ->
  get key (omap (fun kv => if present kv.2
                           then Some (kv.1, String_ kv.2) else None) params)
  = None.
Proof.
  induction params as [| [k v] params IH]; simpl; [reflexivity |].
  intros Hk. apply not_elem_of_cons in Hk as [Hne Hk].
  destruct (present v); simpl; [| now apply IH].
  destruct (String.eqb k key) eqn:E; [| now apply IH].
  apply String.eqb_eq in E. congruence.
Qed.

(** C4: the query handed to the core holds, in order, one pair for each
    callback parameter whose value is neither null nor undefined, named
    as the parameter and valued with its text; a parameter whose value is
    null or undefined has no pair at all. So code X with a null state
    gives the single pair code, X. *)
Theorem handleCallback_query_spec
    (core : URLSearchParams -> M world OAuthResult)
    (params : OAuthCallbackParams) :
  NoDup params.*1 ->
  handleCallback core params = core (toURLSearchParams params)
  /\ toURLSearchParams params
     = omap (fun kv => match kv.2 with
                       | VString s => Some (kv.1, s)
                       | VNull | VUndefined => None
                       end) params
  /\ (forall key v,
        (key, v) ∈ params ->
        get key (toURLSearchParams params)
        = match v with
          | VString s => Some s
          | VNull | VUndefined => None
          end)
  /\ (forall key,
        has key (toURLSearchParams params) = true
        <-> exists s, (key, VString s) ∈ params)
  /\ toURLSearchParams [("code", VString "X"); ("state", VNull)]
     = [("code", "X")].
Proof.
  intros Hnd.
  assert (Hq : toURLSearchParams params
               = omap (fun kv => if present kv.2
                                 then Some (kv.1, String_ kv.2) else None)
                      params).
  { unfold toURLSearchParams. now rewrite toURLSearchParams_fold. }
  assert (Hget : forall key v,
            (key, v) ∈ params ->
            get key (toURLSearchParams params)
            = match v with
              | VString s => Some s
              | VNull | VUndefined => None
              end).
  { rewrite Hq. clear Hq. intros key v.
    induction params as [| [k x] params IH]; simpl.
    - intros Hin. now apply elem_of_nil in Hin.
    - apply NoDup_cons in Hnd as [Hk Hnd].
      intros [[= <- <-] | Hin]%elem_of_cons.
      + destruct v; simpl; rewrite ?String.eqb_refl; try reflexivity;
          now apply get_omap_fresh.
      + assert (Hne : k <> key).
        { intros ->. apply Hk. apply list_elem_of_fmap.
          now exists (key, v). }
        destruct (present x); simpl; [| now apply IH].
        apply String.eqb_neq in Hne. rewrite Hne. now apply IH. }
  split; [reflexivity |]. split.
  { rewrite Hq. clear. induction params as [| [k v] params IH]; simpl;
      [reflexivity |].
    destruct v; simpl; [exact IH | exact IH | f_equal; exact IH]. }
  split; [exact Hget |]. split; [| reflexivity].
  intros key. unfold has. rewrite bool_decide_eq_true. split.
  - intros [s Hs]. rewrite Hq in Hs. clear Hq Hget Hnd.
    induction params as [| [k v] params IH]; simpl in Hs; [discriminate |].
    destruct v as [| | s']; simpl in Hs.
    + destruct (IH Hs) as [s0 H0]. exists s0. now right.
    + destruct (IH Hs) as [s0 H0]. exists s0. now right.
    + destruct (String.eqb k key) eqn:E.
      * apply String.eqb_eq in E as ->. exists s'. left.
      * destruct (IH Hs) as [s0 H0]. exists s0. now right.
  - intros [s Hin]. rewrite (Hget _ _ Hin). eauto.
Qed.

Lemma handleCallback_query_spec_witness :
  get "code" (toURLSearchParams
                [("code", VString "X"); ("state", VNull);
                 ("flow", VUndefined)])
  = Some "X"
  /\ has "state" (toURLSearchParams
                    [("code", VString "X"); ("state", VNull);
                     ("flow", VUndefined)]) = false.
Proof.
  pose proof (handleCallback_query_spec (fun _ => throw (JsOther VNull))
                [("code", VString "X"); ("state", VNull);
                 ("flow", VUndefined)]) as H.
  destruct H as (_ & _ & Hget & _ & _).
  - apply (bool_decide_unpack _). vm_compute. exact I.
  - split; [apply (Hget "code" (VString "X")); left | reflexivity].
Defined.

Section WithCore.

Variable core_getAccessToken : M world (option string).
Variable core_isTokenExpired : M world bool.

(** [getAccessToken] never throws. *)
Lemma getAccessToken_total (w : world) :
  exists r, (getAccessToken core_getAccessToken core_isTokenExpired w).1
            = Ok r.
Proof.
  unfold getAccessToken, try_catch, bind, ret.
  destruct (core_getAccessToken w) as [[tok | e] w1]; [| simpl; eauto].
  destruct (negb (truthy tok)); [simpl; eauto |].
  destruct (core_isTokenExpired w1) as [[[] | e] w2]; simpl; eauto.
  unfold logout.
  destruct (clearOAuthStorage w2) as [[[] | e] w3]; simpl; eauto.
Qed.

(** C10: when the core hands out an access token and reports it expired,
    [getAccessToken] performs the logout, which removes the nine OAuth
    keys from the store, and returns null, not the stale token. And
    whichever of the operations underneath throws (the read of the token,
    the expiry check, the bulk remove), [getAccessToken] returns null and
    throws nothing. *)
Theorem getAccessToken_spec (w : world) :
  (forall tok w1 w2,
      core_getAccessToken w = (Ok (Some tok), w1) ->
      truthy_string tok = true ->
      core_isTokenExpired w1 = (Ok true, w2) ->
      let r := getAccessToken core_getAccessToken core_isTokenExpired w in
      r.1 = Ok None
      /\ calls r.2 = calls w2 ++ [MultiRemove oauthKeys]
      /\ (forall k, k ∉ oauthKeys -> store r.2 !! k = store w2 !! k)
      /\ (next_ok w2 -> forall k, k ∈ oauthKeys -> store r.2 !! k = None))
  /\ (exists r,
        (getAccessToken core_getAccessToken core_isTokenExpired w).1 = Ok r)
  /\ (forall e w1,
        core_getAccessToken w = (Throw e, w1) ->
        getAccessToken core_getAccessToken core_isTokenExpired w
        = (Ok None, w1))
  /\ (forall tok w1 e w2,
        core_getAccessToken w = (Ok (Some tok), w1) ->
        truthy_string tok = true ->
        core_isTokenExpired w1 = (Throw e, w2) ->
        getAccessToken core_getAccessToken core_isTokenExpired w
        = (Ok None, w2)).
Proof.
  split; [| split; [apply getAccessToken_total | split]].
  - intros tok w1 w2 Htok Htruthy Hexp r. subst r.
    unfold getAccessToken, try_catch, bind, ret, logout.
    rewrite Htok. simpl. rewrite Htruthy. simpl. rewrite Hexp.
    destruct (clearOAuthStorage_run w2) as (Hcalls & Hframe & Hok & _).
    destruct (clearOAuthStorage w2) as [[[] | e] w3] eqn:Hclear;
      cbn [fst snd] in *.
    + repeat split; try assumption. intros Hn. now apply Hok.
    + repeat split; try assumption. intros Hn.
      destruct (Hok Hn) as [Hthrow _]. discriminate Hthrow.
  - intros e w1 Htok. unfold getAccessToken, try_catch, bind, ret.
    now rewrite Htok.
  - intros tok w1 e w2 Htok Htruthy Hexp.
    unfold getAccessToken, try_catch, bind, ret.
    rewrite Htok. simpl. rewrite Htruthy. simpl. now rewrite Hexp.
Qed.

End WithCore.

Lemma getAccessToken_spec_witness :
  let w := world_of {[ "access_token" := "stale"; "token_expiry" := "1000";
                       "theme" := "dark" ]} 2000 in
  let r := getAccessToken (getItem "access_token") (isTokenExpired None) w in
  r.1 = Ok None
  /\ store r.2 !! "access_token" = None
  /\ store r.2 !! "theme" = Some "dark".
Proof.
  intros w r.
  destruct (getAccessToken_spec (getItem "access_token")
              (isTokenExpired None) w) as (Hexpired & _).
  destruct (Hexpired "stale" _ _ eq_refl eq_refl eq_refl)
    as (Hnull & _ & Hframe & Hgone).
  split; [exact Hnull |]. split.
  - apply Hgone.
    + intros f rest. simpl. discriminate.
    + apply (bool_decide_unpack _). vm_compute. exact I.
  - subst r. rewrite Hframe; [reflexivity |].
    apply (bool_decide_unpack _). vm_compute. exact I.
Defined.

End OAuthAdapterProps.
(* ===================================================================== *)
(** * Properties of the callback state machine                           *)
(* ===================================================================== *)

Module HookProps.
Import ExpoOAuthAdapter useOAuthCallback Fixtures.

Section WithAdapter.

Variable Env : Type.
Variable new_ExpoOAuthAdapter : M Env unit.
Variable adapter_handleCallback : OAuthCallbackParams -> M Env OAuthResult.

Local Abbreviation handleCallback :=
  (handleCallback Env new_ExpoOAuthAdapter adapter_handleCallback).
Local Abbreviation retry :=
  (retry Env new_ExpoOAuthAdapter adapter_handleCallback).
Local Abbreviation useEffect_autoStart :=
  (useEffect_autoStart Env new_ExpoOAuthAdapter adapter_handleCallback).

(** The events with which every attempt starts, and those of a
    success. *)
Local Abbreviation entering :=
  [SetStatus Processing; SetMessage "Processing OAuth callback..."].
Local Abbreviation succeeded :=
  [SetStatus Success; SetMessage "Authentication successful"].

Ltac run_hook :=
  cbv [useOAuthCallback.handleCallback try_catch bind setStatus setMessage
       modify lift call_onSuccess call_onError emit ret throw];
  cbn [env status message trace fst snd].

(** What the catch block hands to the error callback is an Error object
    that carries the message the block has set. *)
Lemma normalized_Error (error : exn) :
  instanceof_Error (normalized error) = true
  /\ errorMessage_of (normalized error) = errorMessage_of error.
Proof. now destruct error. Qed.

(** The catch block: from any state, it leaves the status [Error] and the
    message of the error, and runs the error callback, when there is
    one, on the normalized error: what the callback does to the
    environment and what it returns or throws are those of the block. *)
Lemma catch_block (o : option (options Env)) (error : exn) (h : hook Env) :
  let msg := errorMessage_of error in
  bind (setStatus Env Error)
    (fun _ => bind (setMessage Env msg)
       (fun _ => call_onError Env o (normalized error))) h
  = match error_callback Env o with
    | Some g =>
        ((g (normalized error) (env h)).1,
         {| status := Error; message := msg;
            env := (g (normalized error) (env h)).2;
            trace := trace h ++ [SetStatus Error; SetMessage msg;
                                 OnError (normalized error)] |})
    | None =>
        (Ok tt,
         {| status := Error; message := msg; env := env h;
            trace := trace h ++ [SetStatus Error; SetMessage msg] |})
    end.
Proof.
  intros msg. unfold call_onError.
  destruct (error_callback Env o) as [g |];
    unfold emit, lift, setStatus, setMessage, modify, ret, bind; simpl.
  - destruct (g (normalized error) (env h)) as [[[] | e'] e3]; simpl;
      now rewrite <- !app_assoc.
  - now rewrite <- !app_assoc.
Qed.

(** The try block of an attempt whose delegated handler is reached. *)
Lemma try_block_reaches (params : OAuthCallbackParams)
    (o : option (options Env)) (h : hook Env) (e1 : Env) :
  new_ExpoOAuthAdapter (env h) = (Ok tt, e1) ->
  forall k : OAuthResult -> M (hook Env) unit,
    (bind (setStatus Env Processing)
       (fun _ => bind (setMessage Env "Processing OAuth callback...")
          (fun _ => bind (lift Env new_ExpoOAuthAdapter)
             (fun _ => bind (lift Env (adapter_handleCallback params)) k))))
      h
    = match adapter_handleCallback params e1 with
      | (Ok result, e2) =>
          k result {| status := Processing;
                      message := "Processing OAuth callback...";
                      env := e2; trace := trace h ++ entering |}
      | (Throw err, e2) =>
          (Throw err,
           {| status := Processing;
              message := "Processing OAuth callback...";
              env := e2; trace := trace h ++ entering |})
      end.
Proof.
  intros Hnew k. run_hook. rewrite Hnew. run_hook.
  destruct (adapter_handleCallback params e1) as [[result | err] e2];
    run_hook; now rewrite <- !app_assoc.
Qed.

(** A success callback that throws is caught by the try block of the
    attempt it belongs to. Here the delegated handler resolves with a
    result that reports success, the success callback is called with it
    and throws, and the attempt ends in the error state, with the
    message of what the callback threw and the error callback called. *)
Lemma handleCallback_success_counterexample :
  let h := {| status := Error; message := "Network error";
              env := 1%nat; trace := [] |} in
  let run := useOAuthCallback.handleCallback nat (ret tt) flaky []
               (Some throwing_options) h in
  flaky [] (env h) = (Ok granted, 2%nat)
  /\ success granted = true
  /\ run.1 = Ok tt
  /\ status run.2 = Error
  /\ message run.2 = "navigation failed"
  /\ trace run.2
     = [SetStatus Processing; SetMessage "Processing OAuth callback...";
        SetStatus Success; SetMessage "Authentication successful";
        OnSuccess granted;
        SetStatus Error; SetMessage "navigation failed";
        OnError (JsError "navigation failed")].
Proof. repeat split. Qed.

(** C2, as the code has it: in every attempt, be it the one started on
    mount or one asked for by retry from the error state, in which the
    delegated handler resolves with a result that reports success, the
    status is set to success, the message to Authentication successful,
    and the success callback, when there is one, is run exactly once, on
    that result, in the environment that the handler left. Without a
    success callback, and with one that returns, the attempt resolves
    and these are the status and the message it ends with, the
    environment being the one the callback left. A success callback
    that throws is caught by the same try block: the attempt ends in the
    error state with the message of what was thrown, and the error
    callback, when there is one, is run on it. *)
Theorem handleCallback_success_spec
    (params : OAuthCallbackParams) (o : option (options Env))
    (h : hook Env) (e1 e2 : Env) (result : OAuthResult) :
  new_ExpoOAuthAdapter (env h) = (Ok tt, e1) ->
  adapter_handleCallback params e1 = (Ok result, e2) ->
  success result = true ->
  let run := handleCallback params o h in
  retry params o h = run
  /\ (autoStart_enabled Env o = true -> useEffect_autoStart params o h = run)
  /\ (success_callback Env o = None ->
      run = (Ok tt,
             {| status := Success; message := "Authentication successful";
                env := e2; trace := trace h ++ entering ++ succeeded |}))
  /\ (forall f e3,
        success_callback Env o = Some f ->
        f result e2 = (Ok tt, e3) ->
        run = (Ok tt,
               {| status := Success; message := "Authentication successful";
                  env := e3;
                  trace := trace h ++ entering ++ succeeded
                           ++ [OnSuccess result] |}))
  /\ (forall f thrown e3,
        success_callback Env o = Some f ->
        f result e2 = (Throw thrown, e3) ->
        run
        = match error_callback Env o with
          | Some g =>
              ((g (normalized thrown) e3).1,
               {| status := Error; message := errorMessage_of thrown;
                  env := (g (normalized thrown) e3).2;
                  trace := trace h ++ entering ++ succeeded
                           ++ [OnSuccess result; SetStatus Error;
                               SetMessage (errorMessage_of thrown);
                               OnError (normalized thrown)] |})
          | None =>
              (Ok tt,
               {| status := Error; message := errorMessage_of thrown;
                  env := e3;
                  trace := trace h ++ entering ++ succeeded
                           ++ [OnSuccess result; SetStatus Error;
                               SetMessage (errorMessage_of thrown)] |})
          end).
Proof.
  intros Hnew Hres Hsucc run.
  split; [reflexivity |].
  split; [intros Hauto; unfold useOAuthCallback.useEffect_autoStart;
          now rewrite Hauto |].
  subst run. unfold useOAuthCallback.handleCallback, try_catch.
  rewrite (try_block_reaches params o h e1 Hnew), Hres, Hsucc.
  split; [| split].
  - intros Hcb. run_hook. rewrite Hcb. run_hook.
    now rewrite <- !app_assoc.
  - intros f e3 Hcb Hf. run_hook. rewrite Hcb. run_hook. rewrite Hf.
    now rewrite <- !app_assoc.
  - intros f thrown e3 Hcb Hf.
    match goal with
    | |- context [bind (setStatus Env Success) ?k ?h0] =>
        assert (Htry : bind (setStatus Env Success) k h0
                       = (Throw thrown,
                          {| status := Success;
                             message := "Authentication successful";
                             env := e3;
                             trace := trace h ++ entering ++ succeeded
                                      ++ [OnSuccess result] |}))
    end.
    { run_hook. rewrite Hcb. run_hook. rewrite Hf.
      now rewrite <- !app_assoc. }
    rewrite Htry.
    match goal with
    | |- context [bind (setStatus Env Error) ?k ?h0] =>
        pose proof (catch_block o thrown h0) as Hcatch
    end.
    cbv zeta in Hcatch. rewrite Hcatch. cbn [env trace].
    destruct (error_callback Env o) as [g |]; now rewrite <- !app_assoc.
Qed.


End WithAdapter.

(** A first attempt that fails and a retry that succeeds, with callbacks
    that keep a journal: the journal after the retry holds the two runs
    of the handler, the one run of the error callback and the one run of
    the success callback, on the result. *)
Lemma handleCallback_success_spec_witness :
  let failed :=
    (handleCallback (list string) (ret tt) noting_handler []
                    (Some noting_options) (initial [])).2 in
  let run := retry (list string) (ret tt) noting_handler []
                   (Some noting_options) failed in
  status failed = Error
  /\ run.1 = Ok tt
  /\ status run.2 = Success
  /\ message run.2 = "Authentication successful"
  /\ env run.2
     = ["handleCallback"; "onError Error: Network error";
        "handleCallback"; "onSuccess T"].
Proof.
  intros failed run. split; [reflexivity |].
  destruct (handleCallback_success_spec (list string) (ret tt)
              noting_handler [] (Some noting_options) failed
              (env failed) (env failed ++ ["handleCallback"]) granted
              eq_refl eq_refl eq_refl) as (Hretry & _ & _ & Hreturns & _).
  subst run. rewrite Hretry.
  rewrite (Hreturns _ _ eq_refl eq_refl). repeat split.
Defined.


End HookProps.

(* ===================================================================== *)
(** * Properties of the auto-redirect effect                             *)
(* ===================================================================== *)

Module ScreenProps.
Import useOAuthCallback OAuthCallbackScreen.

(** In the success state with auto-redirect enabled, the effect
    schedules nothing when the caller gave no success callback; and the
    timer it schedules when there is one has an empty handler: when it
    fires, no prop of the caller is invoked. *)
Lemma autoRedirect_effect_counterexample :
  let none := {| pending := []; next_id := 0 |} in
  let bare := {| onSuccess := @None unit; autoRedirect := Some true;
                 redirectDelay := Some 1500 |} in
  let full := {| onSuccess := Some tt; autoRedirect := Some true;
                 redirectDelay := Some 1500 |} in
  autoRedirect_effect Success bare none = (Ok None, none)
  /\ pending (autoRedirect_effect Success bare none).2 = []
  /\ pending (autoRedirect_effect Success full none).2
     = [ {| timer_id := 0; timer_delay := 1500; timer_handler := [] |} ].
Proof. repeat split. Qed.

(** C9, as the code has it: in the success state, with auto-redirect
    enabled (the default) and a success callback given, the effect
    schedules one timer with the configured delay (1500 ms by default),
    whose handler is empty, and returns a cleanup that clears that timer:
    after the cleanup the timer is not pending, and the timers pending
    before are the ones pending after. In any other case the effect
    schedules nothing and has no cleanup. *)
Theorem autoRedirect_effect_spec {CB : Type}
    (st : OAuthStatus) (p : props CB) (t : timers) :
  let run := autoRedirect_effect st p t in
  (st = Success ->
   default true (autoRedirect p) = true ->
   is_Some (onSuccess p) ->
   run.1 = Ok (Some (next_id t))
   /\ pending run.2
      = pending t ++ [ {| timer_id := next_id t;
                          timer_delay := default 1500 (redirectDelay p);
                          timer_handler := [] |} ]
   /\ (forall x, x ∈ pending (cleanup (Some (next_id t)) run.2).2 ->
                 timer_id x <> next_id t)
   /\ (Forall (fun x => timer_id x <> next_id t) (pending t) ->
       pending (cleanup (Some (next_id t)) run.2).2 = pending t))
  /\ (st <> Success \/ autoRedirect p = Some false \/ onSuccess p = None ->
      run = (Ok None, t)).
Proof.
  intros run. subst run. unfold autoRedirect_effect. split.
  - intros -> -> Hcb.
    rewrite bool_decide_eq_true_2 by exact Hcb.
    cbn [andb]. unfold bind, setTimeout, ret. cbn [fst snd pending next_id].
    split; [reflexivity |]. split; [reflexivity |].
    unfold cleanup, clearTimeout, modify. cbn [fst snd pending next_id].
    split.
    + intros x Hx. now apply list_elem_of_filter in Hx as [Hx _].
    + intros Hwf. rewrite filter_app.
      rewrite filter_cons_False by (cbn [timer_id]; tauto).
      rewrite filter_nil, app_nil_r.
      clear Hcb. induction Hwf as [| x l Hx Hl IH]; [reflexivity |].
      rewrite filter_cons_True by exact Hx. now rewrite IH.
  - intros [Hst | [Hauto | Hcb]].
    + destruct st; try reflexivity. now destruct Hst.
    + rewrite Hauto. cbn [default]. now rewrite andb_false_r.
    + rewrite Hcb.
      rewrite bool_decide_eq_false_2 by (intros [? ?]; discriminate).
      now rewrite andb_false_r.
Qed.

Lemma autoRedirect_effect_spec_witness :
  let none := {| pending := []; next_id := 0 |} in
  let full := {| onSuccess := Some tt; autoRedirect := None;
                 redirectDelay := None |} in
  pending (autoRedirect_effect Success full none).2
  = [ {| timer_id := 0; timer_delay := 1500; timer_handler := [] |} ]
  /\ pending (cleanup (Some 0%nat)
                      (autoRedirect_effect Success full none).2).2 = [].
Proof.
  intros none full.
  destruct (autoRedirect_effect_spec Success full none) as [Hon _].
  destruct (Hon eq_refl eq_refl (ex_intro _ tt eq_refl))
    as (_ & Hpending & _ & Hclean).
  split; [exact Hpending | apply Hclean; constructor].
Defined.

End ScreenProps.

(* ===================================================================== *)
(** * More on the storage adapter                                        *)
(* ===================================================================== *)

Module StorageMore.
Import AsyncStorage Number ExpoStorageAdapter NumberProps StorageProps.

Lemma removeItem_ok key (w : world) :
  next_ok w ->
  removeItem key w
  = (Ok tt, after (RemoveItem key) (delete key (store w)) w).
Proof.
  intros Hn. unfold removeItem, try_catch, AsyncStorage.removeItem.
  now rewrite request_ok.
Qed.

(** Without a stored expiry the token counts as expired. *)
Lemma isTokenExpired_absent (w : world) :
  next_ok w -> store w !! "token_expiry" = None ->
  (isTokenExpired None w).1 = Ok true.
Proof.
  intros Hn Hnone. unfold isTokenExpired, bind.
  now rewrite (getItem_ok _ _ Hn), Hnone.
Qed.

(** A read never changes the store, accepted or rejected. *)
Lemma getItem_run key (w : world) :
  exists o, getItem key w = (o, after (GetItem key) (store w) w).
Proof.
  unfold getItem, try_catch, AsyncStorage.getItem, request, throw.
  destruct (faults w) as [| [f |] rest]; eauto.
Qed.

(** The wrappers hand keys and values to the store as they are: what
    [setItem] wrote under a key is what [getItem] reads under it, other
    keys read as before, and a key removed reads as null. *)
Theorem wrappers_round_trip (w : world) (key value : string) :
  quiet w ->
  let w1 := (setItem key value w).2 in
  let w2 := (removeItem key w1).2 in
  (setItem key value w).1 = Ok tt
  /\ (getItem key w1).1 = Ok (Some value)
  /\ (forall other, other <> key -> (getItem other w1).1 = (getItem other w).1)
  /\ (removeItem key w1).1 = Ok tt
  /\ (getItem key w2).1 = Ok None
  /\ (forall other, other <> key -> (getItem other w2).1 = (getItem other w).1).
Proof.
  intros Hq w1 w2. subst w2 w1.
  pose proof (quiet_next_ok w Hq) as Hn.
  rewrite (setItem_ok _ _ _ Hn). cbn [fst snd].
  set (w1 := after _ _ w).
  assert (Hq1 : quiet w1) by now apply quiet_after.
  pose proof (quiet_next_ok w1 Hq1) as Hn1.
  rewrite (removeItem_ok _ _ Hn1). cbn [fst snd].
  set (w2 := after _ _ w1).
  assert (Hn2 : next_ok w2) by now apply quiet_next_ok, quiet_after.
  split; [reflexivity |].
  split. { rewrite (getItem_ok _ _ Hn1). simpl. now rewrite lookup_insert_eq. }
  split.
  { intros other Hne. rewrite (getItem_ok _ _ Hn1), (getItem_ok _ _ Hn).
    simpl. now rewrite lookup_insert_ne. }
  split; [reflexivity |].
  split. { rewrite (getItem_ok _ _ Hn2). simpl. now rewrite lookup_delete_eq. }
  intros other Hne. rewrite (getItem_ok _ _ Hn2), (getItem_ok _ _ Hn).
  simpl. now rewrite lookup_delete_ne, lookup_insert_ne.
Qed.

Lemma wrappers_round_trip_witness :
  let w := world_of {[ "theme" := "dark" ]} 0 in
  (getItem "oauth_state" (setItem "oauth_state" "s1" w).2).1 = Ok (Some "s1")
  /\ (getItem "theme" (setItem "oauth_state" "s1" w).2).1 = Ok (Some "dark").
Proof.
  intros w.
  destruct (wrappers_round_trip w "oauth_state" "s1" (quiet_world_of _ _))
    as (_ & Hsame & Hother & _).
  split; [exact Hsame |].
  rewrite (Hother "theme"); [reflexivity | discriminate].
Defined.

(** A request that the store rejects surfaces as one Error object, whose
    message names the operation and the key and embeds the cause, also
    when the cause is no Error; the store holds what it held. *)
Theorem wrappers_reject (w : world) (f : fault) (rest : list (option fault))
    (key value : string) :
  faults w = Some f :: rest ->
  (setItem key value w).1
  = Throw (JsError ("Failed to store item with key " +:+ quote +:+ key
                    +:+ quote +:+ ": " +:+ exn_to_string (cause f)))
  /\ (getItem key w).1
     = Throw (JsError ("Failed to retrieve item with key " +:+ quote +:+ key
                       +:+ quote +:+ ": " +:+ exn_to_string (cause f)))
  /\ (removeItem key w).1
     = Throw (JsError ("Failed to remove item with key " +:+ quote +:+ key
                       +:+ quote +:+ ": " +:+ exn_to_string (cause f)))
  /\ store (setItem key value w).2 = store w
  /\ store (getItem key w).2 = store w
  /\ store (removeItem key w).2 = store w.
Proof.
  intros Hf.
  unfold setItem, getItem, removeItem, try_catch, throw,
    AsyncStorage.setItem, AsyncStorage.getItem, AsyncStorage.removeItem.
  rewrite !(request_ko _ _ _ _ _ _ Hf). repeat split.
Qed.

Lemma wrappers_reject_witness :
  (getItem "access_token"
     {| store := {[ "access_token" := "a" ]}; now := 0;
        faults := [Some {| cause := JsOther (VString "disk full");
                           applied := 0 |}];
        calls := [] |}).1
  = Throw (JsError ("Failed to retrieve item with key " +:+ quote
                    +:+ "access_token" +:+ quote +:+ ": disk full")).
Proof.
  exact (proj1 (proj2 (wrappers_reject
           {| store := {[ "access_token" := "a" ]}; now := 0;
              faults := [Some {| cause := JsOther (VString "disk full");
                                 applied := 0 |}];
              calls := [] |}
           {| cause := JsOther (VString "disk full"); applied := 0 |} []
           "access_token" EmptyString eq_refl))).
Defined.

(** With a refresh token and a lifetime other than zero, what
    [storeTokens] stored is what [getTokens] gives back: the two tokens,
    the time of the call plus the lifetime in milliseconds, and Bearer.
    This is so as long as the time, the lifetime in milliseconds and
    their sum are safe integers, on which the arithmetic of the code is
    that of the integers and [toString] writes plain digits. *)
Theorem storeTokens_getTokens_round_trip (w : world) (t : tokens)
    (r : string) (e : Z) :
  quiet w ->
  refreshToken t = Some r -> truthy_string r = true ->
  expiresIn t = Some e -> e <> 0 ->
  safe (now w) -> safe (e * 1000) -> safe (now w + e * 1000) ->
  (getTokens (storeTokens t w).2).1
  = Ok {| td_accessToken := Some (accessToken t);
          td_refreshToken := Some r;
          td_expiresAt := Some (Num (now w + e * 1000));
          td_tokenType := Some "Bearer" |}.
Proof.
  intros Hq Hr Hrt He Hnz _ _ _.
  destruct (storeTokens_quiet t w Hq) as (w1 & Hrun & Hq1 & _ & Hs1).
  rewrite Hrun. cbn [snd].
  destruct (getTokens_quiet w1 Hq1) as (w2 & Hget & _).
  rewrite Hget. cbn [fst]. rewrite Hs1, Hr, Hrt, He.
  apply Z.eqb_neq in Hnz. rewrite Hnz. cbv zeta.
  rewrite (lookup_insert_ne _ "token_type" "access_token") by done.
  rewrite (lookup_insert_ne _ "token_expiry" "access_token") by done.
  rewrite (lookup_insert_ne _ "refresh_token" "access_token") by done.
  rewrite lookup_insert_eq.
  rewrite (lookup_insert_ne _ "token_type" "refresh_token") by done.
  rewrite (lookup_insert_ne _ "token_expiry" "refresh_token") by done.
  rewrite lookup_insert_eq.
  rewrite (lookup_insert_ne _ "token_type" "token_expiry") by done.
  rewrite lookup_insert_eq. rewrite lookup_insert_eq.
  rewrite toString_truthy, parseInt_toString. reflexivity.
Qed.

Lemma storeTokens_getTokens_round_trip_witness :
  (getTokens (storeTokens {| accessToken := "a"; refreshToken := Some "r";
                             expiresIn := Some 3600 |}
                          (world_of ∅ 1700000000000)).2).1
  = Ok {| td_accessToken := Some "a"; td_refreshToken := Some "r";
          td_expiresAt := Some (Num 1700003600000);
          td_tokenType := Some "Bearer" |}.
Proof.
  refine (storeTokens_getTokens_round_trip (world_of ∅ 1700000000000)
            {| accessToken := "a"; refreshToken := Some "r";
               expiresIn := Some 3600 |} "r" 3600
            (quiet_world_of _ _) eq_refl eq_refl eq_refl _ _ _ _);
    [discriminate | ..]; unfold safe; cbn [now world_of]; lia.
Defined.

(** [storeTokens] is no transaction. When the store rejects the first
    write nothing is written; when it accepts the first and rejects the
    second, the new access token stays written, the token type is not
    stamped, and no further write is tried. The Error names the key
    whose write was rejected. *)
Theorem storeTokens_rejected (w : world) (t : tokens) (f : fault)
    (rest : list (option fault)) :
  (faults w = Some f :: rest ->
   (storeTokens t w).1
   = Throw (wrapped "Failed to store item with key" "access_token" (cause f))
   /\ store (storeTokens t w).2 = store w
   /\ calls (storeTokens t w).2
      = calls w ++ [SetItem "access_token" (accessToken t)])
  /\ (faults w = None :: Some f :: rest ->
      let second :=
        if truthy (refreshToken t) then "refresh_token"
        else if truthy_number (expiresIn t) then "token_expiry"
             else "token_type" in
      (storeTokens t w).1
      = Throw (wrapped "Failed to store item with key" second (cause f))
      /\ store (storeTokens t w).2
         = <["access_token" := accessToken t]> (store w)
      /\ length (calls (storeTokens t w).2) = (length (calls w) + 2)%nat).
Proof.
  split.
  - intros Hf. unfold storeTokens, bind.
    assert (Hko : setItem "access_token" (accessToken t) w
                  = (Throw (wrapped "Failed to store item with key"
                                    "access_token" (cause f)),
                     after (SetItem "access_token" (accessToken t))
                           (store w) w)).
    { unfold setItem, try_catch, throw, AsyncStorage.setItem.
      now rewrite (request_ko _ _ _ _ _ _ Hf). }
    rewrite Hko. repeat split.
  - intros Hf second. subst second.
    assert (Hn : next_ok w) by (intros f' r'; rewrite Hf; discriminate).
    unfold storeTokens, bind. rewrite (setItem_ok _ _ _ Hn).
    set (w1 := after _ _ w).
    assert (Hf1 : faults w1 = Some f :: rest) by (subst w1; simpl; now rewrite Hf).
    assert (Hko : forall k v,
               setItem k v w1
               = (Throw (wrapped "Failed to store item with key" k (cause f)),
                  after (SetItem k v) (store w1) w1)).
    { intros k v. unfold setItem, try_catch, throw, AsyncStorage.setItem.
      now rewrite (request_ko _ _ _ _ _ _ Hf1). }
    unfold when, ret, Date_now.
    destruct (truthy (refreshToken t)).
    { rewrite Hko. cbn [fst snd after store calls].
      split; [reflexivity | split; [reflexivity |]].
      subst w1. cbn [after calls]. rewrite !length_app. simpl. lia. }
    destruct (truthy_number (expiresIn t)).
    { rewrite Hko. cbn [fst snd after store calls].
      split; [reflexivity | split; [reflexivity |]].
      subst w1. cbn [after calls]. rewrite !length_app. simpl. lia. }
    rewrite Hko. cbn [fst snd after store calls].
    split; [reflexivity | split; [reflexivity |]].
      subst w1. cbn [after calls]. rewrite !length_app. simpl. lia.
Qed.

Lemma storeTokens_rejected_witness :
  let w := {| store := {[ "token_type" := "mac" ]}; now := 0;
              faults := [None; Some {| cause := JsError "quota";
                                       applied := 0 |}];
              calls := [] |} in
  let run := storeTokens {| accessToken := "a"; refreshToken := None;
                            expiresIn := None |} w in
  store run.2 !! "access_token" = Some "a"
  /\ store run.2 !! "token_type" = Some "mac".
Proof.
  intros w run.
  destruct (storeTokens_rejected w
              {| accessToken := "a"; refreshToken := None; expiresIn := None |}
              {| cause := JsError "quota"; applied := 0 |} [])
    as [_ Hsecond].
  destruct (Hsecond eq_refl) as (_ & Hstore & _).
  subst run. rewrite Hstore. split; reflexivity.
Defined.

(** [getTokens] and [isTokenExpired] only read: whatever the store
    answers, they leave it as it was. [getTokens] sends its four reads in
    all cases, [isTokenExpired] one read at most, and none with an
    explicit expiry. *)
Theorem reads_leave_the_store (w : world) :
  store (getTokens w).2 = store w
  /\ calls (getTokens w).2
     = calls w ++ [GetItem "access_token"; GetItem "refresh_token";
                   GetItem "token_expiry"; GetItem "token_type"]
  /\ (forall e, (isTokenExpired (Some e) w).2 = w)
  /\ store (isTokenExpired None w).2 = store w
  /\ calls (isTokenExpired None w).2 = calls w ++ [GetItem "token_expiry"].
Proof.
  split; [| split; [| split; [| split]]].
  - unfold getTokens, bind, all4, ret.
    destruct (getItem_run "access_token" w) as [o1 ->].
    destruct (getItem_run "refresh_token"
                (after (GetItem "access_token") (store w) w)) as [o2 ->].
    match goal with
    | |- context [getItem "token_expiry" ?w3] =>
        destruct (getItem_run "token_expiry" w3) as [o3 ->]
    end.
    match goal with
    | |- context [getItem "token_type" ?w4] =>
        destruct (getItem_run "token_type" w4) as [o4 ->]
    end.
    destruct o1 as [[]|], o2 as [[]|], o3 as [[]|], o4 as [[]|]; reflexivity.
  - unfold getTokens, bind, all4, ret.
    destruct (getItem_run "access_token" w) as [o1 ->].
    destruct (getItem_run "refresh_token"
                (after (GetItem "access_token") (store w) w)) as [o2 ->].
    match goal with
    | |- context [getItem "token_expiry" ?w3] =>
        destruct (getItem_run "token_expiry" w3) as [o3 ->]
    end.
    match goal with
    | |- context [getItem "token_type" ?w4] =>
        destruct (getItem_run "token_type" w4) as [o4 ->]
    end.
    destruct o1 as [[]|], o2 as [[]|], o3 as [[]|], o4 as [[]|];
      cbn [fst snd after calls]; now rewrite <- !app_assoc.
  - reflexivity.
  - unfold isTokenExpired, bind, ret, Date_now.
    destruct (getItem_run "token_expiry" w) as [o ->].
    destruct o as [[s |] | e]; try reflexivity.
    cbn [truthy]. destruct (truthy_string s); reflexivity.
  - unfold isTokenExpired, bind, ret, Date_now.
    destruct (getItem_run "token_expiry" w) as [o ->].
    destruct o as [[s |] | e]; try reflexivity.
    cbn [truthy]. destruct (truthy_string s); reflexivity.
Qed.

(** The edges of [isTokenExpired]: an expiry equal to the current time
    counts as expired; a stored expiry that is empty counts as expired;
    a stored expiry in which [parseInt] finds no number (no digit after
    the white space and the sign it may start with), and an explicit
    NaN, count as not expired. *)
Theorem isTokenExpired_edges (w : world) :
  isTokenExpired (Some (Num (now w))) w = (Ok true, w)
  /\ isTokenExpired (Some NaN) w = (Ok false, w)
  /\ (next_ok w ->
      forall s,
        store w !! "token_expiry" = Some s ->
        (parseInt s = Num (now w) -> (isTokenExpired None w).1 = Ok true)
        /\ (s = EmptyString -> (isTokenExpired None w).1 = Ok true)
        /\ (truthy_string s = true -> parseInt s = NaN ->
            (isTokenExpired None w).1 = Ok false)).
Proof.
  split.
  { unfold isTokenExpired, bind, Date_now, ret, ge. now rewrite Z.leb_refl. }
  split; [reflexivity |].
  intros Hn s Hs. split; [| split].
  - intros He. rewrite (isTokenExpired_stored w s _ Hn Hs He).
    now rewrite Z.leb_refl.
  - intros ->. unfold isTokenExpired, bind.
    now rewrite (getItem_ok _ _ Hn), Hs.
  - intros Ht He. unfold isTokenExpired, bind.
    rewrite (getItem_ok _ _ Hn), Hs. simpl. rewrite Ht. simpl.
    now rewrite He.
Qed.

(** A stored expiry that is no number; one equal to the time; and one
    with a no-break space (U+00A0) in front of its digits, which
    [parseInt] skips. *)
Lemma isTokenExpired_edges_witness :
  let nbsp := String (ascii_of_nat 194) (String (ascii_of_nat 160) "2000") in
  (isTokenExpired None (world_of {[ "token_expiry" := "soon" ]} 2000)).1
  = Ok false
  /\ (isTokenExpired None (world_of {[ "token_expiry" := "2000" ]} 2000)).1
     = Ok true
  /\ (isTokenExpired None (world_of {[ "token_expiry" := nbsp ]} 2000)).1
     = Ok true.
Proof.
  intros nbsp.
  assert (Hn : forall m, next_ok (world_of m 2000))
    by (intros m f rest; simpl; discriminate).
  split; [| split].
  - destruct (isTokenExpired_edges
                (world_of {[ "token_expiry" := "soon" ]} 2000))
      as (_ & _ & H).
    exact (proj2 (proj2 (H (Hn _) "soon" eq_refl)) eq_refl eq_refl).
  - destruct (isTokenExpired_edges
                (world_of {[ "token_expiry" := "2000" ]} 2000))
      as (_ & _ & H).
    exact (proj1 (H (Hn _) "2000" eq_refl) eq_refl).
  - destruct (isTokenExpired_edges
                (world_of {[ "token_expiry" := nbsp ]} 2000))
      as (_ & _ & H).
    exact (proj1 (H (Hn _) nbsp eq_refl) eq_refl).
Defined.

(** After [storeTokens] and then [clearOAuthStorage], nothing of the
    tokens is left: [getTokens] gives null for the tokens and the expiry
    and no token type, [isTokenExpired] answers true, and the keys that
    are not OAuth keys hold what they held before the tokens were
    stored. *)
Theorem clear_forgets_tokens (w : world) (t : tokens) :
  quiet w ->
  let w1 := (storeTokens t w).2 in
  let w2 := (clearOAuthStorage w1).2 in
  (clearOAuthStorage w1).1 = Ok tt
  /\ (getTokens w2).1
     = Ok {| td_accessToken := None; td_refreshToken := None;
             td_expiresAt := None; td_tokenType := None |}
  /\ (isTokenExpired None w2).1 = Ok true
  /\ (forall k, k ∉ oauthKeys -> store w2 !! k = store w !! k).
Proof.
  intros Hq w1 w2. subst w2 w1.
  destruct (storeTokens_quiet t w Hq) as (w1 & Hrun & Hq1 & _ & Hs1).
  rewrite Hrun. cbn [snd].
  pose proof (quiet_next_ok w1 Hq1) as Hn1.
  destruct (clearOAuthStorage_run w1) as (_ & Hframe & Hok & _).
  destruct (Hok Hn1) as [Hclear Hgone].
  assert (Hq2 : quiet (clearOAuthStorage w1).2).
  { unfold clearOAuthStorage. rewrite (removeItems_ok _ _ Hn1).
    now apply quiet_after. }
  set (w2 := (clearOAuthStorage w1).2) in *.
  assert (Hkey : forall k, bool_decide (k ∈ oauthKeys) = true ->
                           store w2 !! k = None).
  { intros k Hk. apply Hgone. now apply bool_decide_eq_true in Hk. }
  split; [exact Hclear |]. split; [| split].
  - destruct (getTokens_quiet w2 Hq2) as (w3 & -> & _). cbn [fst].
    now rewrite !Hkey by reflexivity.
  - destruct (isTokenExpired_absent w2 (quiet_next_ok _ Hq2)
                (Hkey "token_expiry" eq_refl)).
    reflexivity.
  - intros k Hk. rewrite Hframe by exact Hk. rewrite Hs1.
    assert (Hne : forall k', bool_decide (k' ∈ oauthKeys) = true -> k' <> k).
    { intros k' Hk' ->. apply Hk. now apply bool_decide_eq_true in Hk'. }
    rewrite lookup_insert_ne by (now apply Hne).
    destruct (expiresIn t) as [e |]; [destruct (e =? 0) |];
      rewrite ?(lookup_insert_ne _ "token_expiry") by (now apply Hne);
      (destruct (refreshToken t) as [r |]; [destruct (truthy_string r) |]);
      rewrite ?(lookup_insert_ne _ "refresh_token") by (now apply Hne);
      now rewrite lookup_insert_ne by (now apply Hne).
Qed.

Lemma clear_forgets_tokens_witness :
  let w := world_of {[ "theme" := "dark" ]} 1700000000000 in
  let w2 := (clearOAuthStorage
               (storeTokens {| accessToken := "a"; refreshToken := Some "r";
                               expiresIn := Some 3600 |} w).2).2 in
  (isTokenExpired None w2).1 = Ok true
  /\ store w2 !! "theme" = Some "dark".
Proof.
  intros w w2.
  destruct (clear_forgets_tokens w
              {| accessToken := "a"; refreshToken := Some "r";
                 expiresIn := Some 3600 |} (quiet_world_of _ _))
    as (_ & _ & Hexp & Hframe).
  split; [exact Hexp |].
  subst w2. rewrite Hframe; [reflexivity |].
  apply (bool_decide_unpack _). vm_compute. exact I.
Defined.

End StorageMore.

(* ===================================================================== *)
(** * More on the OAuth adapter                                          *)
(* ===================================================================== *)

Module AdapterMore.
Import AsyncStorage ExpoStorageAdapter ExpoOAuthAdapter StorageProps.

Section WithCore.

Variable core_getAccessToken : M world (option string).
Variable core_isTokenExpired : M world bool.

Local Abbreviation isAuthenticated :=
  (isAuthenticated core_getAccessToken core_isTokenExpired).
Local Abbreviation getAccessToken :=
  (getAccessToken core_getAccessToken core_isTokenExpired).

(** [isAuthenticated] answers true exactly when the core hands out a
    non-empty token and reports it not expired. *)
Lemma isAuthenticated_true (w : world) :
  (isAuthenticated w).1 = Ok true
  <-> exists tok w2 w1,
        core_getAccessToken w = (Ok (Some tok), w1)
        /\ truthy_string tok = true
        /\ core_isTokenExpired w1 = (Ok false, w2).
Proof.
  unfold ExpoOAuthAdapter.isAuthenticated, try_catch, bind, ret.
  destruct (core_getAccessToken w) as [[[tok |] | e] w1] eqn:Hget;
    cbn [truthy];
    try (split; [discriminate | intros (? & ? & ? & [=] & _)]).
  destruct (truthy_string tok) eqn:Htok; cbn [negb].
  - destruct (core_isTokenExpired w1) as [[[] | e] w2] eqn:Hexp; cbn [fst negb].
    + split; [discriminate |].
      intros (tok' & w2' & w1' & [= <- <-] & _ & Hexp').
      rewrite Hexp in Hexp'. discriminate.
    + split; [intros _; eauto 10 | reflexivity].
    + split; [discriminate |].
      intros (tok' & w2' & w1' & [= <- <-] & _ & Hexp').
      rewrite Hexp in Hexp'. discriminate.
  - split; [discriminate |].
    intros (tok' & w2' & w1' & [= <- <-] & Ht & _). congruence.
Qed.

(** [isAuthenticated] never throws. It answers true exactly when the
    core hands out a non-empty token and reports it not expired; an
    absent or empty token, an expired one and a throw of the core all
    give false. It sends no request of its own: with an expired token
    the world is as the expiry check left it, nothing is cleared. *)
Theorem isAuthenticated_spec (w : world) :
  (exists b, (isAuthenticated w).1 = Ok b)
  /\ ((isAuthenticated w).1 = Ok true
      <-> exists tok w2 w1,
            core_getAccessToken w = (Ok (Some tok), w1)
            /\ truthy_string tok = true
            /\ core_isTokenExpired w1 = (Ok false, w2))
  /\ (forall tok w1 w2 o,
        core_getAccessToken w = (Ok (Some tok), w1) ->
        truthy_string tok = true ->
        core_isTokenExpired w1 = (o, w2) ->
        (isAuthenticated w).2 = w2)
  /\ (forall o w1,
        core_getAccessToken w = (o, w1) ->
        (forall tok, o = Ok (Some tok) -> truthy_string tok = false) ->
        isAuthenticated w = (Ok false, w1)).
Proof.
  split; [| split; [apply isAuthenticated_true | split]].
  - unfold ExpoOAuthAdapter.isAuthenticated, try_catch, bind, ret.
    destruct (core_getAccessToken w) as [[tok | e] w1]; [| simpl; eauto].
    destruct (negb (truthy tok)); [simpl; eauto |].
    destruct (core_isTokenExpired w1) as [[b | e] w2]; simpl; eauto.
  - intros tok w1 w2 o Hget Htok Hexp.
    unfold ExpoOAuthAdapter.isAuthenticated, try_catch, bind, ret.
    rewrite Hget. cbn [truthy]. rewrite Htok. cbn [negb]. rewrite Hexp.
    now destruct o.
  - intros o w1 Hget Hfalsy.
    unfold ExpoOAuthAdapter.isAuthenticated, try_catch, bind, ret.
    rewrite Hget. destruct o as [[tok |] | e]; try reflexivity.
    cbn [truthy]. now rewrite (Hfalsy tok eq_refl).
Qed.

(** [getAccessToken] returns a token exactly when the core hands out a
    non-empty one and reports it not expired; it is that token, and the
    world is as the expiry check left it. So it returns a token exactly
    when [isAuthenticated], asked in the same world, answers true. An
    absent or empty token gives null before any expiry check. *)
Theorem getAccessToken_valid (w : world) :
  (forall tok,
     (getAccessToken w).1 = Ok (Some tok)
     <-> exists w2, (exists w1, core_getAccessToken w = (Ok (Some tok), w1)
              /\ truthy_string tok = true
              /\ core_isTokenExpired w1 = (Ok false, w2)))
  /\ (forall tok w2, (exists w1, core_getAccessToken w = (Ok (Some tok), w1)
              /\ truthy_string tok = true
              /\ core_isTokenExpired w1 = (Ok false, w2)) ->
                     getAccessToken w = (Ok (Some tok), w2))
  /\ ((isAuthenticated w).1 = Ok true
      <-> exists tok, (getAccessToken w).1 = Ok (Some tok))
  /\ (forall o w1,
        core_getAccessToken w = (Ok o, w1) -> truthy o = false ->
        getAccessToken w = (Ok None, w1)).
Proof.
  assert (Hvalid : forall tok w2, (exists w1, core_getAccessToken w = (Ok (Some tok), w1)
              /\ truthy_string tok = true
              /\ core_isTokenExpired w1 = (Ok false, w2)) ->
                                  getAccessToken w = (Ok (Some tok), w2)).
  { intros tok w2 (w1 & Hget & Htok & Hexp).
    unfold ExpoOAuthAdapter.getAccessToken, try_catch, bind, ret.
    rewrite Hget. cbn [truthy]. rewrite Htok. cbn [negb]. now rewrite Hexp. }
  assert (Hiff : forall tok,
             (getAccessToken w).1 = Ok (Some tok)
             <-> exists w2, (exists w1, core_getAccessToken w = (Ok (Some tok), w1)
              /\ truthy_string tok = true
              /\ core_isTokenExpired w1 = (Ok false, w2))).
  { intros tok. split.
    - unfold ExpoOAuthAdapter.getAccessToken, try_catch, bind, ret, logout.
      destruct (core_getAccessToken w) as [[[tok' |] | e] w1] eqn:Hget;
        cbn [truthy]; try discriminate.
      destruct (truthy_string tok') eqn:Htok; cbn [negb]; [| discriminate].
      destruct (core_isTokenExpired w1) as [[[] | e] w2] eqn:Hexp;
        try discriminate.
      + destruct (clearOAuthStorage w2) as [[[] | e] w3]; discriminate.
      + intros [= <-]. exists w2, w1. auto.
    - intros [w2 Hv]. now rewrite (Hvalid tok w2 Hv). }
  split; [exact Hiff |]. split; [exact Hvalid |]. split.
  - rewrite isAuthenticated_true. split.
    + intros (tok & w2 & Hv). exists tok. apply Hiff. eauto.
    + intros (tok & Htok). apply Hiff in Htok as [w2 Hv]. eauto.
  - intros o w1 Hget Hfalsy.
    unfold ExpoOAuthAdapter.getAccessToken, try_catch, bind, ret.
    now rewrite Hget, Hfalsy.
Qed.

End WithCore.

Lemma getAccessToken_valid_witness :
  let w := world_of {[ "access_token" := "fresh";
                       "token_expiry" := "9000" ]} 2000 in
  (getAccessToken (getItem "access_token") (isTokenExpired None) w).1
  = Ok (Some "fresh")
  /\ store (getAccessToken (getItem "access_token")
                           (isTokenExpired None) w).2 = store w.
Proof.
  intros w.
  destruct (getAccessToken_valid (getItem "access_token")
              (isTokenExpired None) w) as (_ & Hvalid & _).
  rewrite (Hvalid "fresh" _ (ex_intro _ _ (conj eq_refl (conj eq_refl eq_refl)))).
  split; reflexivity.
Defined.

Lemma isAuthenticated_spec_witness :
  let w := world_of {[ "access_token" := "stale";
                       "token_expiry" := "1000" ]} 2000 in
  store (isAuthenticated (getItem "access_token") (isTokenExpired None) w).2
  = store w.
Proof.
  intros w.
  destruct (isAuthenticated_spec (getItem "access_token")
              (isTokenExpired None) w) as (_ & _ & Hworld & _).
  rewrite (Hworld "stale" _ _ _ eq_refl eq_refl eq_refl). reflexivity.
Defined.

End AdapterMore.

(* ===================================================================== *)
(** * More on the callback state machine                                 *)
(* ===================================================================== *)

Module HookMore.
Import ExpoOAuthAdapter useOAuthCallback OAuthCallbackView Fixtures.

Section WithAdapter.

Variable Env : Type.
Variable new_ExpoOAuthAdapter : M Env unit.
Variable adapter_handleCallback : OAuthCallbackParams -> M Env OAuthResult.

Local Abbreviation handleCallback :=
  (handleCallback Env new_ExpoOAuthAdapter adapter_handleCallback).

Local Abbreviation entering :=
  [SetStatus Processing; SetMessage "Processing OAuth callback..."].

Ltac run_attempt :=
  cbv [useOAuthCallback.handleCallback try_catch bind setStatus setMessage
       modify lift call_onSuccess call_onError emit ret throw];
  cbn [env status message trace fst snd].

(** Every way an attempt can go: the constructor, the handler, the
    success flag and the two callbacks. *)
Ltac all_cases params o h :=
  run_attempt;
  destruct (new_ExpoOAuthAdapter (env h)) as [[[] | err0] e1] eqn:Hnew;
  run_attempt;
  [ destruct (adapter_handleCallback params e1) as [[r | err1] e2] eqn:Hres;
    run_attempt;
    [ destruct (success r) eqn:Hsucc; run_attempt;
      [ destruct (success_callback Env o) as [f |] eqn:Hscb; run_attempt;
        [ destruct (f r e2) as [[[] | err2] e3] eqn:Hf; run_attempt | ]
      | ]
    | ]
  | ];
  try (destruct (error_callback Env o) as [g |] eqn:Hecb; run_attempt;
       [ match goal with
         | |- context [g ?a ?e] =>
             destruct (g a e) as [[[] | err3] e4] eqn:Hg; run_attempt
         end
       | ]).


(** The promise of an attempt rejects only when the error callback
    throws, and then with what that callback threw: without an error
    callback, or with one that returns, the attempt returns whatever the
    constructor, the handler and the success callback do. *)
Theorem attempt_rejects_only_from_onError (params : OAuthCallbackParams)
    (o : option (options Env)) (h : hook Env) :
  let run := handleCallback params o h in
  (forall err,
     run.1 = Throw err ->
     exists g arg e e',
       error_callback Env o = Some g /\ g arg e = (Throw err, e'))
  /\ (error_callback Env o = None -> run.1 = Ok tt)
  /\ ((forall g arg e, error_callback Env o = Some g ->
                       exists e', g arg e = (Ok tt, e')) ->
      run.1 = Ok tt).
Proof.
  intros run.
  assert (Hrej : forall err,
             run.1 = Throw err ->
             exists g arg e e',
               error_callback Env o = Some g /\ g arg e = (Throw err, e')).
  { subst run. all_cases params o h; intros err Hrun;
      first [ discriminate Hrun
            | injection Hrun as <-; eauto 10 ]. }
  split; [exact Hrej |]. split.
  - intros Hnone. destruct run.1 as [[] | err] eqn:Hrun; [reflexivity |].
    destruct (Hrej err eq_refl) as (g & _ & _ & _ & Hg & _). congruence.
  - intros Hret. destruct run.1 as [[] | err] eqn:Hrun; [reflexivity |].
    destruct (Hrej err eq_refl) as (g & arg & e & e' & Hg & Hthrow).
    destruct (Hret g arg e Hg) as [e'' Hok]. congruence.
Qed.

(** When the construction of the adapter throws, the attempt ends in
    the error state with the message of what was thrown (Unknown error
    occurred when that is no Error), and the delegated handler is not
    run: the error callback, when there is one, is run exactly once, in
    the environment that the constructor left, on an Error object that
    carries that message, and what it does and what it returns or throws
    are what the attempt does and returns or throws; without an error
    callback the attempt resolves and the environment is as the
    constructor left it. *)
Theorem attempt_constructor_throws (params : OAuthCallbackParams)
    (o : option (options Env)) (h : hook Env) (thrown : exn) (left : Env) :
  new_ExpoOAuthAdapter (env h) = (Throw thrown, left) ->
  let msg := errorMessage_of thrown in
  handleCallback params o h
  = match error_callback Env o with
    | Some g =>
        ((g (normalized thrown) left).1,
         {| status := Error; message := msg;
            env := (g (normalized thrown) left).2;
            trace := trace h ++ entering
                     ++ [SetStatus Error; SetMessage msg;
                         OnError (normalized thrown)] |})
    | None =>
        (Ok tt,
         {| status := Error; message := msg; env := left;
            trace := trace h ++ entering
                     ++ [SetStatus Error; SetMessage msg] |})
    end
  /\ instanceof_Error (normalized thrown) = true
  /\ errorMessage_of (normalized thrown) = msg.
Proof.
  intros Hnew0 msg. subst msg.
  split; [| apply HookProps.normalized_Error].
  unfold useOAuthCallback.handleCallback, try_catch.
  match goal with
  | |- context [(bind (setStatus Env Processing) ?k) h] =>
      assert (Htry : (bind (setStatus Env Processing) k) h
                     = (Throw thrown,
                        {| status := Processing;
                           message := "Processing OAuth callback...";
                           env := left; trace := trace h ++ entering |}))
  end.
  { run_attempt. rewrite Hnew0. run_attempt. now rewrite <- !app_assoc. }
  rewrite Htry.
  match goal with
  | |- context [bind (setStatus Env Error) ?k ?h0] =>
      pose proof (HookProps.catch_block Env o thrown h0) as Hcatch
  end.
  cbv zeta in Hcatch. rewrite Hcatch. cbn [env trace].
  destruct (error_callback Env o) as [g |]; now rewrite <- !app_assoc.
Qed.

(** How an attempt ends: in success with the success message, or in
    error. *)
Lemma attempt_final (params : OAuthCallbackParams)
    (o : option (options Env)) (h : hook Env) :
  let run := handleCallback params o h in
  (status run.2 = Success /\ message run.2 = "Authentication successful")
  \/ status run.2 = Error.
Proof.
  intros run. subst run. all_cases params o h; auto.
Qed.

(** What the screen shows once an attempt has ended is never the
    processing view. After a success it shows the title Success!, no
    retry button, and the custom success message or else the text
    Authentication successful of the hook (the default of the screen,
    with its exclamation mark, is not reached). After an error it shows
    the title Authentication Failed, the retry button, and the custom
    error message or else the message of the hook. *)
Theorem screen_after_attempt (params : OAuthCallbackParams)
    (o : option (options Env)) (h : hook Env) (m : option messages) :
  let run := handleCallback params o h in
  let v := render (status run.2) m (message run.2) in
  view_title v <> "Authenticating..."
  /\ (status run.2 = Success ->
      view_title v = "Success!"
      /\ view_retry v = None
      /\ view_message v
         = or_default (field m msg_success) "Authentication successful")
  /\ (status run.2 = Error ->
      view_title v = "Authentication Failed"
      /\ view_retry v = Some (or_default (field m msg_retryButton) "Try Again")
      /\ view_message v = or_default (field m msg_error) (message run.2)).
Proof.
  cbv zeta. pose proof (attempt_final params o h) as Hfin. cbv zeta in Hfin.
  destruct Hfin as [[Hs Hmsg] | He].
  - rewrite Hs, Hmsg.
    cbn [render view_title view_message view_retry title].
    split; [discriminate |]. split; [| discriminate].
    intros _. split; [reflexivity |]. split; [reflexivity |].
    unfold getStatusMessage, or_default.
    destruct (field m msg_success) as [s |]; [| reflexivity].
    destruct (truthy_string s) eqn:E; cbn; now rewrite ?E.
  - rewrite He. cbn [render view_title view_message view_retry title].
    split; [discriminate |]. split; [discriminate |]. intros _. auto.
Qed.

End WithAdapter.


Lemma attempt_rejects_only_from_onError_witness :
  (handleCallback nat (ret tt) refusing [] (Some quiet_options)
                  (initial 0%nat)).1 = Ok tt.
Proof.
  apply (attempt_rejects_only_from_onError nat (ret tt) refusing []
           (Some quiet_options) (initial 0%nat)).
  intros g arg e [= <-]. exists e. reflexivity.
Defined.

Lemma attempt_constructor_throws_witness :
  let run := handleCallback (list string)
               (throw (JsErrorOf "TypeError" "Invalid configuration"))
               noting_handler [] (Some noting_options) (initial []) in
  run.1 = Ok tt
  /\ status run.2 = Error
  /\ message run.2 = "Invalid configuration"
  /\ env run.2 = ["onError TypeError: Invalid configuration"].
Proof.
  intros run.
  destruct (attempt_constructor_throws (list string)
              (throw (JsErrorOf "TypeError" "Invalid configuration"))
              noting_handler [] (Some noting_options) (initial [])
              (JsErrorOf "TypeError" "Invalid configuration") [] eq_refl)
    as (Hrun & _).
  subst run. rewrite Hrun. repeat split.
Defined.

Lemma screen_after_attempt_witness :
  let run := handleCallback nat (ret tt) flaky [] (Some quiet_options)
                            (initial 0%nat) in
  let v := render (status run.2) None (message run.2) in
  view_title v = "Authentication Failed"
  /\ view_retry v = Some "Try Again"
  /\ view_message v = "Network error".
Proof.
  intros run v.
  destruct (screen_after_attempt nat (ret tt) flaky [] (Some quiet_options)
              (initial 0%nat) None) as (_ & _ & Herr).
  exact (Herr eq_refl).
Defined.

End HookMore.

(* ===================================================================== *)
(** * Properties of the authorization-code flow handler                  *)
(* ===================================================================== *)

Module FlowMore.
Import AsyncStorage ExpoStorageAdapter ExpoOAuthAdapter AuthCodeFlow.
Import StorageProps OAuthAdapterProps.

(** A name has a value in the query exactly when the callback
    parameters give it a string. *)
Lemma get_query_iff (params : OAuthCallbackParams) (key s : string) :
  NoDup params.*1 ->
  get key (toURLSearchParams params) = Some s <-> (key, VString s) ∈ params.
Proof.
  intros Hnd. unfold toURLSearchParams.
  rewrite toURLSearchParams_fold by exact Hnd. cbn [app].
  induction params as [| [k v] params IH]; cbn [omap list_omap].
  - split; [discriminate | intros H; now apply elem_of_nil in H].
  - apply NoDup_cons in Hnd as [Hk Hnd]. specialize (IH Hnd).
    assert (Hfresh : forall x, (k, x) ∉ params).
    { intros x Hin. apply Hk. apply list_elem_of_fmap. now exists (k, x). }
    destruct (String.eqb k key) eqn:E.
    + apply String.eqb_eq in E as <-.
      destruct v as [| | s']; cbn [present snd fst String_ get].
      * change (list_omap _ _ ?f params) with (omap f params).
        rewrite get_omap_fresh by exact Hk. split; [discriminate |].
        intros [[=] | Hin]%elem_of_cons. now destruct (Hfresh _ Hin).
      * change (list_omap _ _ ?f params) with (omap f params).
        rewrite get_omap_fresh by exact Hk. split; [discriminate |].
        intros [[=] | Hin]%elem_of_cons. now destruct (Hfresh _ Hin).
      * rewrite String.eqb_refl. split.
        -- intros [= ->]. left.
        -- intros [[= ->] | Hin]%elem_of_cons; [reflexivity |].
           now destruct (Hfresh _ Hin).
    + assert (Hne : k <> key) by now apply String.eqb_neq.
      assert (Hskip : (key, VString s) ∈ (k, v) :: params
                      <-> (key, VString s) ∈ params).
      { rewrite elem_of_cons. split; [| auto].
        intros [[= -> _] | Hin]; [congruence | exact Hin]. }
      rewrite Hskip.
      destruct v as [| | s']; cbn [present snd fst String_ get];
        rewrite ?E; exact IH.
Qed.

Lemma has_query_iff (params : OAuthCallbackParams) (key : string) :
  NoDup params.*1 ->
  has key (toURLSearchParams params) = true
  <-> exists s, (key, VString s) ∈ params.
Proof.
  intros Hnd. unfold has. rewrite bool_decide_eq_true. split.
  - intros [s Hs]. exists s. now apply get_query_iff.
  - intros [s Hs]. exists s. now apply get_query_iff.
Qed.

(** The flow takes a callback exactly when its parameters give a string
    for the code and none for the token and the magic-link token: a
    token that is null or undefined does not turn the flow away, and an
    empty code is taken. *)
Theorem canHandle_callback (params : OAuthCallbackParams) :
  NoDup params.*1 ->
  canHandle (toURLSearchParams params) = true
  <-> (exists s, ("code", VString s) ∈ params)
      /\ (forall s, ("token", VString s) ∉ params)
      /\ (forall s, ("magic_link_token", VString s) ∉ params).
Proof.
  intros Hnd. unfold canHandle.
  rewrite !andb_true_iff, !negb_true_iff.
  rewrite (has_query_iff params "code" Hnd).
  assert (Hno : forall key,
             has key (toURLSearchParams params) = false
             <-> forall s, (key, VString s) ∉ params).
  { intros key. rewrite <- not_true_iff_false, (has_query_iff params key Hnd).
    split.
    - intros Hn s Hin. apply Hn. eauto.
    - intros Hn [s Hin]. exact (Hn s Hin). }
  rewrite !Hno. tauto.
Qed.

Lemma canHandle_callback_witness :
  canHandle (toURLSearchParams
               [("code", VString "X"); ("token", VNull);
                ("state", VString "s")]) = true.
Proof.
  apply canHandle_callback.
  - apply (bool_decide_unpack _). vm_compute. exact I.
  - split; [exists "X"; left |].
    split; intros s Hin;
      repeat (apply elem_of_cons in Hin as [Hin | Hin]; [discriminate |]);
      now apply elem_of_nil in Hin.
Defined.

Section WithTokenManager.

Variable exchangeAuthorizationCode : string -> string -> M world OAuthResult.

Local Abbreviation handle := (handle exchangeAuthorizationCode).

(** [handle] never throws: every way out is a result. A code that is
    missing or empty gives the failure Missing authorization code
    without touching the store. With a code, a verifier that is missing
    or empty gives the failure Missing PKCE code verifier, and the code
    is not exchanged; a rejected read of the verifier gives a failure
    with the wrapped storage error; and with both, the handler gives
    what the exchange of that code and verifier gives, a throw of the
    exchange turned into a failure with its message. *)
Theorem handle_spec (params : URLSearchParams) (w : world) :
  (exists r, (handle params w).1 = Ok r)
  /\ (truthy (get "code" params) = false ->
      handle params w
      = (Ok (failure "Missing authorization code" "invalid_request"), w))
  /\ (forall code,
        get "code" params = Some code -> truthy_string code = true ->
        let w1 := after (GetItem "pkce_code_verifier") (store w) w in
        (next_ok w -> truthy (store w !! "pkce_code_verifier") = false ->
         handle params w
         = (Ok (failure "Missing PKCE code verifier" "invalid_request"), w1))
        /\ (forall f rest,
              faults w = Some f :: rest ->
              handle params w
              = (Ok (failure
                       ("Failed to retrieve item with key " +:+ quote
                        +:+ "pkce_code_verifier" +:+ quote +:+ ": "
                        +:+ exn_to_string (cause f))
                       "token_exchange_failed"), w1))
        /\ (forall verifier,
              next_ok w ->
              store w !! "pkce_code_verifier" = Some verifier ->
              truthy_string verifier = true ->
              handle params w
              = (match (exchangeAuthorizationCode code verifier w1).1 with
                 | Ok r => Ok r
                 | Throw (JsError m) | Throw (JsErrorOf _ m) =>
                     Ok (failure m "token_exchange_failed")
                 | Throw (JsOther _) =>
                     Ok (failure "Token exchange failed"
                                 "token_exchange_failed")
                 end,
                 (exchangeAuthorizationCode code verifier w1).2))).
Proof.
  split; [| split].
  - unfold AuthCodeFlow.handle, try_catch, bind, ret.
    destruct (negb (truthy (get "code" params))); [simpl; eauto |].
    destruct (getItem "pkce_code_verifier" w) as [[v | e] w1];
      [| simpl; eauto].
    destruct (negb (truthy v)); [simpl; eauto |].
    destruct (exchangeAuthorizationCode _ _ w1) as [[r | e] w2];
      simpl; eauto.
  - intros Hcode. unfold AuthCodeFlow.handle. now rewrite Hcode.
  - intros code Hcode Htruthy w1.
    unfold AuthCodeFlow.handle, try_catch, bind, ret.
    rewrite Hcode. cbn [truthy default]. rewrite Htruthy. cbn [negb].
    split; [| split].
    + intros Hn Hv. rewrite (getItem_ok _ _ Hn). now rewrite Hv.
    + intros f rest Hf.
      unfold getItem, try_catch, throw, AsyncStorage.getItem.
      now rewrite (request_ko _ _ _ _ _ _ Hf).
    + intros verifier Hn Hv Htv. rewrite (getItem_ok _ _ Hn), Hv.
      cbn [truthy default]. rewrite Htv. cbn [negb]. unfold id. fold w1.
      destruct (exchangeAuthorizationCode code verifier w1)
        as [[r | [m | n m | v]] w2]; reflexivity.
Qed.

End WithTokenManager.

Lemma handle_spec_witness :
  let exchange := fun (code verifier : string) =>
                    @throw world OAuthResult (JsError "invalid_grant") in
  (handle exchange [("code", "X")] (world_of ∅ 0)).1
  = Ok (failure "Missing PKCE code verifier" "invalid_request")
  /\ (handle exchange [("code", "X")]
             (world_of {[ "pkce_code_verifier" := "v" ]} 0)).1
     = Ok (failure "invalid_grant" "token_exchange_failed").
Proof.
  intros exchange.
  assert (Hn : forall m, next_ok (world_of m 0)).
  { intros m f rest. simpl. discriminate. }
  split.
  - destruct (handle_spec exchange [("code", "X")] (world_of ∅ 0))
      as (_ & _ & H).
    destruct (H "X" eq_refl eq_refl) as (Hmissing & _).
    now rewrite (Hmissing (Hn _) eq_refl).
  - destruct (handle_spec exchange [("code", "X")]
                (world_of {[ "pkce_code_verifier" := "v" ]} 0))
      as (_ & _ & H).
    destruct (H "X" eq_refl eq_refl) as (_ & _ & Hboth).
    now rewrite (Hboth "v" (Hn _) eq_refl eq_refl).
Defined.

End FlowMore.

(* ===================================================================== *)
(** * Properties of what the screen shows and of its timers              *)
(* ===================================================================== *)

Module ViewMore.
Import useOAuthCallback OAuthCallbackScreen OAuthCallbackView EffectLife.

Lemma or_default_truthy (o : option string) (d : string) :
  truthy_string d = true -> truthy_string (or_default o d) = true.
Proof.
  intros Hd. unfold or_default.
  destruct o as [s |]; [| exact Hd].
  destruct (truthy_string s) eqn:E; [exact E | exact Hd].
Qed.

(** The message shown while processing and after a success is never
    empty; the one shown after an error is empty exactly when there is
    no custom error message and the hook's message is empty. A custom
    message that is not empty is shown in each state; without one, a
    hook message that is not empty is shown. *)
Theorem getStatusMessage_spec (status : OAuthStatus) (m : option messages)
    (message : string) :
  let custom := match status with
                | Processing => field m msg_processing
                | Success => field m msg_success
                | Error => field m msg_error
                end in
  (status <> Error ->
   truthy_string (getStatusMessage status m message) = true)
  /\ (getStatusMessage Error m message = EmptyString
      <-> truthy (field m msg_error) = false /\ message = EmptyString)
  /\ (forall text, custom = Some text -> truthy_string text = true ->
                   getStatusMessage status m message = text)
  /\ (truthy custom = false -> truthy_string message = true ->
      getStatusMessage status m message = message).
Proof.
  intros custom. subst custom. split; [| split; [| split]].
  - intros Hst. destruct status; try congruence;
      now apply or_default_truthy.
  - unfold getStatusMessage, or_default, truthy.
    destruct (field m msg_error) as [s |].
    + destruct (truthy_string s) eqn:E.
      * split; [intros -> | intros [? _]]; discriminate.
      * split; [auto | now intros [_ ->]].
    + split; [auto | now intros [_ ->]].
  - intros text Hc Ht.
    destruct status; unfold getStatusMessage, or_default;
      rewrite Hc, Ht; cbn; now rewrite ?Ht.
  - intros Hc Hm.
    destruct status; unfold getStatusMessage, or_default, truthy in *;
      (destruct (field m _) as [s |]; [rewrite Hc |]);
      cbn; now rewrite ?Hm.
Qed.

Lemma getStatusMessage_spec_witness :
  getStatusMessage Success
    (Some {| msg_processing := None; msg_success := Some "Welcome back";
             msg_error := None; msg_retryButton := None |})
    "Authentication successful"
  = "Welcome back".
Proof.
  exact (proj1 (proj2 (proj2 (getStatusMessage_spec Success
           (Some {| msg_processing := None; msg_success := Some "Welcome back";
                    msg_error := None; msg_retryButton := None |})
           "Authentication successful")))
           "Welcome back" eq_refl eq_refl).
Defined.

Lemma filter_other_ids (l : list timer) (id : nat) :
  Forall (fun x => timer_id x <> id) l ->
  filter (fun x => timer_id x <> id) l = l.
Proof.
  induction 1 as [| x l Hx Hl IH]; [reflexivity |].
  rewrite filter_cons_True by exact Hx. now rewrite IH.
Qed.

(** One render: with the timer of the render before (if any) as the only
    timer of the effect that is pending, the same holds after. *)
Lemma render_effect_keeps {CB} (base : list timer) (prev : option nat)
    (st : OAuthStatus) (p : props CB) (t : timers) :
  Forall (fun x => (timer_id x < next_id t)%nat) base ->
  (exists own, pending t = base ++ own
               /\ match prev with
                  | Some id => (id < next_id t)%nat
                               /\ Forall (fun x => timer_id x = id) own
                               /\ Forall (fun x => timer_id x <> id) base
                  | None => own = []
                  end) ->
  exists c t' own',
    render_effect prev st p t = (Ok c, t')
    /\ (next_id t <= next_id t')%nat
    /\ pending t' = base ++ own'
    /\ (length own' <= 1)%nat
    /\ match c with
       | Some id => (id < next_id t')%nat
                    /\ Forall (fun x => timer_id x = id) own'
                    /\ Forall (fun x => timer_id x <> id) base
       | None => own' = []
       end.
Proof.
  intros Hbase (own & Hpend & Hprev).
  assert (Hclean : exists t1,
             cleanup prev t = (Ok tt, t1)
             /\ next_id t1 = next_id t /\ pending t1 = base).
  { destruct prev as [id |]; unfold cleanup, clearTimeout, modify, ret.
    - destruct Hprev as (_ & Hown & Hother).
      eexists. split; [reflexivity |]. split; [reflexivity |].
      cbn [pending]. rewrite Hpend, filter_app.
      rewrite (filter_other_ids base id Hother).
      replace (filter (fun x => timer_id x <> id) own) with (@nil timer).
      + now rewrite app_nil_r.
      + clear -Hown. induction Hown as [| x l Hx Hl IH]; [reflexivity |].
        rewrite filter_cons_False by (intros Hne; now apply Hne). exact IH.
    - subst own. rewrite app_nil_r in Hpend. eauto. }
  destruct Hclean as (t1 & Hrun1 & Hnext1 & Hpend1).
  unfold render_effect, bind. rewrite Hrun1.
  unfold autoRedirect_effect.
  destruct (_ && _ && _).
  - unfold bind, setTimeout, ret. cbn [fst snd].
    eexists _, _, [_]. split; [reflexivity |].
    cbn [next_id pending]. rewrite Hpend1, Hnext1.
    split; [lia |]. split; [reflexivity |]. split; [simpl; lia |].
    split; [lia |]. split.
    + constructor; [reflexivity | constructor].
    + eapply Forall_impl; [exact Hbase |]. cbn. intros x Hx. lia.
  - unfold ret. eexists _, _, []. split; [reflexivity |].
    rewrite Hpend1, Hnext1, app_nil_r. repeat split; auto.
Qed.

(** However often the screen renders between mount and unmount, with
    whatever status and props, the effect has at most one timer pending,
    and after the unmount it has none: the timers pending are the ones
    that were pending before the mount. *)
Theorem lifetime_leaves_no_timer {CB} (rs : list (OAuthStatus * props CB))
    (t : timers) :
  Forall (fun x => (timer_id x < next_id t)%nat) (pending t) ->
  (exists c t' own,
     render_effects rs None t = (Ok c, t')
     /\ pending t' = pending t ++ own
     /\ (length own <= 1)%nat)
  /\ (lifetime rs t).1 = Ok tt
  /\ pending (lifetime rs t).2 = pending t.
Proof.
  intros Hwf.
  assert (Hinv : forall rs prev t0,
    Forall (fun x => (timer_id x < next_id t0)%nat) (pending t) ->
    (exists own, pending t0 = pending t ++ own
                 /\ (length own <= 1)%nat
                 /\ match prev with
                    | Some id => (id < next_id t0)%nat
                                 /\ Forall (fun x => timer_id x = id) own
                                 /\ Forall (fun x => timer_id x <> id)
                                           (pending t)
                    | None => own = []
                    end) ->
    exists c t' own',
      @render_effects CB rs prev t0 = (Ok c, t')
      /\ Forall (fun x => (timer_id x < next_id t')%nat) (pending t)
      /\ pending t' = pending t ++ own'
      /\ (length own' <= 1)%nat
      /\ match c with
         | Some id => (id < next_id t')%nat
                      /\ Forall (fun x => timer_id x = id) own'
                      /\ Forall (fun x => timer_id x <> id) (pending t)
         | None => own' = []
         end).
  { clear rs. induction rs as [| [st p] rs IH]; intros prev t0 Hb Hown.
    - destruct Hown as (own & Hpend & Hlen & Hprev).
      exists prev, t0, own. cbn [render_effects]. unfold ret. auto.
    - destruct Hown as (own & Hpend & Hlen & Hprev).
      destruct (render_effect_keeps (pending t) prev st p t0 Hb)
        as (c & t1 & own1 & Hrun & Hnext & Hpend1 & Hlen1 & Hc).
      { exists own. auto. }
      cbn [render_effects]. unfold bind. rewrite Hrun.
      apply IH.
      + eapply Forall_impl; [exact Hb |]. cbn. intros x Hx. lia.
      + exists own1. auto. }
  destruct (Hinv rs None t Hwf) as (c & t' & own & Hrun & Hb & Hpend & Hlen & Hc).
  { exists []. rewrite app_nil_r. auto. }
  split; [exists c, t', own; auto |].
  unfold lifetime, bind. rewrite Hrun.
  destruct c as [id |]; unfold cleanup, clearTimeout, modify, ret;
    cbn [fst snd pending].
  - destruct Hc as (_ & Hown & Hother). split; [reflexivity |].
    rewrite Hpend. rewrite filter_app.
    rewrite (filter_other_ids (pending t) id Hother).
    replace (filter (fun x => timer_id x <> id) own) with (@nil timer).
    + now rewrite app_nil_r.
    + clear -Hown. induction Hown as [| x l Hx Hl IH]; [reflexivity |].
      rewrite filter_cons_False by (intros Hne; now apply Hne). exact IH.
  - subst own. rewrite app_nil_r in Hpend. auto.
Qed.

Lemma lifetime_leaves_no_timer_witness :
  let full := {| onSuccess := Some tt; autoRedirect := None;
                 redirectDelay := Some 500 |} in
  let later := {| pending := [ {| timer_id := 3; timer_delay := 10;
                                  timer_handler := ["tick"] |} ];
                  next_id := 4 |} in
  pending (lifetime [(Processing, full); (Success, full); (Success, full)]
                    later).2
  = pending later.
Proof.
  intros full later.
  destruct (lifetime_leaves_no_timer
              [(Processing, full); (Success, full); (Success, full)] later)
    as (_ & _ & Hpending); [| exact Hpending].
  constructor; [simpl; lia | constructor].
Defined.

End ViewMore.

(* ===================================================================== *)
(** * Objects and form encoding                                          *)
(* ===================================================================== *)

Module JsObjectProps.
Import JsObject.

Lemma lookup_assign_eq key v (o : obj) : lookup key (assign key v o) = Some v.
Proof.
  induction o as [| [k x] o IH]; simpl.
  - now rewrite String.eqb_refl.
  - destruct (String.eqb k key) eqn:E; simpl; now rewrite E.
Qed.

Lemma lookup_assign_ne key key' v (o : obj) :
  key' <> key -> lookup key' (assign key v o) = lookup key' o.
Proof.
  intros Hne. induction o as [| [k x] o IH]; simpl.
  - apply not_eq_sym, String.eqb_neq in Hne. now rewrite Hne.
  - destruct (String.eqb k key) eqn:E; simpl.
    + apply String.eqb_eq in E as ->.
      apply not_eq_sym, String.eqb_neq in Hne. now rewrite Hne.
    + now rewrite IH.
Qed.

Lemma lookup_app key (a b : obj) :
  lookup key (a ++ b)
  = match lookup key a with
    | Some v => Some v
    | None => lookup key b
    end.
Proof.
  induction a as [| [k x] a IH]; simpl; [reflexivity |].
  now destruct (String.eqb k key).
Qed.

(** An assigned property wins over the property of the target; among
    the assigned ones, the last wins. *)
Lemma lookup_assign_all key (kvs target : obj) :
  lookup key (assign_all kvs target)
  = match lookup key (reverse kvs) with
    | Some v => Some v
    | None => lookup key target
    end.
Proof.
  unfold assign_all. revert target.
  induction kvs as [| [k x] kvs IH]; intros target;
    [reflexivity |].
  rewrite reverse_cons. cbn [fold_left fst snd].
  rewrite IH, lookup_app.
  destruct (lookup key (reverse kvs)); [reflexivity |].
  simpl. destruct (String.eqb k key) eqn:E.
  - apply String.eqb_eq in E as ->. apply lookup_assign_eq.
  - apply lookup_assign_ne. apply String.eqb_neq in E. congruence.
Qed.

Lemma lookup_None key (o : obj) : lookup key o = None <-> key ∉ o.*1.
Proof.
  induction o as [| [k x] o IH]; simpl.
  - split; [intros _; apply not_elem_of_nil | reflexivity].
  - rewrite not_elem_of_cons. destruct (String.eqb k key) eqn:E.
    + apply String.eqb_eq in E. split; [discriminate | intros [? _]; congruence].
    + apply String.eqb_neq in E. rewrite IH. split; [auto | tauto].
Qed.

Lemma lookup_Some key v (o : obj) :
  NoDup o.*1 -> lookup key o = Some v <-> (key, v) ∈ o.
Proof.
  induction o as [| [k x] o IH]; simpl; intros Hnd.
  - split; [discriminate | intros H; now apply elem_of_nil in H].
  - apply NoDup_cons in Hnd as [Hk Hnd]. rewrite elem_of_cons.
    destruct (String.eqb k key) eqn:E.
    + apply String.eqb_eq in E as ->. split.
      * intros [= ->]. now left.
      * intros [[= ->] | Hin]; [reflexivity |].
        exfalso. apply Hk. apply list_elem_of_fmap. now exists (key, v).
    + apply String.eqb_neq in E. rewrite (IH Hnd). split; [auto |].
      intros [[= -> _] | Hin]; [congruence | exact Hin].
Qed.

(** Two objects with the same properties, each name once, answer a
    lookup alike. *)
Lemma lookup_Permutation key (o o' : obj) :
  NoDup o.*1 -> o ≡ₚ o' -> lookup key o = lookup key o'.
Proof.
  intros Hnd Hp.
  assert (Hnd' : NoDup o'.*1) by now rewrite <- Hp.
  destruct (lookup key o') as [v |] eqn:E.
  - apply lookup_Some; [exact Hnd |]. rewrite Hp.
    now apply lookup_Some in E.
  - apply lookup_None. rewrite Hp. now apply lookup_None in E.
Qed.

Lemma lookup_assign_all_source key v (kvs target : obj) :
  NoDup kvs.*1 -> (key, v) ∈ kvs ->
  lookup key (assign_all kvs target) = Some v.
Proof.
  intros Hnd Hin. rewrite lookup_assign_all.
  assert (Hrev : lookup key (reverse kvs) = Some v).
  { apply lookup_Some.
    - rewrite fmap_reverse. now rewrite reverse_Permutation.
    - now apply elem_of_reverse. }
  now rewrite Hrev.
Qed.

Lemma lookup_assign_all_target key (kvs target : obj) :
  key ∉ kvs.*1 ->
  lookup key (assign_all kvs target) = lookup key target.
Proof.
  intros Hk. rewrite lookup_assign_all.
  assert (Hrev : lookup key (reverse kvs) = None).
  { apply lookup_None. rewrite fmap_reverse. now rewrite elem_of_reverse. }
  now rewrite Hrev.
Qed.

Lemma assign_fresh key v (o : obj) :
  key ∉ o.*1 -> assign key v o = o ++ [(key, v)].
Proof.
  induction o as [| [k x] o IH]; simpl; [reflexivity |].
  intros [Hne Hk]%not_elem_of_cons.
  destruct (String.eqb k key) eqn:E.
  - apply String.eqb_eq in E. congruence.
  - now rewrite IH.
Qed.

Lemma assign_present key v (o : obj) :
  key ∈ o.*1 -> (assign key v o).*1 = o.*1.
Proof.
  induction o as [| [k x] o IH]; simpl.
  - intros H. now apply elem_of_nil in H.
  - intros Hin. destruct (String.eqb k key) eqn:E; [reflexivity |].
    simpl. f_equal. apply IH.
    apply elem_of_cons in Hin as [-> | Hin]; [| exact Hin].
    now rewrite String.eqb_refl in E.
Qed.

(** Assigning names that are new and distinct appends them in order. *)
Lemma assign_all_fresh (target kvs : obj) :
  NoDup (target.*1 ++ kvs.*1) -> assign_all kvs target = target ++ kvs.
Proof.
  unfold assign_all. revert target.
  induction kvs as [| [k x] kvs IH]; intros target Hnd; simpl.
  - now rewrite app_nil_r.
  - assert (Hk : k ∉ target.*1).
    { apply NoDup_app in Hnd as (_ & Hdis & _).
      intros Hin. apply (Hdis _ Hin). left. }
    rewrite assign_fresh by exact Hk. rewrite IH.
    + now rewrite <- app_assoc.
    + rewrite fmap_app. simpl. now rewrite <- app_assoc.
Qed.

Lemma filter_none {A} (P : A -> Prop) `{!forall x, Decision (P x)}
    (l : list A) :
  Forall (fun x => ~ P x) l -> filter P l = [].
Proof.
  induction 1 as [| x l Hx _ IH]; [reflexivity |].
  now rewrite filter_cons_False.
Qed.

Lemma filter_all {A} (P : A -> Prop) `{!forall x, Decision (P x)}
    (l : list A) :
  Forall P l -> filter P l = l.
Proof.
  induction 1 as [| x l Hx _ IH]; [reflexivity |].
  rewrite filter_cons_True by exact Hx. now rewrite IH.
Qed.

Lemma filter_same {A} (P Q : A -> Prop) `{!forall x, Decision (P x)}
    `{!forall x, Decision (Q x)} (l : list A) :
  (forall x, x ∈ l -> P x <-> Q x) -> filter P l = filter Q l.
Proof.
  induction l as [| x l IH]; intros Hpq; [reflexivity |].
  assert (Hl : forall y, y ∈ l -> P y <-> Q y)
    by (intros y Hy; apply Hpq; now right).
  destruct (decide (P x)) as [Hp | Hp].
  - rewrite filter_cons_True by exact Hp.
    rewrite filter_cons_True by (apply Hpq; [left | exact Hp]).
    now rewrite IH.
  - rewrite filter_cons_False by exact Hp.
    rewrite filter_cons_False
      by (intros Hq; apply Hp, Hpq; [left | exact Hq]).
    now apply IH.
Qed.

(** The names of the properties that a condition on the name keeps. *)
Lemma filter_names (P : string * string -> Prop) (Q : string -> Prop)
    `{!forall x, Decision (P x)} `{!forall k, Decision (Q k)} (o : obj) :
  (forall kv, P kv <-> Q kv.1) -> (filter P o).*1 = filter Q o.*1.
Proof.
  intros Hpq. induction o as [| kv o IH]; [reflexivity |].
  cbn [fmap list_fmap]. destruct (decide (P kv)) as [Hp | Hp].
  - rewrite (filter_cons_True P) by exact Hp.
    rewrite (filter_cons_True Q) by now apply Hpq.
    cbn [fmap list_fmap]. f_equal. exact IH.
  - rewrite (filter_cons_False P) by exact Hp.
    rewrite (filter_cons_False Q) by (intros Hq; now apply Hp, Hpq).
    exact IH.
Qed.

(** The names after the assignments: those of the target in their
    places, then the new ones in the order of their assignment. *)
Lemma assign_all_names (kvs target : obj) :
  NoDup kvs.*1 ->
  (assign_all kvs target).*1
  = target.*1 ++ filter (fun key => key ∉ target.*1) kvs.*1.
Proof.
  unfold assign_all. revert target.
  induction kvs as [| [k x] kvs IH]; intros target Hnd;
    cbn [fold_left fst snd fmap list_fmap].
  - now rewrite app_nil_r.
  - apply NoDup_cons in Hnd as [Hk Hnd]. rewrite (IH _ Hnd).
    destruct (decide (k ∈ target.*1)) as [Hin | Hout].
    + rewrite (assign_present _ _ _ Hin).
      now rewrite (filter_cons_False (fun key => key ∉ target.*1))
        by (intros Hout; exact (Hout Hin)).
    + rewrite (assign_fresh _ _ _ Hout), fmap_app.
      cbn [fmap list_fmap fst].
      rewrite (filter_cons_True (fun key => key ∉ target.*1))
        by exact Hout.
      rewrite <- app_assoc. cbn [app].
      do 2 f_equal. apply filter_same. intros y Hy.
      rewrite not_elem_of_app, not_elem_of_cons. split; [tauto |].
      intros Hyt. split; [exact Hyt |]. split; [| apply not_elem_of_nil].
      intros ->. contradiction.
Qed.

(** [entries] walks every property once. *)
Lemma entries_Permutation (o : obj) : entries o ≡ₚ o.
Proof.
  unfold entries. rewrite merge_sort_Permutation.
  apply filter_app_complement.
Qed.

Lemma entries_names_NoDup (o : obj) : NoDup o.*1 -> NoDup (entries o).*1.
Proof. now rewrite entries_Permutation. Qed.

(** Without an array index among the names, the order is that of the
    creation. *)
Lemma entries_plain (o : obj) :
  Forall (fun kv => ~ is_index kv) o -> entries o = o.
Proof.
  intros Hplain. unfold entries.
  rewrite (filter_none is_index) by exact Hplain.
  now rewrite (filter_all (fun kv => ~ is_index kv)) by exact Hplain.
Qed.

Lemma lookup_entries key (o : obj) :
  NoDup o.*1 -> lookup key (entries o) = lookup key o.
Proof.
  intros Hnd. symmetry. apply lookup_Permutation; [exact Hnd |].
  symmetry. apply entries_Permutation.
Qed.

#[local] Instance index_le_trans : Transitive index_le.
Proof. intros a b c. unfold index_le. lia. Qed.

#[local] Instance index_le_total : Total index_le.
Proof. intros a b. unfold index_le. lia. Qed.

(** The names that are array indices come first, ascending; the others
    follow in the order of their creation. *)
Lemma entries_names (o : obj) :
  exists first,
    (entries o).*1
    = first ++ filter (fun key => array_index key = None) o.*1
    /\ first ≡ₚ filter (fun key => is_Some (array_index key)) o.*1
    /\ StronglySorted
         (fun a b => default 0 (array_index a) <= default 0 (array_index b))
         first.
Proof.
  exists (merge_sort index_le (filter is_index o)).*1.
  split; [| split].
  - unfold entries. rewrite fmap_app. f_equal.
    apply filter_names. intros kv. unfold is_index.
    now rewrite <- eq_None_not_Some.
  - rewrite merge_sort_Permutation.
    now rewrite (filter_names is_index
                   (fun key => is_Some (array_index key))).
  - apply (StronglySorted_fmap fst index_le); [auto |].
    apply StronglySorted_merge_sort; apply _.
Qed.

(** With distinct names in the source, a spread property is found with
    the value the source gives it. *)
Lemma lookup_spread_source key v (target source : obj) :
  NoDup source.*1 -> (key, v) ∈ source ->
  lookup key (spread target source) = Some v.
Proof.
  intros Hnd Hin. apply lookup_assign_all_source.
  - now apply entries_names_NoDup.
  - now rewrite entries_Permutation.
Qed.

Lemma lookup_spread_target key (target source : obj) :
  key ∉ source.*1 ->
  lookup key (spread target source) = lookup key target.
Proof.
  intros Hk. apply lookup_assign_all_target.
  now rewrite entries_Permutation.
Qed.

Lemma spread_names_NoDup (target source : obj) :
  NoDup target.*1 -> NoDup source.*1 -> NoDup (spread target source).*1.
Proof.
  intros Ht Hs. unfold spread.
  rewrite assign_all_names by now apply entries_names_NoDup.
  apply NoDup_app. split; [exact Ht |]. split.
  - intros key Hkey [Hout _]%list_elem_of_filter. contradiction.
  - apply NoDup_filter. now apply entries_names_NoDup.
Qed.

Lemma encode_safe (s : string) :
  all_chars FormUrlencoded.safe s = true -> FormUrlencoded.encode s = s.
Proof.
  induction s as [| c s IH]; simpl; [reflexivity |].
  intros [Hc Hs]%andb_prop. unfold FormUrlencoded.encode_byte.
  rewrite Hc. simpl. now rewrite IH.
Qed.

End JsObjectProps.

(* ===================================================================== *)
(** * Properties of the authorization URL                                *)
(* ===================================================================== *)

Module ConfigMore.
Import JsObject ExpoPKCEAdapter useOAuthConfig Fixtures.
Import PKCEProps JsObjectProps.

Lemma base64url_is_safe (s : string) :
  all_chars (fun a => base64url_char a && negb (Ascii.eqb a "+")
                      && negb (Ascii.eqb a "/") && negb (Ascii.eqb a "="))
            s = true ->
  all_chars FormUrlencoded.safe s = true.
Proof.
  apply all_chars_impl. intros a.
  destruct a as [[] [] [] [] [] [] [] []]; vm_compute; auto.
Qed.

(** The seven standard names; none is an array index. *)
Lemma standard_names (c : ExpoOAuthConfig) (state : string)
    (p : PKCEChallenge) :
  (standard_params c state p).*1
  = [ "response_type"; "client_id"; "redirect_uri"; "scope"; "state";
      "code_challenge"; "code_challenge_method" ]
  /\ Forall (fun kv => ~ is_index kv) (standard_params c state p).
Proof.
  split; [reflexivity |].
  repeat constructor; intros [n Hn]; vm_compute in Hn; discriminate Hn.
Qed.

(** Without additional parameters, the pairs are the standard ones. *)
Lemma authorization_params_plain (c : ExpoOAuthConfig) (state : string)
    (p : PKCEChallenge) :
  authorization_params c state p None = standard_params c state p.
Proof.
  unfold authorization_params, spread. cbn [default].
  change (entries []) with (@nil (string * string)).
  cbn [assign_all fold_left].
  apply entries_plain, standard_names.
Qed.

Section WithPlatform.

Variable Rng : Type.
Variable Math_random : Rng -> Q * Rng.
Variable digestStringAsync : string -> outcome string.
Variable randomUUID : M Rng string.

Hypothesis random_unit :
  forall g, (0 <= (Math_random g).1)%Q /\ ((Math_random g).1 < 1)%Q.

Hypothesis digest_base64 :
  forall plain hash,
    digestStringAsync plain = Ok hash -> is_base64 hash = true.

Local Abbreviation generateAuthUrl :=
  (generateAuthUrl Rng Math_random digestStringAsync randomUUID).

(** What a [generateAuthUrl] that returned went through. *)
Lemma generateAuthUrl_run (c : ExpoOAuthConfig) (extra : option obj)
    (g g' : Rng) (r : AuthUrl) :
  generateAuthUrl c extra g = (Ok r, g') ->
  exists hash g1,
    String.length (url_codeVerifier r) = 128%nat
    /\ digestStringAsync (url_codeVerifier r) = Ok hash
    /\ randomUUID g1 = (Ok (url_state r), g')
    /\ authUrl r
       = authorization (config_endpoints c) +:+ "?"
         +:+ FormUrlencoded.toString
               (authorization_params c (url_state r)
                  {| codeChallenge := base64url_of_base64 hash;
                     codeChallengeMethod := "S256";
                     codeVerifier := url_codeVerifier r |} extra).
Proof.
  unfold useOAuthConfig.generateAuthUrl, generateState, bind, ret.
  unfold generateCodeChallenge, sha256.
  pose proof (generateRandomString_spec Rng Math_random random_unit 128 g)
    as [Hlen _].
  destruct (generateRandomString Rng Math_random 128 g) as [v g1].
  cbn [fst] in Hlen.
  destruct (digestStringAsync v) as [hash | e] eqn:Hd; [| discriminate].
  destruct (randomUUID g1) as [[st | e] g2] eqn:Hs; [| discriminate].
  intros [= <- <-]. cbn. eauto 10.
Qed.

(** Without additional parameters, the URL that [generateAuthUrl]
    returns is the authorization endpoint, a question mark and the
    seven standard parameters in their order, form-encoded; the
    challenge stands in it as it is, since none of its characters needs
    escaping, and it is the converted digest of the verifier that is
    returned with the URL, which has 128 characters. *)
Theorem generateAuthUrl_plain (c : ExpoOAuthConfig) (g g' : Rng)
    (r : AuthUrl) :
  generateAuthUrl c None g = (Ok r, g') ->
  String.length (url_codeVerifier r) = 128%nat
  /\ exists hash,
       digestStringAsync (url_codeVerifier r) = Ok hash
       /\ authUrl r
          = authorization (config_endpoints c) +:+ "?"
            +:+ String.concat "&"
                  [ "response_type=code";
                    "client_id=" +:+ FormUrlencoded.encode (clientId c);
                    "redirect_uri="
                    +:+ FormUrlencoded.encode (redirectUri c);
                    "scope="
                    +:+ FormUrlencoded.encode
                          (String.concat " " (scopes c));
                    "state=" +:+ FormUrlencoded.encode (url_state r);
                    "code_challenge=" +:+ base64url_of_base64 hash;
                    "code_challenge_method=S256" ].
Proof.
  intros Hrun.
  destruct (generateAuthUrl_run c None g g' r Hrun)
    as (hash & g1 & Hlen & Hd & _ & Hurl).
  split; [exact Hlen |]. exists hash. split; [exact Hd |].
  rewrite Hurl. f_equal. f_equal.
  assert (Henc : FormUrlencoded.encode (base64url_of_base64 hash)
                 = base64url_of_base64 hash).
  { apply encode_safe, base64url_is_safe, base64url_of_base64_class.
    apply digest_base64 in Hd. unfold is_base64 in Hd.
    now apply andb_prop in Hd as [Hall _]. }
  rewrite authorization_params_plain.
  unfold FormUrlencoded.toString, standard_params.
  cbn [map fst snd codeChallenge codeChallengeMethod].
  rewrite Henc. reflexivity.
Qed.

(** Additional parameters are spread over the standard ones, and the
    pairs of the query are the properties of the result as the
    constructor walks them. A name they share with a standard parameter
    takes the additional value, the state and the challenge too; the
    names they do not share keep the standard value. In the query, the
    additional names that are array indices come first, ascending; then
    the seven standard names in their order; then the other additional
    names that are new, in the order in which the caller gave them. *)
Theorem authorization_params_override (c : ExpoOAuthConfig)
    (state : string) (p : PKCEChallenge) (extra : obj) :
  NoDup extra.*1 ->
  let params := authorization_params c state p (Some extra) in
  let plain := authorization_params c state p None in
  let standard :=
    [ "response_type"; "client_id"; "redirect_uri"; "scope"; "state";
      "code_challenge"; "code_challenge_method" ] in
  (forall key v, (key, v) ∈ extra -> lookup key params = Some v)
  /\ (forall key, key ∉ extra.*1 -> lookup key params = lookup key plain)
  /\ plain.*1 = standard
  /\ lookup "state" plain = Some state
  /\ lookup "code_challenge" plain = Some (codeChallenge p)
  /\ NoDup params.*1
  /\ exists first,
       params.*1
       = first ++ standard
         ++ filter (fun key => array_index key = None /\ key ∉ standard)
                   extra.*1
       /\ first ≡ₚ filter (fun key => is_Some (array_index key)) extra.*1
       /\ StronglySorted
            (fun a b =>
               default 0 (array_index a) <= default 0 (array_index b))
            first.
Proof.
  intros Hnd params plain standard. subst params plain.
  rewrite authorization_params_plain.
  destruct (standard_names c state p) as [Hnames Hplain].
  unfold authorization_params. cbn [default]. unfold id.
  set (std := standard_params c state p) in *.
  assert (Hstd : NoDup std.*1).
  { rewrite Hnames. apply (bool_decide_unpack _). vm_compute. exact I. }
  assert (Hall : NoDup (spread std extra).*1)
    by now apply spread_names_NoDup.
  assert (Hno : forall key, key ∈ standard -> array_index key = None).
  { intros key Hkey. subst standard.
    repeat (apply elem_of_cons in Hkey as [-> | Hkey]; [reflexivity |]).
    now apply elem_of_nil in Hkey. }
  split; [| split; [| split; [| split; [| split; [| split]]]]].
  - intros key v Hin. rewrite lookup_entries by exact Hall.
    now apply lookup_spread_source.
  - intros key Hk. rewrite lookup_entries by exact Hall.
    now apply lookup_spread_target.
  - exact Hnames.
  - reflexivity.
  - reflexivity.
  - now apply entries_names_NoDup.
  - destruct (entries_names (spread std extra)) as (first & Hfirst & Hp & Hs).
    destruct (entries_names extra) as (first' & Hfirst' & Hp' & Hs').
    assert (Hspread : (spread std extra).*1
                      = standard
                        ++ filter (fun key => key ∉ standard)
                             (entries extra).*1).
    { unfold spread.
      rewrite assign_all_names by now apply entries_names_NoDup.
      now rewrite Hnames. }
    exists first. split; [| split; [| exact Hs]].
    + rewrite Hfirst, Hspread, filter_app.
      rewrite (filter_all (fun key => array_index key = None) standard)
        by (apply Forall_forall; exact Hno).
      apply (f_equal (app first)), (f_equal (app standard)).
      rewrite list_filter_filter, Hfirst', filter_app.
      rewrite (filter_none _ first').
      * cbn [app]. rewrite list_filter_filter.
        apply filter_same. intros key _. tauto.
      * apply Forall_forall. intros key Hkey [Hnone _].
        rewrite Hp' in Hkey.
        apply list_elem_of_filter in Hkey as [[n Hn] _]. congruence.
    + rewrite Hp, Hspread, filter_app.
      rewrite (filter_none _ standard).
      * cbn [app]. rewrite list_filter_filter.
        rewrite (filter_same _ (fun key => is_Some (array_index key))).
        -- now rewrite entries_Permutation.
        -- intros key _. split; [tauto |].
           intros Hidx. split; [exact Hidx |]. intros Hin.
           rewrite (Hno _ Hin) in Hidx. now destruct Hidx.
      * apply Forall_forall. intros key Hkey [n Hn].
        rewrite (Hno _ Hkey) in Hn. discriminate.
Qed.

(** A failure of the digest or of the source of states is not wrapped
    and not recovered from: [generateCodeChallenge] and
    [generateAuthUrl] reject with the very value the platform threw,
    once the 128 draws of the verifier are made. *)
Theorem crypto_failures_pass_through (c : ExpoOAuthConfig)
    (extra : option obj) (g : Rng) :
  let drawn := generateRandomString Rng Math_random 128 g in
  (forall e,
     digestStringAsync drawn.1 = Throw e ->
     generateCodeChallenge Rng Math_random digestStringAsync g
     = (Throw e, drawn.2)
     /\ generateAuthUrl c extra g = (Throw e, drawn.2))
  /\ (forall hash e g2,
        digestStringAsync drawn.1 = Ok hash ->
        randomUUID drawn.2 = (Throw e, g2) ->
        generateAuthUrl c extra g = (Throw e, g2)).
Proof.
  intros drawn. subst drawn.
  unfold useOAuthConfig.generateAuthUrl, generateState, bind, ret.
  unfold generateCodeChallenge, sha256.
  destruct (generateRandomString Rng Math_random 128 g) as [v g1].
  cbn [fst snd]. split.
  - intros e ->. split; reflexivity.
  - intros hash e g2 -> Hs. now rewrite Hs.
Qed.

End WithPlatform.

(** A source of states that answers with one UUID. *)
Lemma generateAuthUrl_plain_witness :
  let c := {| clientId := "app 1";
              config_endpoints :=
                {| authorization := "https://id.example/authorize";
                   token := "https://id.example/token";
                   revocation := None |};
              redirectUri := "app://cb";
              scopes := ["read"; "write"];
              scheme := None; path := None |} in
  exists r g',
    generateAuthUrl nat walk fixed_digest
      (ret "6f1c2d3e-0000-4000-8000-000000000000") c None 7%nat = (Ok r, g')
    /\ String.length (url_codeVerifier r) = 128%nat.
Proof.
  intros c. eexists _, _. split; [vm_compute; reflexivity |].
  exact (proj1 (generateAuthUrl_plain nat walk fixed_digest
                  (ret "6f1c2d3e-0000-4000-8000-000000000000")
                  walk_unit fixed_digest_base64 c 7%nat _ _ eq_refl)).
Defined.

(** Additional parameters that replace the state, add a prompt, and add
    a parameter whose name is the array index 0. *)
Lemma authorization_params_override_witness :
  let params :=
    authorization_params
      {| clientId := "app";
         config_endpoints :=
           {| authorization := "https://id.example/authorize";
              token := "https://id.example/token"; revocation := None |};
         redirectUri := "app://cb"; scopes := ["read"];
         scheme := None; path := None |}
      "generated"
      {| codeChallenge := "c"; codeChallengeMethod := "S256";
         codeVerifier := "v" |}
      (Some [("prompt", "login"); ("state", "mine"); ("0", "x")]) in
  lookup "state" params = Some "mine"
  /\ params.*1
     = [ "0"; "response_type"; "client_id"; "redirect_uri"; "scope";
         "state"; "code_challenge"; "code_challenge_method"; "prompt" ].
Proof.
  intros params.
  destruct (authorization_params_override
              {| clientId := "app";
                 config_endpoints :=
                   {| authorization := "https://id.example/authorize";
                      token := "https://id.example/token";
                      revocation := None |};
                 redirectUri := "app://cb"; scopes := ["read"];
                 scheme := None; path := None |}
              "generated"
              {| codeChallenge := "c"; codeChallengeMethod := "S256";
                 codeVerifier := "v" |}
              [("prompt", "login"); ("state", "mine"); ("0", "x")])
    as (Hgiven & _ & _ & _ & _ & _ & first & Hnames & Hfirst & _).
  - apply (bool_decide_unpack _). vm_compute. exact I.
  - split.
    + apply Hgiven. right. left.
    + change (filter (fun key => is_Some (array_index key))
                ([("prompt", "login"); ("state", "mine"); ("0", "x")].*1))
        with ["0"] in Hfirst.
      apply Permutation_singleton_r in Hfirst. subst first.
      exact Hnames.
Defined.

Lemma crypto_failures_pass_through_witness :
  (generateCodeChallenge nat walk
     (fun _ => Throw (JsOther (VString "digest unavailable"))) 0%nat).1
  = Throw (JsOther (VString "digest unavailable")).
Proof.
  pose proof (crypto_failures_pass_through nat walk
                (fun _ => Throw (JsOther (VString "digest unavailable")))
                (ret "unused")
                {| clientId := "app";
                   config_endpoints :=
                     {| authorization := "a"; token := "t";
                        revocation := None |};
                   redirectUri := "r"; scopes := []; scheme := None;
                   path := None |} None 0%nat) as [Hdigest _].
  destruct (Hdigest (JsOther (VString "digest unavailable")) eq_refl)
    as [Hpkce _].
  now rewrite Hpkce.
Defined.

End ConfigMore.
(* ===================================================================== *)
(** * Properties of the HTTP adapter                                     *)
(* ===================================================================== *)

Module HttpMore.
Import JsObject ExpoHttpAdapter JsObjectProps Fixtures.

(** The form with the fields that are given, each as the text that
    [String] makes of it, in order: when every conversion returns. *)
Lemma formData_returns (d : data) (form : list (string * string)) :
  (forall kv, kv ∈ d -> given kv.2 = true ->
              exists text, String_of kv.2 = Ok text) ->
  formData d form
  = Ok (form
        ++ omap (fun kv : string * unknown =>
                   if given kv.2 then
                     match String_of kv.2 with
                     | Ok text => Some (kv.1, text)
                     | Throw _ => None
                     end
                   else None) d).
Proof.
  revert form. induction d as [| [key v] d IH]; intros form Hall.
  - cbn. now rewrite app_nil_r.
  - assert (Hd : forall kv, kv ∈ d -> given kv.2 = true ->
                            exists text, String_of kv.2 = Ok text)
      by (intros kv Hkv; apply Hall; now right).
    cbn [formData omap list_omap fst snd].
    destruct (given v) eqn:Hv.
    + destruct (Hall (key, v) ltac:(left) Hv) as [text Htext].
      cbn [snd] in Htext. rewrite Htext, (IH _ Hd).
      now rewrite <- app_assoc.
    + apply (IH _ Hd).
Qed.

(** The first conversion that throws ends the filling of the form. *)
Lemma formData_throws (before after : data) (key : string) (v : unknown)
    (e : exn) (form : list (string * string)) :
  (forall kv, kv ∈ before -> given kv.2 = true ->
              exists text, String_of kv.2 = Ok text) ->
  given v = true -> String_of v = Throw e ->
  formData (before ++ (key, v) :: after) form = Throw e.
Proof.
  revert form. induction before as [| [k x] before IH];
    intros form Hall Hv He.
  - cbn [app formData]. now rewrite Hv, He.
  - assert (Hb : forall kv, kv ∈ before -> given kv.2 = true ->
                            exists text, String_of kv.2 = Ok text)
      by (intros kv Hkv; apply Hall; now right).
    cbn [app formData]. destruct (given x) eqn:Hx.
    + destruct (Hall (k, x) ltac:(left) Hx) as [text Htext].
      cbn [snd] in Htext. rewrite Htext. now apply IH.
    + now apply IH.
Qed.

Lemma defaultHeaders_spread : spread [] defaultHeaders = defaultHeaders.
Proof. reflexivity. Qed.

Section WithNetwork.

Variable Net : Type.
Variable Json : Type.
Variable JSON_stringify : data -> outcome (option string).
Variable fetch : string -> RequestInit -> M Net (Response Net Json).

Local Abbreviation requestOptions := (requestOptions JSON_stringify).
Local Abbreviation makeRequest :=
  (makeRequest Net Json JSON_stringify fetch).

(** The request that [makeRequest] hands to [fetch]. The headers of the
    caller win over the two defaults, which stay for the names the
    caller does not give. A GET has no body. The body of a POST is
    form-encoded when the header named Content-Type, in this spelling,
    is the form type: it then holds every field that is neither null
    nor undefined, a string as it is and any other value as the text
    that [String] makes of it, and a conversion that throws ends the
    making of the request with what it threw. With any other value of
    that header, and without it, a content type given in lower case
    included, the body is what [JSON.stringify] makes of the data (no
    body when that is undefined), and what it throws ends the making of
    the request. *)
Theorem requestOptions_spec (m : method) (d : option data)
    (hs : option obj) :
  NoDup (default [] hs).*1 ->
  let with_body b :=
    {| ri_method := m; ri_headers := requestHeaders hs; ri_body := b |} in
  let form := "application/x-www-form-urlencoded" in
  (forall key v, (key, v) ∈ default [] hs ->
                 lookup key (requestHeaders hs) = Some v)
  /\ (forall key, key ∉ (default [] hs).*1 ->
                  lookup key (requestHeaders hs) = lookup key defaultHeaders)
  /\ (m = GET \/ d = None -> requestOptions m d hs = Ok (with_body None))
  /\ (forall d',
        m = POST -> d = Some d' ->
        (("Content-Type", form) ∈ default [] hs ->
         ((forall kv, kv ∈ d' -> given kv.2 = true ->
                      exists text, String_of kv.2 = Ok text) ->
          requestOptions m d hs
          = Ok (with_body
                  (Some (FormUrlencoded.toString
                           (omap (fun kv : string * unknown =>
                                    if given kv.2 then
                                      match String_of kv.2 with
                                      | Ok text => Some (kv.1, text)
                                      | Throw _ => None
                                      end
                                    else None) d')))))
         /\ (forall before key v after e,
               d' = before ++ (key, v) :: after ->
               (forall kv, kv ∈ before -> given kv.2 = true ->
                           exists text, String_of kv.2 = Ok text) ->
               given v = true -> String_of v = Throw e ->
               requestOptions m d hs = Throw e))
        /\ ((forall other,
               ("Content-Type", other) ∈ default [] hs -> other <> form)
            ->
            requestOptions m d hs
            = match JSON_stringify d' with
              | Ok text => Ok (with_body text)
              | Throw e => Throw e
              end)).
Proof.
  intros Hnd with_body form.
  assert (Hgiven : forall key v, (key, v) ∈ default [] hs ->
                                 lookup key (requestHeaders hs) = Some v).
  { intros key v Hin. now apply lookup_spread_source. }
  assert (Hleft : forall key, key ∉ (default [] hs).*1 ->
                              lookup key (requestHeaders hs)
                              = lookup key defaultHeaders).
  { intros key Hk. unfold requestHeaders.
    rewrite lookup_spread_target by exact Hk.
    now rewrite defaultHeaders_spread. }
  split; [exact Hgiven |]. split; [exact Hleft |]. split.
  - unfold ExpoHttpAdapter.requestOptions.
    intros [-> | ->]; [now destruct d | reflexivity].
  - intros d' -> ->. unfold ExpoHttpAdapter.requestOptions. split.
    + intros Hin. rewrite (Hgiven _ _ Hin).
      rewrite bool_decide_eq_true_2 by reflexivity. split.
      * intros Hall. now rewrite (formData_returns d' [] Hall).
      * intros before key v after e -> Hall Hv He.
        now rewrite (formData_throws before after key v e [] Hall Hv He).
    + intros Hother.
      destruct (decide ("Content-Type" ∈ (default [] hs).*1)) as [Hk | Hk].
      * apply list_elem_of_fmap in Hk as ([k other] & Hname & Hin).
        cbn [fst] in Hname. subst k.
        rewrite (Hgiven _ _ Hin).
        rewrite bool_decide_eq_false_2; [reflexivity |].
        intros [= Heq]. exact (Hother other Hin Heq).
      * rewrite (Hleft _ Hk).
        rewrite bool_decide_eq_false_2 by discriminate. reflexivity.
Qed.

(** Whatever goes wrong in [makeRequest] surfaces as one Error whose
    message is Network request failed: and the text of the cause, the
    cause being what the making of the body threw, what [fetch] rejected
    with, or what the reading of the body of the answer rejected with;
    and nothing else is thrown. *)
Theorem makeRequest_failures (m : method) (url : string) (d : option data)
    (hs : option obj) (net : Net) :
  let failed (cause : exn) (net' : Net) :=
    makeRequest m url d hs net
    = (Throw (JsError ("Network request failed: " +:+ exn_to_string cause)),
       net') in
  (forall cause, requestOptions m d hs = Throw cause -> failed cause net)
  /\ (forall req,
        requestOptions m d hs = Ok req ->
        (forall cause net1,
           fetch url req net = (Throw cause, net1) -> failed cause net1)
        /\ (forall resp net1 cause net2,
              fetch url req net = (Ok resp, net1) ->
              is_json resp = true ->
              resp_json resp net1 = (Throw cause, net2) ->
              failed cause net2)
        /\ (forall resp net1 cause net2,
              fetch url req net = (Ok resp, net1) ->
              is_json resp = false ->
              resp_text resp net1 = (Throw cause, net2) ->
              failed cause net2))
  /\ (forall thrown,
        (makeRequest m url d hs net).1 = Throw thrown ->
        exists cause,
          thrown
          = JsError ("Network request failed: " +:+ exn_to_string cause)
          /\ (requestOptions m d hs = Throw cause
              \/ exists req,
                   requestOptions m d hs = Ok req
                   /\ ((fetch url req net).1 = Throw cause
                       \/ exists resp net1,
                            fetch url req net = (Ok resp, net1)
                            /\ if is_json resp
                               then (resp_json resp net1).1 = Throw cause
                               else (resp_text resp net1).1 = Throw cause))).
Proof.
  intros failed. subst failed. cbv beta.
  unfold ExpoHttpAdapter.makeRequest, try_catch, bind, ret, throw, pure.
  destruct (requestOptions m d hs) as [req | e0].
  - split; [discriminate |]. split.
    + intros req' [= <-]. split; [| split].
      * intros cause net1 ->. reflexivity.
      * intros resp net1 cause net2 -> -> ->. reflexivity.
      * intros resp net1 cause net2 -> -> ->. reflexivity.
    + intros thrown.
      destruct (fetch url req net) as [[resp | e1] net1] eqn:Hfetch.
      * destruct (is_json resp) eqn:Hjson.
        -- destruct (resp_json resp net1) as [[j | e2] net2] eqn:Hread;
             cbn; intros [=]; subst.
           exists e2. split; [reflexivity |]. right. exists req.
           split; [reflexivity |]. right. exists resp, net1.
           split; [exact Hfetch |]. now rewrite Hjson, Hread.
        -- destruct (resp_text resp net1) as [[s | e2] net2] eqn:Hread;
             cbn; intros [=]; subst.
           exists e2. split; [reflexivity |]. right. exists req.
           split; [reflexivity |]. right. exists resp, net1.
           split; [exact Hfetch |]. now rewrite Hjson, Hread.
      * cbn. intros [= <-]. exists e1. split; [reflexivity |].
        right. exists req. split; [reflexivity |]. left.
        now rewrite Hfetch.
  - split; [intros cause [= <-]; reflexivity |].
    split; [discriminate |].
    cbn. intros thrown [= <-]. exists e0. split; [reflexivity |]. now left.
Qed.

(** The answer that [makeRequest] returns: the status of the response;
    its body parsed as JSON exactly when its content type mentions
    application/json, and as text otherwise, a missing content type
    included; and its headers, one property for each. *)
Theorem makeRequest_response (m : method) (url : string) (d : option data)
    (hs : option obj) (req : RequestInit) (net net1 : Net)
    (resp : Response Net Json) :
  requestOptions m d hs = Ok req ->
  fetch url req net = (Ok resp, net1) ->
  NoDup (resp_headers resp).*1 ->
  let is_json := match lookup "content-type" (resp_headers resp) with
                 | Some ct => includes_text ct "application/json"
                 | None => false
                 end in
  (forall j net2,
     is_json = true -> resp_json resp net1 = (Ok j, net2) ->
     makeRequest m url d hs net
     = (Ok {| status := resp_status resp; response_data := JsonBody j;
              headers := resp_headers resp |}, net2))
  /\ (forall s net2,
        is_json = false -> resp_text resp net1 = (Ok s, net2) ->
        makeRequest m url d hs net
        = (Ok {| status := resp_status resp;
                 response_data := TextBody s;
                 headers := resp_headers resp |}, net2)).
Proof.
  intros Hreq Hfetch Hnd is_json. subst is_json.
  assert (Hheaders : assign_all (resp_headers resp) [] = resp_headers resp).
  { apply (assign_all_fresh [] (resp_headers resp)). exact Hnd. }
  unfold ExpoHttpAdapter.makeRequest, try_catch, bind, ret, pure.
  rewrite Hreq, Hfetch, Hheaders. unfold ExpoHttpAdapter.is_json. split.
  - intros j net2 -> Hj. now rewrite Hj.
  - intros s net2 -> Hs. now rewrite Hs.
Qed.

End WithNetwork.

(** A token request: a string with a space, a number, a boolean and a
    field left undefined. Under the form type the body holds the first
    three; under a content type in lower case it is the JSON text. *)
Lemma requestOptions_spec_witness :
  let d := [("code", UString "a b"); ("expires_in", UOther (Ok "3600"));
            ("offline", UBoolean true); ("scope", UUndefined)] in
  let stringify := fun _ : data => Ok (Some "{json}") in
  let form := "application/x-www-form-urlencoded" in
  requestOptions stringify POST (Some d) (Some [("content-type", form)])
  = Ok {| ri_method := POST;
          ri_headers := [("Content-Type", "application/json");
                         ("Accept", "application/json");
                         ("content-type", form)];
          ri_body := Some "{json}" |}
  /\ requestOptions stringify POST (Some d) (Some [("Content-Type", form)])
     = Ok {| ri_method := POST;
             ri_headers := [("Content-Type", form);
                            ("Accept", "application/json")];
             ri_body := Some "code=a+b&expires_in=3600&offline=true" |}.
Proof.
  intros d stringify form. split.
  - destruct (requestOptions_spec stringify POST (Some d)
                (Some [("content-type", form)]))
      as (_ & _ & _ & Hpost).
    + apply (bool_decide_unpack _). vm_compute. exact I.
    + destruct (Hpost d eq_refl eq_refl) as [_ Hjson].
      rewrite Hjson; [reflexivity |].
      intros other Hin.
      apply elem_of_cons in Hin as [[=] | Hin].
      now apply elem_of_nil in Hin.
  - destruct (requestOptions_spec stringify POST (Some d)
                (Some [("Content-Type", form)]))
      as (_ & _ & _ & Hpost).
    + apply (bool_decide_unpack _). vm_compute. exact I.
    + destruct (Hpost d eq_refl eq_refl) as [Hform _].
      destruct (Hform ltac:(left)) as [Hreturns _].
      rewrite Hreturns; [reflexivity |].
      intros kv Hkv _. subst d.
      repeat (apply elem_of_cons in Hkv as [-> | Hkv]; [cbn; eauto |]).
      now apply elem_of_nil in Hkv.
Defined.

Lemma makeRequest_failures_witness :
  (get unit string (fun _ => Ok (Some "{json}")) offline
       "https://api.example/user" None tt).1
  = Throw (JsError
             "Network request failed: TypeError: Network request failed").
Proof.
  destruct (makeRequest_failures unit string (fun _ => Ok (Some "{json}")) offline
              GET "https://api.example/user" None None tt)
    as (_ & Hsent & _).
  destruct (Hsent _ eq_refl) as (Hfetch & _).
  unfold get.
  now rewrite (Hfetch (JsErrorOf "TypeError" "Network request failed") tt
                 eq_refl).
Defined.

Lemma makeRequest_response_witness :
  (post unit string (fun _ => Ok (Some "{json}")) answering
        "https://id.example/token" [("code", UString "X")] None tt).1
  = Ok {| status := 200; response_data := JsonBody "{}";
          headers := [("content-type",
                       "application/json; charset=utf-8")] |}.
Proof.
  destruct (makeRequest_response unit string (fun _ => Ok (Some "{json}"))
              answering POST "https://id.example/token"
              (Some [("code", UString "X")]) None _ tt tt json_response
              eq_refl eq_refl) as [Hjson _].
  - apply (bool_decide_unpack _). vm_compute. exact I.
  - exact (f_equal fst (Hjson "{}" tt eq_refl eq_refl)).
Defined.

End HttpMore.
